(** * Nested-Folder-Storage-Platform: the CSV viewer and the file tree

    A shallow embedding of the two React components of the client,
    [CsvViewer.tsx] and [FileNode.tsx], and the properties of their
    filter / sort / paginate / export pipeline and of the tree renderer.

    Modelling conventions.
    - A cell is one of the scalars the CSV parser produces under dynamic
      typing (string, number, boolean, null) or [undefined], the result of
      reading a key the row does not have.  Numbers are modelled by [Z]
      (the integer fragment of the runtime's doubles); a string is a
      sequence of code units below U+0100 (the Latin-1 range), where
      [toLowerCase] converts unit by unit and the order of strings is the
      order of their code units.  Text with code units from U+0100 on,
      where the conversion depends on the context of a character, is
      outside the model.
    - A row is a JavaScript object: its own keys in enumeration order with
      their values.
    - Arrays are mutable and shared: the component state holds references
      into a store of arrays, and [Array.prototype.sort] writes the array it
      is called on.
    - What the runtime and the libraries supply is a parameter:
      [StringToNumber] (the numeric reading of a string, [None] for NaN),
      [Array_sort] (the engine's sorting procedure), [Papa_unparse] and
      [toLocaleDateString].  Of [Array_sort] the properties assume what the
      language promises ([EcmaSort]); two procedures are given and proved to
      keep that promise: a plain insertion sort, and the procedure of V8 for
      arrays of fewer than 64 elements.  For [Papa_unparse] the documented
      behaviour of the library on an array of objects is given
      ([Papa.unparse]), up to the quoting of one field.
    - What is on screen is the output of the last render: React renders
      the component again after a state setter only when the setter is given
      a value other than the one the hook holds ([Screen]).

    The file has two parts: the model, then the properties. *)

From Stdlib Require Import ZArith Ascii String List Lia Bool.
From stdpp Require Import base tactics option list numbers pretty sorting.

Local Open Scope string_scope.
Local Open Scope Z_scope.
Local Open Scope list_scope.

Set Warnings "-register-all".

(** * Part I: the model *)

(** ** Strings *)

Module JsString.

(** [String.prototype.toLowerCase] on code units below U+0100: the
    capital letters A to Z (U+0041 to U+005A), À to Ö (U+00C0 to U+00D6)
    and Ø to Þ (U+00D8 to U+00DE) have their lower case 32 units above;
    every other unit is its own lower case. *)
Definition lowerChar (c : ascii) : ascii :=
  let n := N_of_ascii c in
  if (((65 <=? n) && (n <=? 90))
      || ((192 <=? n) && (n <=? 214))
      || ((216 <=? n) && (n <=? 222)))%N
  then ascii_of_N (n + 32) else c.

Fixpoint toLowerCase (s : string) : string :=
  match s with
  | EmptyString => EmptyString
  | String c s' => String (lowerChar c) (toLowerCase s')
  end.

(** [s.startsWith(p)] at position 0. *)
Fixpoint startsWith (s p : string) : bool :=
  match p, s with
  | EmptyString, _ => true
  | String c p', String d s' => Ascii.eqb c d && startsWith s' p'
  | String _ _, EmptyString => false
  end.

(** [s.includes(sub)]: [sub] occurs in [s] at some position. *)
Fixpoint includes (s sub : string) : bool :=
  startsWith s sub
  || match s with
     | EmptyString => false
     | String _ s' => includes s' sub
     end.

(** A truthy string is a non-empty one. *)
Definition truthy (s : string) : bool :=
  match s with EmptyString => false | String _ _ => true end.

(** The declarative reading of [includes]. *)
Definition occurs_in (sub s : string) : Prop :=
  exists pre post, s = pre +:+ sub +:+ post.

(** [s] contains [q], letter case ignored. *)
Definition contains_ci (s q : string) : Prop :=
  occurs_in (toLowerCase q) (toLowerCase s).

End JsString.

(** ** Cell values and rows *)

Inductive value : Type :=
  | VUndefined
  | VNull
  | VBool (b : bool)
  | VNum (n : Z)
  | VStr (s : string).

(** [String(v)]. *)
Definition ToString (v : value) : string :=
  match v with
  | VUndefined => "undefined"
  | VNull => "null"
  | VBool true => "true"
  | VBool false => "false"
  | VNum n => pretty n
  | VStr s => s
  end.

(** [ToBoolean]: the falsy values are undefined, null, false, 0 and the
    empty string. *)
Definition truthy (v : value) : bool :=
  match v with
  | VUndefined | VNull => false
  | VBool b => b
  | VNum n => negb (n =? 0)
  | VStr s => JsString.truthy s
  end.

(** [a || b] on values. *)
Definition js_or (a b : value) : value := if truthy a then a else b.

(** A row object: own enumerable keys, in enumeration order. *)
Definition Row : Type := list (string * value).

(** [row[key]]: a missing key reads as [undefined] (the properties a row
    inherits from [Object.prototype] are not modelled). *)
Fixpoint get (row : Row) (key : string) : value :=
  match row with
  | [] => VUndefined
  | (k, v) :: rest => if String.eqb k key then v else get rest key
  end.

(** [Object.keys(row)] and [Object.values(row)]. *)
Definition Object_keys (row : Row) : list string := map fst row.
Definition Object_values (row : Row) : list value := map snd row.

(** ** The search filter (CsvViewer.tsx, lines 52-59) *)

(** The callback of [some]: the lower-cased string form of the value
    includes the lower-cased query. *)
Definition valueMatches (searchQuery : string) (v : value) : bool :=
  JsString.includes (JsString.toLowerCase (ToString v))
                    (JsString.toLowerCase searchQuery).

(** The callback of [data.filter]. *)
Definition rowMatches (searchQuery : string) (row : Row) : bool :=
  existsb (valueMatches searchQuery) (Object_values row).

(** The rows the sort is applied to: [data] itself for a falsy (empty)
    query, the filtered copy otherwise. *)
Definition filterRows (searchQuery : string) (data : list Row) : list Row :=
  if JsString.truthy searchQuery
  then List.filter (rowMatches searchQuery) data
  else data.

(** ** The sort comparator (CsvViewer.tsx, lines 63-70) *)

Inductive Direction : Type := asc | desc.

Record SortConfig : Type := mkSortConfig {
  key : string;
  direction : Direction
}.

Definition Direction_eqb (d e : Direction) : bool :=
  match d, e with
  | asc, asc | desc, desc => true
  | _, _ => false
  end.

Section Comparison.

(** The numeric reading of a string by the runtime ([None] is NaN). *)
Variable StringToNumber : string -> option Z.

(** [ToNumber] ([None] is NaN). *)
Definition ToNumber (v : value) : option Z :=
  match v with
  | VUndefined => None
  | VNull => Some 0
  | VBool true => Some 1
  | VBool false => Some 0
  | VNum n => Some n
  | VStr s => StringToNumber s
  end.

(** [a < b]: two strings compare by code units; otherwise both operands
    are read as numbers and a NaN makes the comparison false. *)
Definition js_lt (a b : value) : bool :=
  match a, b with
  | VStr s, VStr t => String.ltb s t
  | _, _ =>
      match ToNumber a, ToNumber b with
      | Some x, Some y => x <? y
      | _, _ => false
      end
  end.

(** [a > b] is [b < a]. *)
Definition js_gt (a b : value) : bool := js_lt b a.

(** The callback of [filtered.sort]. *)
Definition compareRows (sortConfig : SortConfig) (a b : Row) : Z :=
  let aValue := get a (key sortConfig) in
  let bValue := get b (key sortConfig) in
  if js_lt aValue bValue
  then (if Direction_eqb (direction sortConfig) asc then -1 else 1)
  else if js_gt aValue bValue
  then (if Direction_eqb (direction sortConfig) asc then 1 else -1)
  else 0.

End Comparison.

(** The kinds of column on which the comparator is well behaved: values
    that are read as numbers without a string conversion, and strings. *)
Definition numeric (v : value) : bool :=
  match v with
  | VNull | VBool _ | VNum _ => true
  | VUndefined | VStr _ => false
  end.

Definition is_string (v : value) : bool :=
  match v with
  | VStr _ => true
  | _ => false
  end.

(** ** Arrays (the shared store) *)

Abbreviation ref := nat.
Abbreviation Store := (list (list Row)).

(** The contents of the array behind a reference. *)
Definition read (σ : Store) (r : ref) : list Row := default [] (σ !! r).

(** Writing an array in place: every holder of the reference sees it. *)
Definition write (σ : Store) (r : ref) (rows : list Row) : Store :=
  <[r := rows]> σ.

(** A new array object. *)
Definition alloc (σ : Store) (rows : list Row) : ref * Store :=
  (length σ, σ ++ [rows]).

(** [arr.slice(start, end)]. *)
Definition slice {A : Type} (l : list A) (start final : Z) : list A :=
  let len := Z.of_nat (length l) in
  let from := if start <? 0 then Z.max (len + start) 0 else Z.min start len in
  let to := if final <? 0 then Z.max (len + final) 0 else Z.min final len in
  take (Z.to_nat (to - from)) (drop (Z.to_nat from) l).

(** [Math.ceil(n / d)] for a non-negative integer [n] and positive [d]. *)
Definition Math_ceil_div (n d : Z) : Z :=
  n / d + (if n mod d =? 0 then 0 else 1).

(** ** The component state (CsvViewer.tsx, lines 6-18) *)

Record State : Type := mkState {
  store : Store;
  data : ref;
  columns : list string;
  filteredData : ref;
  searchQuery : string;
  sortConfig : option SortConfig;
  currentPage : Z;
  loading : bool;
  error : option string
}.

Definition itemsPerPage : Z := 50.

(** The rows behind [data] and [filteredData]. *)
Definition dataRows (st : State) : list Row := read (store st) (data st).
Definition filteredRows (st : State) : list Row :=
  read (store st) (filteredData st).

(** Both references point into the store. *)
Definition wf (st : State) : Prop :=
  (data st < length (store st))%nat /\
  (filteredData st < length (store st))%nat.

(** The values of the [useState] calls: two distinct empty arrays. *)
Definition initialState : State :=
  {| store := [[]; []]; data := 0%nat; columns := []; filteredData := 1%nat;
     searchQuery := EmptyString; sortConfig := None; currentPage := 1;
     loading := true; error := None |}.

(** ** Loading (CsvViewer.tsx, lines 20-47) *)

Record ParseError : Type := mkParseError {
  err_type : string;
  err_code : string;
  err_message : string
}.

(** What [Papa.parse] returns: [data], [errors] and [meta.fields]. *)
Record ParseResult : Type := mkParseResult {
  parsed_data : list Row;
  parsed_errors : list ParseError;
  meta_fields : option (list string)
}.

(** How a load attempt goes: the reader fails (it then fires its error
    event, for which no handler is installed, and [onload] never runs), or
    [onload] runs and the body of its [try] throws, or the parser returns. *)
Inductive LoadOutcome : Type :=
  | ReadFails
  | Throws
  | Parsed (parsed : ParseResult).

(** The state updates of one load attempt. *)
Definition onload (o : LoadOutcome) (st : State) : State :=
  match o with
  | ReadFails => st
  | Throws =>
      (* catch: setError(...); setLoading(false) *)
      {| store := store st; data := data st; columns := columns st;
         filteredData := filteredData st; searchQuery := searchQuery st;
         sortConfig := sortConfig st; currentPage := currentPage st;
         loading := false; error := Some "Failed to load CSV file" |}
  | Parsed parsed =>
      if (0 <? length (parsed_errors parsed))%nat
      then
        (* setError(...); return *)
        {| store := store st; data := data st; columns := columns st;
           filteredData := filteredData st; searchQuery := searchQuery st;
           sortConfig := sortConfig st; currentPage := currentPage st;
           loading := loading st; error := Some "Error parsing CSV file" |}
      else
        (* setData; setFilteredData; setColumns; setLoading(false) *)
        let '(d, σ) := alloc (store st) (parsed_data parsed) in
        {| store := σ; data := d;
           columns := default [] (meta_fields parsed);
           filteredData := d; searchQuery := searchQuery st;
           sortConfig := sortConfig st; currentPage := currentPage st;
           loading := false; error := error st |}
  end.

Section Viewer.

Variable StringToNumber : string -> option Z.

(** [Array.prototype.sort]: the engine's procedure, from a comparator and
    the contents of the array to its new contents. *)
Variable Array_sort : (Row -> Row -> Z) -> list Row -> list Row.

(** *** The recompute effect (CsvViewer.tsx, lines 49-75) *)

(** [let filtered = data; if (searchQuery) filtered = data.filter(...)]:
    the reference held by [filtered], and the store. *)
Definition applySearchFilter (st : State) : ref * Store :=
  if JsString.truthy (searchQuery st)
  then alloc (store st)
         (List.filter (rowMatches (searchQuery st)) (dataRows st))
  else (data st, store st).

(** [if (sortConfig) filtered.sort(...)]: the array is sorted in place. *)
Definition applySorting (st : State) (filtered : ref) (σ : Store) : Store :=
  match sortConfig st with
  | Some cfg =>
      write σ filtered
        (Array_sort (compareRows StringToNumber cfg) (read σ filtered))
  | None => σ
  end.

Definition recompute (st : State) : State :=
  let '(filtered, σ1) := applySearchFilter st in
  let σ2 := applySorting st filtered σ1 in
  (* setFilteredData(filtered); setCurrentPage(1) *)
  {| store := σ2; data := data st; columns := columns st;
     filteredData := filtered; searchQuery := searchQuery st;
     sortConfig := sortConfig st; currentPage := 1;
     loading := loading st; error := error st |}.

(** The rows the effect leaves in [filteredData], from the rows of [data],
    the query and the sort configuration it starts with. *)
Definition derivedRows (rows : list Row) (q : string)
    (cfg : option SortConfig) : list Row :=
  match cfg with
  | Some cfg => Array_sort (compareRows StringToNumber cfg) (filterRows q rows)
  | None => filterRows q rows
  end.

(** Mounting runs the recompute effect on the initial state. *)
Definition mount : State := recompute initialState.

(** A load attempt; the recompute effect runs when [data] was replaced. *)
Definition load (o : LoadOutcome) (st : State) : State :=
  let st' := onload o st in
  if (data st' =? data st)%nat then st' else recompute st'.

(** *** Handlers *)

(** [onChange] of the search box: [setSearchQuery(e.target.value)]; the
    effect runs when the query changed. *)
Definition setSearchQuery (q : string) (st : State) : State :=
  if String.eqb q (searchQuery st) then st
  else
    recompute
      {| store := store st; data := data st; columns := columns st;
         filteredData := filteredData st; searchQuery := q;
         sortConfig := sortConfig st; currentPage := currentPage st;
         loading := loading st; error := error st |}.

(** The state updater of [handleSort] (lines 77-82). *)
Definition nextSortConfig (current : option SortConfig) (column : string)
  : SortConfig :=
  {| key := column;
     direction :=
       match current with
       | Some c =>
           if String.eqb (key c) column && Direction_eqb (direction c) asc
           then desc else asc
       | None => asc
       end |}.

(** [handleSort(column)]: the new configuration is a new object, so the
    effect always runs. *)
Definition handleSort (column : string) (st : State) : State :=
  recompute
    {| store := store st; data := data st; columns := columns st;
       filteredData := filteredData st; searchQuery := searchQuery st;
       sortConfig := Some (nextSortConfig (sortConfig st) column);
       currentPage := currentPage st;
       loading := loading st; error := error st |}.

(** *** Pagination (lines 122-125 and 202-237) *)

Definition totalPages (st : State) : Z :=
  Math_ceil_div (Z.of_nat (length (filteredRows st))) itemsPerPage.
Definition startIndex (st : State) : Z := (currentPage st - 1) * itemsPerPage.
Definition endIndex (st : State) : Z := startIndex st + itemsPerPage.
Definition currentData (st : State) : list Row :=
  slice (filteredRows st) (startIndex st) (endIndex st).

(** [n] clamped into [1 .. totalPages]. *)
Definition clampPage (st : State) (n : Z) : Z :=
  Z.max 1 (Z.min (totalPages st) n).

(** [setCurrentPage(n)]: [currentPage] is no dependency of the effect. *)
Definition setCurrentPage (n : Z) (st : State) : State :=
  {| store := store st; data := data st; columns := columns st;
     filteredData := filteredData st; searchQuery := searchQuery st;
     sortConfig := sortConfig st; currentPage := n;
     loading := loading st; error := error st |}.

(** The Previous button, a numbered button, the Next button. *)
Definition clickPrevious (st : State) : State :=
  setCurrentPage (Z.max 1 (currentPage st - 1)) st.
Definition clickPage (pageNum : Z) (st : State) : State :=
  setCurrentPage pageNum st.
Definition clickNext (st : State) : State :=
  setCurrentPage (Z.min (totalPages st) (currentPage st + 1)) st.

(** The numbered buttons that are rendered: [1 .. min(5, totalPages)]. *)
Definition pageButtons (st : State) : list Z :=
  map (fun i => Z.of_nat i + 1) (seq 0 (Z.to_nat (Z.min 5 (totalPages st)))).

(** *** Export (lines 95-102) *)

Record File : Type := mkFile { name : string }.

(** The blob offered for download and the name of the link. *)
Record Download : Type := mkDownload {
  blob_text : string;
  blob_type : string;
  download : string
}.

(** [Papa.unparse], applied to an array of row objects. *)
Variable Papa_unparse : list Row -> string.

Definition exportData (file : File) (st : State) : Download :=
  {| blob_text := Papa_unparse (filteredRows st);
     blob_type := "text/csv;charset=utf-8;";
     download := "filtered_" +:+ name file |}.

(** *** Rendering (lines 104-242) *)

Record Cell : Type := mkCell {
  title : string;   (* title={String(row[column])} *)
  text : string     (* {String(row[column] || "")} *)
}.

Definition renderCell (row : Row) (column : string) : Cell :=
  {| title := ToString (get row column);
     text := ToString (js_or (get row column) (VStr EmptyString)) |}.

Record PageButton : Type := mkPageButton { pageNum : Z; isActive : bool }.

Record PaginationBar : Type := mkPaginationBar {
  showing_from : Z;
  showing_to : Z;
  showing_of : Z;
  previous_disabled : bool;
  numbered : list PageButton;
  next_disabled : bool
}.

Record TableView : Type := mkTableView {
  search_value : string;
  shown_of_total : nat * nat;
  header : list string;
  body : list (list Cell);
  pagination : option PaginationBar
}.

Inductive View : Type :=
  | Spinner (caption : string)
  | ErrorPanel (message hint : string)
  | Table (t : TableView).

Definition renderTable (st : State) : TableView :=
  {| search_value := searchQuery st;
     shown_of_total := (length (filteredRows st), length (dataRows st));
     header := columns st;
     body := map (fun row => map (renderCell row) (columns st))
                 (currentData st);
     pagination :=
       if 1 <? totalPages st
       then Some
         {| showing_from := startIndex st + 1;
            showing_to :=
              Z.min (endIndex st) (Z.of_nat (length (filteredRows st)));
            showing_of := Z.of_nat (length (filteredRows st));
            previous_disabled := currentPage st =? 1;
            numbered :=
              map (fun n => {| pageNum := n; isActive := n =? currentPage st |})
                  (pageButtons st);
            next_disabled := currentPage st =? totalPages st |}
       else None |}.

(** [if (loading) ...; if (error) ...; return <table>]. *)
Definition render (st : State) : View :=
  if loading st then Spinner "Loading CSV data..."
  else
    match error st with
    | Some message =>
        if JsString.truthy message
        then ErrorPanel message
               "Please check your CSV file format and try again."
        else Table (renderTable st)
    | None => Table (renderTable st)
    end.

(** *** The viewer as a transition system *)

Inductive Event : Type :=
  | EvLoad (o : LoadOutcome)
  | EvSearch (q : string)
  | EvSort (column : string)
  | EvPrevious
  | EvPage (n : Z)
  | EvNext.

Definition handle (e : Event) (st : State) : State :=
  match e with
  | EvLoad o => load o st
  | EvSearch q => setSearchQuery q st
  | EvSort column => handleSort column st
  | EvPrevious => clickPrevious st
  | EvPage n => clickPage n st
  | EvNext => clickNext st
  end.

(** The table, and with it the controls, is what [render] returns. *)
Definition tableShown (st : State) : bool :=
  negb (loading st)
  && match error st with
     | Some message => negb (JsString.truthy message)
     | None => true
     end.

(** The events the rendered view can raise: a load at any time; the
    search box and the column headers with the table; the pagination
    buttons when there is more than one page and they are not disabled. *)
Definition offered (e : Event) (st : State) : bool :=
  match e with
  | EvLoad _ => true
  | EvSearch _ => tableShown st
  | EvSort column => tableShown st && existsb (String.eqb column) (columns st)
  | EvPrevious =>
      tableShown st && (1 <? totalPages st) && negb (currentPage st =? 1)
  | EvPage n =>
      tableShown st && (1 <? totalPages st)
      && existsb (Z.eqb n) (pageButtons st)
  | EvNext =>
      tableShown st && (1 <? totalPages st)
      && negb (currentPage st =? totalPages st)
  end.

Inductive reachable : State -> Prop :=
  | reachable_mount : reachable mount
  | reachable_step e st :
      reachable st -> offered e st = true -> reachable (handle e st).

End Viewer.

(** ** What the language promises of [Array.prototype.sort] *)

Section SortContract.

Context {A : Type}.
Implicit Types (c : A -> A -> Z) (l : list A).

(** A consistent comparator for the elements of [l] (ECMA-262,
    Array.prototype.sort): reflexive and symmetric on "equal", and
    transitive on "equal", "less" and "greater". *)
Record consistent c l : Prop := mkConsistent {
  cmp_refl : forall a, a ∈ l -> c a a = 0;
  cmp_sym : forall a b, a ∈ l -> b ∈ l -> c a b = 0 -> c b a = 0;
  cmp_trans_eq : forall a b d, a ∈ l -> b ∈ l -> d ∈ l ->
    c a b = 0 -> c b d = 0 -> c a d = 0;
  cmp_trans_lt : forall a b d, a ∈ l -> b ∈ l -> d ∈ l ->
    c a b < 0 -> c b d < 0 -> c a d < 0;
  cmp_trans_gt : forall a b d, a ∈ l -> b ∈ l -> d ∈ l ->
    c a b > 0 -> c b d > 0 -> c a d > 0
}.

(** The same, as a check that runs on a given list. *)
Definition consistentb c l : bool :=
  forallb (fun a =>
    (c a a =? 0)
    && forallb (fun b =>
         implb (c a b =? 0) (c b a =? 0)
         && forallb (fun d =>
              implb ((c a b =? 0) && (c b d =? 0)) (c a d =? 0)
              && implb ((c a b <? 0) && (c b d <? 0)) (c a d <? 0)
              && implb ((0 <? c a b) && (0 <? c b d)) (0 <? c a d)) l) l) l.

(** [x] may stand before [y] in a sorted array: [y] is not less than [x]. *)
Definition may_precede c (x y : A) : Prop := 0 <= c y x.

(** The rows that compare equal to [a], in array order. *)
Definition equals_of c (a : A) l : list A :=
  List.filter (fun x => c a x =? 0) l.

(** The sort order the language requires: always a rearrangement of the
    array; for a consistent comparator also ordered, and stable.  For a
    comparator that is not consistent the order is implementation-defined. *)
Definition EcmaSort (sort : (A -> A -> Z) -> list A -> list A) : Prop :=
  forall c l,
    sort c l ≡ₚ l /\
    (consistent c l ->
       StronglySorted (may_precede c) (sort c l) /\
       forall a, a ∈ l -> equals_of c a (sort c l) = equals_of c a l).

(** [x] stands before [y] in [l]. *)
Definition before (x y : A) l : Prop := [x; y] `sublist_of` l.

(** From [l] to [l'], any two elements that compare equal keep their
    relative order. *)
Definition ties_keep_order c l l' : Prop :=
  forall x y, before x y l -> c x y = 0 -> before x y l'.

End SortContract.

(** ** Two sorting procedures *)

Section Engines.

Context {A : Type} (comparefn : A -> A -> Z).

(** *** Insertion sort

    Each element is put before the first element that is not less than it. *)
Fixpoint insert (x : A) (sorted : list A) : list A :=
  match sorted with
  | [] => [x]
  | y :: rest =>
      if comparefn y x <? 0 then y :: insert x rest else x :: y :: rest
  end.

Fixpoint insertion_sort (l : list A) : list A :=
  match l with
  | [] => []
  | x :: rest => insert x (insertion_sort rest)
  end.

(** *** V8, arrays of fewer than 64 elements (builtins/array-sort.tq)

    The array is one run: [CountAndMakeRun] finds the longest ascending or
    strictly descending prefix and reverses it when descending, and
    [BinaryInsertionSort] inserts the remaining elements one by one at the
    position a binary search finds.  (From 64 elements on the engine sorts
    runs of at least 32 elements this way and merges them.) *)

(** The loop of [CountAndMakeRun]: the elements that extend the run, and
    those left. *)
Fixpoint extendRun (isDescending : bool) (previousElement : A)
    (rest : list A) : list A * list A :=
  match rest with
  | [] => ([], [])
  | currentElement :: rest' =>
      let order := comparefn currentElement previousElement in
      if (if isDescending then 0 <=? order else order <? 0)
      then ([], rest)
      else
        let '(run, tail) := extendRun isDescending currentElement rest' in
        (currentElement :: run, tail)
  end.

(** What the loop checks between an element of the run and the next. *)
Definition run_step (isDescending : bool) (previous current : A) : Prop :=
  if isDescending then comparefn current previous < 0
  else 0 <= comparefn current previous.

Definition CountAndMakeRun (l : list A) : list A * list A :=
  match l with
  | [] => ([], [])
  | [x] => ([x], [])
  | elementHigh :: elementLow :: rest =>
      let isDescending := comparefn elementLow elementHigh <? 0 in
      let '(run, tail) := extendRun isDescending elementLow rest in
      let whole := elementHigh :: elementLow :: run in
      (if isDescending then rev whole else whole, tail)
  end.

(** The binary search of [BinaryInsertionSort] for the insertion point of
    [pivot] in [sorted], between [left] and [right]. *)
Fixpoint findInsertionPoint (fuel : nat) (sorted : list A) (pivot : A)
    (left right : nat) : nat :=
  match fuel with
  | O => left
  | S fuel' =>
      if (left <? right)%nat then
        let mid := (left + (right - left) / 2)%nat in
        match sorted !! mid with
        | Some element =>
            if comparefn pivot element <? 0
            then findInsertionPoint fuel' sorted pivot left mid
            else findInsertionPoint fuel' sorted pivot (mid + 1)%nat right
        | None => left
        end
      else left
  end.

Definition binaryInsert (sorted : list A) (pivot : A) : list A :=
  let left :=
    findInsertionPoint (length sorted) sorted pivot 0%nat (length sorted) in
  take left sorted ++ pivot :: drop left sorted.

Definition v8_sort (l : list A) : list A :=
  let '(run, rest) := CountAndMakeRun l in
  fold_left binaryInsert rest run.

End Engines.

(** ** A numeric reading of strings

    [StringToNumber] on the strings that are blank, a signed run of decimal
    digits, or no numeric literal at all.  A literal with a fraction or an
    exponent (the parser's dynamic typing makes such a cell a number), with a
    radix prefix, or [Infinity], lies outside the integer fragment and is
    read as NaN here. *)

Definition isWhiteSpace (c : ascii) : bool :=
  let n := N_of_ascii c in
  ((n =? 32) || ((9 <=? n) && (n <=? 13)) || (n =? 160))%N.

Fixpoint trimStart (s : string) : string :=
  match s with
  | EmptyString => EmptyString
  | String c s' => if isWhiteSpace c then trimStart s' else s
  end.

Fixpoint trimEnd (s : string) : string :=
  match s with
  | EmptyString => EmptyString
  | String c s' =>
      match trimEnd s' with
      | EmptyString => if isWhiteSpace c then EmptyString else String c EmptyString
      | t => String c t
      end
  end.

Fixpoint readDigits (s : string) (acc : Z) : option Z :=
  match s with
  | EmptyString => Some acc
  | String c s' =>
      let n := N_of_ascii c in
      if ((48 <=? n) && (n <=? 57))%N
      then readDigits s' (acc * 10 + (Z.of_N n - 48))
      else None
  end.

Definition readDecimal (s : string) : option Z :=
  match s with
  | EmptyString => None
  | _ => readDigits s 0
  end.

Definition StringToNumber_dec (s : string) : option Z :=
  match trimEnd (trimStart s) with
  | EmptyString => Some 0
  | String "+" digits => readDecimal digits
  | String "-" digits => Z.opp <$> readDecimal digits
  | digits => readDecimal digits
  end.

(** ** The file tree (FileNode.tsx) *)

Module Tree.

(** A node as the component reads it.  A folder carries its children; the
    children of a file are never read. *)
Inductive TreeNode : Type := mkNode {
  name : string;
  type : string;
  fileType : string;
  createdAt : string;
  modifiedBy : string;
  children : list TreeNode
}.

(** The rendered markup: elements with their class and children, text, and
    icon components.  An expression that is [false] or [null] renders
    nothing, so it contributes no child. *)
Inductive Html : Type :=
  | Elem (tag className : string) (kids : list Html)
  | Text (s : string)
  | Icon (component className : string).

(** The state of a mounted [FileNode]: its [expanded] flag and the
    instances of the children it renders. *)
Inductive Instance : Type :=
  | mkInstance (expanded : bool) (mounted : list Instance).

(** [useState(false)]: a newly mounted node is collapsed. *)
Definition fresh : Instance := mkInstance false [].

Definition expanded (inst : Instance) : bool :=
  let 'mkInstance e _ := inst in e.
Definition mounted (inst : Instance) : list Instance :=
  let 'mkInstance _ m := inst in m.

Definition isFolder (node : TreeNode) : bool := String.eqb (type node) "folder".

Section Render.

(** [new Date(createdAt).toLocaleDateString()]. *)
Variable toLocaleDateString : string -> string.

Definition renderIcon (node : TreeNode) : list Html :=
  if isFolder node then [Icon "Folder" "w-4 h-4 text-blue-500"]
  else if String.eqb (fileType node) "csv"
  then [Icon "Database" "w-4 h-4 text-green-500"]
  else if String.eqb (fileType node) "pdf"
  then [Icon "FileText" "w-4 h-4 text-red-500"]
  else [].

Definition getFileTypeColor (node : TreeNode) : string :=
  if isFolder node then "hover:bg-blue-50"
  else if String.eqb (fileType node) "csv" then "hover:bg-green-50"
  else if String.eqb (fileType node) "pdf" then "hover:bg-red-50"
  else "hover:bg-slate-50".

(** The clickable row of a node (lines 26-71). *)
Definition renderRow (node : TreeNode) (isExpanded : bool) : Html :=
  Elem "div"
    ("flex items-center space-x-2 px-2 py-2 rounded-lg cursor-pointer transition-all duration-150 "
     +:+ getFileTypeColor node)
    [ Elem "div" "flex-shrink-0 w-4 h-4 flex items-center justify-center"
        [ if isFolder node
          then (if isExpanded
                then Icon "ChevronDown" "w-4 h-4 text-slate-500"
                else Icon "ChevronRight" "w-4 h-4 text-slate-500")
          else Elem "div" "w-4 h-4" [] ];
      Elem "div" "flex-shrink-0" (renderIcon node);
      Elem "div" "flex-grow min-w-0"
        [ Elem "div" "flex items-center justify-between"
            (Elem "p" "font-medium text-slate-900 truncate" [Text (name node)]
             :: (if String.eqb (type node) "file"
                 then [Elem "span"
                         "text-xs text-slate-500 uppercase font-medium px-2 py-1 bg-slate-100 rounded-full ml-2"
                         [Text (fileType node)]]
                 else []));
          Elem "div" "flex items-center space-x-4 mt-1 text-xs text-slate-500"
            [ Elem "div" "flex items-center space-x-1"
                [ Icon "Clock" "w-3 h-3";
                  Elem "span" EmptyString
                    [Text (toLocaleDateString (createdAt node))] ];
              Elem "div" "flex items-center space-x-1"
                [ Icon "User" "w-3 h-3";
                  Elem "span" EmptyString [Text (modifiedBy node)] ] ] ] ].

(** The empty folder indicator (lines 83-87). *)
Definition emptyFolderIndicator : Html :=
  Elem "div" "ml-6 mt-1 border-l border-slate-200 pl-4"
    [Elem "div" "text-xs text-slate-500 italic py-2" [Text "Empty folder"]].

(** The component (lines 24-89). *)
Fixpoint FileNode (node : TreeNode) (inst : Instance) {struct node} : Html :=
  Elem "div" "select-none"
    (renderRow node (expanded inst)
     :: (if expanded inst && isFolder node
            && (0 <? length (children node))%nat
         then [Elem "div" "ml-6 mt-1 space-y-1 border-l border-slate-200 pl-4"
                 ((fix renderChildren (cs : list TreeNode) (insts : list Instance)
                     : list Html :=
                     match cs with
                     | [] => []
                     | child :: cs' =>
                         FileNode child (hd fresh insts)
                         :: renderChildren cs' (tl insts)
                     end) (children node) (mounted inst))]
         else [])
     ++ (if expanded inst && isFolder node
            && (length (children node) =? 0)%nat
         then [emptyFolderIndicator]
         else [])).

End Render.

(** [toggle]: [setExpanded(!expanded)].  Children are mounted, collapsed,
    when the node starts to render them, and unmounted when it stops. *)
Definition toggle (node : TreeNode) (inst : Instance) : Instance :=
  let e := negb (expanded inst) in
  mkInstance e
    (if e && isFolder node then map (fun _ => fresh) (children node) else []).

(** A click on the row of a node: a folder toggles, a file is reported
    through [onFileClick]. *)
Definition clickRow (node : TreeNode) (inst : Instance)
  : Instance * option TreeNode :=
  if isFolder node then (toggle node inst, None) else (inst, Some node).

(** A click on the row of the node at [path] (child indices from the root);
    a node that is not rendered cannot be clicked. *)
Fixpoint click (path : list nat) (node : TreeNode) (inst : Instance)
  : Instance * option TreeNode :=
  match path with
  | [] => clickRow node inst
  | i :: path' =>
      match children node !! i, mounted inst !! i with
      | Some child, Some sub =>
          let '(sub', reported) := click path' child sub in
          (mkInstance (expanded inst) (<[i := sub']> (mounted inst)), reported)
      | _, _ => (inst, None)
      end
  end.

End Tree.

(** ** Sample files *)

(** A text column with an empty cell:
    [id,name / 1,d / 2,c / 3, / 4,a]. *)
Definition names_csv : ParseResult :=
  {| parsed_data :=
       [ [("id", VNum 1); ("name", VStr "d")];
         [("id", VNum 2); ("name", VStr "c")];
         [("id", VNum 3); ("name", VNull)];
         [("id", VNum 4); ("name", VStr "a")] ];
     parsed_errors := [];
     meta_fields := Some ["id"; "name"] |}.

(** The same with other names: [id,name / 1,b / 2,c / 3, / 4,a]. *)
Definition toggle_csv : ParseResult :=
  {| parsed_data :=
       [ [("id", VNum 1); ("name", VStr "b")];
         [("id", VNum 2); ("name", VStr "c")];
         [("id", VNum 3); ("name", VNull)];
         [("id", VNum 4); ("name", VStr "a")] ];
     parsed_errors := [];
     meta_fields := Some ["id"; "name"] |}.

(** Two numeric columns, the second with a tie: [a,b / 2,1 / 1,1]. *)
Definition ties_csv : ParseResult :=
  {| parsed_data :=
       [ [("a", VNum 2); ("b", VNum 1)];
         [("a", VNum 1); ("b", VNum 1)] ];
     parsed_errors := [];
     meta_fields := Some ["a"; "b"] |}.

(** The scenario of the specification: [name,age / Bob,30 / Amy,25]. *)
Definition people_csv : ParseResult :=
  {| parsed_data :=
       [ [("name", VStr "Bob"); ("age", VNum 30)];
         [("name", VStr "Amy"); ("age", VNum 25)] ];
     parsed_errors := [];
     meta_fields := Some ["name"; "age"] |}.

(** A viewer in V8, after loading a file. *)
Definition v8_viewer (parsed : ParseResult) : State :=
  load StringToNumber_dec v8_sort (Parsed parsed)
    (mount StringToNumber_dec v8_sort).
Definition v8_handleSort : string -> State -> State :=
  handleSort StringToNumber_dec v8_sort.

(** ** More of the viewer and of the tree *)

(** *** The sort icon of a column header (CsvViewer.tsx, lines 84-93) *)

Inductive SortIcon : Type := ArrowUpDown | ArrowUp | ArrowDown.

Definition getSortIcon (st : State) (column : string) : SortIcon :=
  match sortConfig st with
  | Some cfg =>
      if String.eqb (key cfg) column
      then (if Direction_eqb (direction cfg) asc then ArrowUp else ArrowDown)
      else ArrowUpDown
  | None => ArrowUpDown
  end.

(** The header cells (lines 163-174): the name of each column and its
    icon. *)
Definition renderHeader (st : State) : list (string * SortIcon) :=
  map (fun column => (column, getSortIcon st column)) (columns st).

(** *** Runs of events *)

Definition run (StringToNumber : string -> option Z)
    (Array_sort : (Row -> Row -> Z) -> list Row -> list Row)
    (events : list Event) (st : State) : State :=
  fold_left (fun st e => handle StringToNumber Array_sort e st) events st.

(** The rows of page [p] (1-based); [currentData] is the page
    [currentPage]. *)
Definition pageRows (rows : list Row) (p : Z) : list Row :=
  slice rows ((p - 1) * itemsPerPage) ((p - 1) * itemsPerPage + itemsPerPage).

(** The page numbers [1 .. n]. *)
Definition pageNumbers (n : Z) : list Z :=
  map (fun i => Z.of_nat i + 1) (seq 0 (Z.to_nat n)).

(** *** Positions in the tree *)

(** The node, and the mounted instance, at a path of child indices. *)
Fixpoint nodeAt (path : list nat) (node : Tree.TreeNode)
  : option Tree.TreeNode :=
  match path with
  | [] => Some node
  | i :: path' =>
      match Tree.children node !! i with
      | Some child => nodeAt path' child
      | None => None
      end
  end.

Fixpoint instanceAt (path : list nat) (inst : Tree.Instance)
  : option Tree.Instance :=
  match path with
  | [] => Some inst
  | i :: path' =>
      match Tree.mounted inst !! i with
      | Some sub => instanceAt path' sub
      | None => None
      end
  end.

(** The elements of the children of a node (the [map] of lines 76-78), each
    child with its own instance. *)
Fixpoint renderChildren (toLocaleDateString : string -> string)
    (cs : list Tree.TreeNode) (insts : list Tree.Instance)
  : list Tree.Html :=
  match cs with
  | [] => []
  | child :: cs' =>
      Tree.FileNode toLocaleDateString child (hd Tree.fresh insts)
      :: renderChildren toLocaleDateString cs' (tl insts)
  end.

(** A file of 120 rows, [n / 1 / 2 / ... / 120]. *)
Definition long_csv : ParseResult :=
  {| parsed_data :=
       map (fun i => [("n", VNum (Z.of_nat i + 1))]) (seq 0 120);
     parsed_errors := [];
     meta_fields := Some ["n"] |}.

(** ** The keys of a row object *)

(** An array index: the canonical decimal form of an integer from 0 to
    [2^32 - 2]. *)
Definition arrayIndex (k : string) : option Z :=
  match k with
  | EmptyString => None
  | String "0" EmptyString => Some 0
  | String "0" _ => None
  | _ =>
      match readDigits k 0 with
      | Some n => if n <? 4294967295 then Some n else None
      | None => None
      end
  end.

(** A new array index takes its place among the array indices, which come
    first, in ascending order. *)
Fixpoint insertIndex (i : Z) (k : string) (v : value) (row : Row) : Row :=
  match row with
  | [] => [(k, v)]
  | (k', v') :: rest =>
      match arrayIndex k' with
      | Some j =>
          if j <? i then (k', v') :: insertIndex i k v rest
          else (k, v) :: row
      | None => (k, v) :: row
      end
  end.

(** [row[k] = v] on an ordinary object, as [Object.keys] then enumerates
    it: a key the object has keeps its place; a new array index goes among
    the array indices; any other new key goes last, in order of creation. *)
Definition setProperty (row : Row) (k : string) (v : value) : Row :=
  if existsb (String.eqb k) (Object_keys row)
  then map (fun kv => if String.eqb (fst kv) k then (k, v) else kv) row
  else
    match arrayIndex k with
    | Some i => insertIndex i k v row
    | None => row ++ [(k, v)]
    end.

(** The row object the parser builds under [header: true]: starting from
    [{}], [row[field] = value] for the fields in the order of the header. *)
Definition parsedRow (fields : list string) (values : list value) : Row :=
  fold_left (fun row fv => setProperty row (fst fv) (snd fv))
            (zip fields values) [].

(** ** The serializer *)

Module Papa.

Section Unparse.

(** The quoting of one field: the text written for a value. *)
Variable safe : value -> string.

Definition newline : string := String "013" (String "010" EmptyString).
Definition delimiter : string := ",".

(** [serialize(fields, data)] for an array of objects, with the default
    configuration: the header line when there are fields, then one line per
    row holding the values of the row at the fields, in the order of
    [fields]. *)
Definition serialize (fields : list string) (rows : list Row) : string :=
  String.concat newline
    ((if (0 <? length fields)%nat
      then [String.concat delimiter (map (fun f => safe (VStr f)) fields)]
      else [])
     ++ map (fun row =>
               String.concat delimiter (map (fun f => safe (get row f)) fields))
            rows).

(** [Papa.unparse(rows)] for an array of objects and no [columns] option: the
    fields are the keys of the first object. *)
Definition unparse (rows : list Row) : string :=
  match rows with
  | [] => EmptyString
  | first :: _ => serialize (Object_keys first) rows
  end.

End Unparse.

End Papa.

(** A header with a numeric name: [b,1,a / x,y,z / p,q,r].  The fields are
    in the order of the header; the keys of the row objects are not. *)
Definition keys_csv : ParseResult :=
  {| parsed_data :=
       [ parsedRow ["b"; "1"; "a"] [VStr "x"; VStr "y"; VStr "z"];
         parsedRow ["b"; "1"; "a"] [VStr "p"; VStr "q"; VStr "r"] ];
     parsed_errors := [];
     meta_fields := Some ["b"; "1"; "a"] |}.

(** ** What is on screen *)

(** The state of the component, and the output of the last render.  A
    render reads the arrays as they are when it runs; a later write to an
    array does not change what was rendered. *)
Record Screen : Type := mkScreen {
  current : State;
  shown : View
}.

(** A render of the component in state [st]. *)
Definition paint (st : State) : Screen :=
  {| current := st; shown := render st |}.

(** The rows of the table a view shows. *)
Definition visibleRows (v : View) : list (list Cell) :=
  match v with
  | Table t => body t
  | _ => []
  end.

(** [setSortConfig(...)] of [handleSort] (lines 78-81). *)
Definition setSortConfig (column : string) (st : State) : State :=
  {| store := store st; data := data st; columns := columns st;
     filteredData := filteredData st; searchQuery := searchQuery st;
     sortConfig := Some (nextSortConfig (sortConfig st) column);
     currentPage := currentPage st;
     loading := loading st; error := error st |}.

Section OnScreen.

Variable StringToNumber : string -> option Z.
Variable Array_sort : (Row -> Row -> Z) -> list Row -> list Row.

(** The recompute effect, run after a render of [st] that showed [v].  It
    ends with [setFilteredData(filtered)] and [setCurrentPage(1)] (lines
    73-74): the component is rendered again when [filtered] is another
    array than the one [filteredData] holds or the page was not 1, and not
    otherwise. *)
Definition runEffect (st : State) (v : View) : Screen :=
  let st' := recompute StringToNumber Array_sort st in
  if (filteredData st' =? filteredData st)%nat
     && (currentPage st' =? currentPage st)
  then {| current := st'; shown := v |}
  else paint st'.

(** A click on a column header: [setSortConfig] is given a new object, so
    the component is rendered, and then the effect runs. *)
Definition clickHeader (column : string) (scr : Screen) : Screen :=
  let st := setSortConfig column (current scr) in
  runEffect st (render st).

End OnScreen.

(** ** The text of the rendered tree *)

(** [textContent]: the text of an element is the text of its children,
    one after the other; an icon has none. *)
Fixpoint textContent (h : Tree.Html) : string :=
  match h with
  | Tree.Elem _ _ kids =>
      (fix texts (l : list Tree.Html) : string :=
         match l with
         | [] => EmptyString
         | k :: l' => textContent k +:+ texts l'
         end) kids
  | Tree.Text s => s
  | Tree.Icon _ _ => EmptyString
  end.

(** What a rendered node has after its row. *)
Definition belowRow (h : Tree.Html) : list Tree.Html :=
  match h with
  | Tree.Elem _ _ (_ :: rest) => rest
  | _ => []
  end.

(** * Part II: properties *)

(** ** Strings *)

Lemma startsWith_spec s p :
  JsString.startsWith s p = true <-> exists post, s = p +:+ post.
Proof.
  revert s; induction p as [|c p IH]; intros s; simpl.
  - split; [intros _; exists s; reflexivity | intros _; by destruct s].
  - destruct s as [|d s]; simpl.
    + split; [discriminate | intros [post H]; discriminate H].
    + rewrite andb_true_iff, Ascii.eqb_eq, IH. split.
      * intros [-> [post ->]]. exists post; reflexivity.
      * intros [post H]. simpl in H. injection H as -> ->. eauto.
Qed.

Lemma includes_spec s sub :
  JsString.includes s sub = true <-> JsString.occurs_in sub s.
Proof.
  unfold JsString.occurs_in.
  induction s as [|d s IH]; cbn [JsString.includes].
  - rewrite orb_false_r, startsWith_spec. split.
    + intros [post H]. exists EmptyString, post. exact H.
    + intros [[|c pre] [post H]]; [exists post; exact H | discriminate H].
  - rewrite orb_true_iff, startsWith_spec, IH. split.
    + intros [[post H] | (pre & post & H)].
      * exists EmptyString, post. exact H.
      * exists (String d pre), post. simpl. by rewrite H.
    + intros [[|c pre] [post H]].
      * left. exists post. exact H.
      * right. simpl in H. injection H as _ H. exists pre, post. exact H.
Qed.

Lemma includes_empty s : JsString.includes s EmptyString = true.
Proof. apply includes_spec. exists EmptyString, s. reflexivity. Qed.

Lemma truthy_string_false s : JsString.truthy s = false <-> s = EmptyString.
Proof. destruct s; simpl; split; congruence. Qed.

(** ** The store *)

Lemma read_alloc σ rows : read (alloc σ rows).2 (alloc σ rows).1 = rows.
Proof.
  unfold read, alloc; cbn [fst snd].
  by rewrite list_lookup_middle.
Qed.

Lemma read_alloc_old σ rows r :
  (r < length σ)%nat -> read (alloc σ rows).2 r = read σ r.
Proof.
  intros Hr. unfold read, alloc; cbn [fst snd]. by rewrite lookup_app_l.
Qed.

Lemma read_write σ r rows :
  (r < length σ)%nat -> read (write σ r rows) r = rows.
Proof.
  intros Hr. unfold read, write. by rewrite list_lookup_insert_eq.
Qed.

Lemma read_write_other σ r r' rows :
  r <> r' -> read (write σ r rows) r' = read σ r'.
Proof.
  intros Hr. unfold read, write. by rewrite list_lookup_insert_ne.
Qed.

Lemma length_write σ r rows : length (write σ r rows) = length σ.
Proof. apply length_insert. Qed.

(** ** The filter *)

Lemma List_filter_sublist {A} (f : A -> bool) (l : list A) :
  List.filter f l `sublist_of` l.
Proof.
  induction l as [|x l IH]; simpl; [constructor|].
  destruct (f x); by constructor.
Qed.

Lemma List_filter_all {A} (f : A -> bool) (l : list A) :
  Forall (fun x => f x = true) l -> List.filter f l = l.
Proof.
  induction 1 as [|x l Hx _ IH]; simpl; [done|]. by rewrite Hx, IH.
Qed.

Lemma valueMatches_spec q v :
  valueMatches q v = true <-> JsString.contains_ci (ToString v) q.
Proof. apply includes_spec. Qed.

Lemma rowMatches_spec q r :
  rowMatches q r = true <->
  exists v, v ∈ Object_values r /\ JsString.contains_ci (ToString v) q.
Proof.
  unfold rowMatches. rewrite existsb_exists.
  split; intros (v & Hv & Hm); exists v.
  - by rewrite list_elem_of_In, <- valueMatches_spec.
  - by rewrite <- list_elem_of_In, valueMatches_spec.
Qed.

Lemma rowMatches_empty r :
  Object_values r <> [] -> rowMatches EmptyString r = true.
Proof.
  unfold rowMatches. destruct (Object_values r) as [|v vs]; [done|].
  intros _. simpl. unfold valueMatches at 1. simpl.
  by rewrite includes_empty.
Qed.

Lemma applySearchFilter_read st :
  read (applySearchFilter st).2 (applySearchFilter st).1
  = filterRows (searchQuery st) (dataRows st).
Proof.
  unfold applySearchFilter, filterRows.
  destruct (JsString.truthy (searchQuery st)); [apply read_alloc | done].
Qed.

(** C1.  The rows left by the search filter, before any sort, are exactly
    the rows of the dataset, in order, that have a field whose string form
    contains the query, letter case ignored; for the empty query they are
    all the rows of the dataset. *)
Theorem filter_retains_matching_rows (q : string) (D : list Row) :
  (forall st, dataRows st = D -> searchQuery st = q ->
     read (applySearchFilter st).2 (applySearchFilter st).1 = filterRows q D)
  /\ (q <> EmptyString -> filterRows q D = List.filter (rowMatches q) D)
  /\ (forall r, rowMatches q r = true <->
        exists v, v ∈ Object_values r /\ JsString.contains_ci (ToString v) q)
  /\ filterRows q D `sublist_of` D
  /\ (q = EmptyString -> filterRows q D = D)
  /\ (Forall (fun r => Object_values r <> []) D ->
        filterRows q D = List.filter (rowMatches q) D).
Proof.
  split_and!.
  - intros st <- <-. apply applySearchFilter_read.
  - intros Hq. unfold filterRows.
    destruct (JsString.truthy q) eqn:E; [done|].
    by apply truthy_string_false in E.
  - apply rowMatches_spec.
  - unfold filterRows. destruct (JsString.truthy q); [|done].
    apply List_filter_sublist.
  - by intros ->.
  - intros HD. unfold filterRows.
    destruct (JsString.truthy q) eqn:E; [done|].
    apply truthy_string_false in E as ->. symmetry.
    apply List_filter_all.
    eapply Forall_impl; [exact HD|]. by intros r; apply rowMatches_empty.
Qed.

(** Witness of [filter_retains_matching_rows]: the query [an] on three
    rows, and the empty query. *)
Lemma filter_retains_matching_rows_witness :
  filterRows "an"
    [ [("name", VStr "Ann"); ("age", VNum 30)];
      [("name", VStr "Bob"); ("age", VNum 25)];
      [("name", VStr "Dan"); ("age", VNull)] ]
  = [ [("name", VStr "Ann"); ("age", VNum 30)];
      [("name", VStr "Dan"); ("age", VNull)] ]
  /\ filterRows EmptyString [ [("name", VStr "Ann")]; [] ]
     = [ [("name", VStr "Ann")]; [] ]
  /\ filterRows "N" [ [("name", VStr "Ann")] ] = [ [("name", VStr "Ann")] ].
Proof.
  split_and!.
  - rewrite (proj1 (proj2 (filter_retains_matching_rows "an" _)));
      [reflexivity | discriminate].
  - apply (filter_retains_matching_rows EmptyString). reflexivity.
  - rewrite (proj2 (proj2 (proj2 (proj2 (proj2
      (filter_retains_matching_rows "N" _)))))); [reflexivity|].
    repeat constructor; discriminate.
Defined.

(** ** Cells *)

Lemma truthy_false_iff v :
  truthy v = false <->
  v = VUndefined \/ v = VNull \/ v = VBool false \/ v = VNum 0
  \/ v = VStr EmptyString.
Proof.
  split.
  - destruct v as [| |[]|n|[|c s]]; simpl; intros H; try discriminate H;
      auto 6.
    apply negb_false_iff, Z.eqb_eq in H as ->. auto 6.
  - intros [-> | [-> | [-> | [-> | ->]]]]; reflexivity.
Qed.

(** C10.  The text of a cell is empty when the value of the cell is falsy:
    a missing key, [null], the number 0, [false] or the empty string; every
    other value shows as its string form. *)
Theorem cell_text_of_falsy_value_is_empty (st : State) (row : Row)
    (column : string) :
  text (renderCell row column)
  = match get row column with
    | VUndefined | VNull | VBool false | VNum 0 | VStr EmptyString =>
        EmptyString
    | v => ToString v
    end
  /\ text (renderCell row column)
     = (if truthy (get row column) then ToString (get row column)
        else EmptyString)
  /\ body (renderTable st)
     = map (fun row => map (renderCell row) (columns st)) (currentData st).
Proof.
  split_and!; [| |reflexivity];
    unfold renderCell, js_or; simpl;
    by destruct (get row column) as [| |[]|[]|[|c s]].
Qed.

(** ** The file tree *)

Lemma FileNode_expanded_empty fmt (node : Tree.TreeNode) m :
  Tree.isFolder node = true -> Tree.children node = [] ->
  Tree.FileNode fmt node (Tree.mkInstance true m)
  = Tree.Elem "div" "select-none"
      [Tree.renderRow fmt node true; Tree.emptyFolderIndicator].
Proof.
  intros Hf Hc. destruct node as [n t ft ca mb cs]; simpl in *.
  subst cs. by rewrite Hf.
Qed.

Lemma FileNode_collapsed fmt (node : Tree.TreeNode) m :
  Tree.FileNode fmt node (Tree.mkInstance false m)
  = Tree.Elem "div" "select-none" [Tree.renderRow fmt node false].
Proof. by destruct node. Qed.

(** C9.  A folder without children, once expanded by a click on its row,
    renders after its row one element whose only text is "Empty folder",
    and no list of children; collapsed, it renders its row alone.  What the
    two renderings have after the row differs, and so does the text there:
    "Empty folder" against none. *)
Theorem expanded_empty_folder_shows_placeholder
    (toLocaleDateString : string -> string) (node : Tree.TreeNode) :
  Tree.isFolder node = true ->
  Tree.children node = [] ->
  let opened := (Tree.clickRow node Tree.fresh).1 in
  let whenOpened := Tree.FileNode toLocaleDateString node opened in
  let whenCollapsed := Tree.FileNode toLocaleDateString node Tree.fresh in
  Tree.expanded opened = true
  /\ (Tree.clickRow node Tree.fresh).2 = None
  /\ whenOpened
     = Tree.Elem "div" "select-none"
         [ Tree.renderRow toLocaleDateString node true;
           Tree.Elem "div" "ml-6 mt-1 border-l border-slate-200 pl-4"
             [ Tree.Elem "div" "text-xs text-slate-500 italic py-2"
                 [Tree.Text "Empty folder"] ] ]
  /\ whenCollapsed
     = Tree.Elem "div" "select-none"
         [Tree.renderRow toLocaleDateString node false]
  /\ belowRow whenCollapsed = []
  /\ belowRow whenOpened <> belowRow whenCollapsed
  /\ map textContent (belowRow whenOpened) = ["Empty folder"]
  /\ whenOpened <> whenCollapsed.
Proof.
  intros Hf Hc opened whenOpened whenCollapsed.
  subst whenOpened whenCollapsed opened. unfold Tree.clickRow. rewrite Hf.
  unfold Tree.toggle, Tree.fresh; cbn [fst snd Tree.expanded negb].
  rewrite Hf, Hc; cbn [andb map].
  rewrite FileNode_expanded_empty, FileNode_collapsed by done.
  split_and!; try done.
Qed.

Lemma expanded_empty_folder_shows_placeholder_witness :
  let node := Tree.mkNode "docs" "folder" EmptyString "2024-01-01" "ann" [] in
  map textContent
    (belowRow
       (Tree.FileNode (fun s => s) node (Tree.clickRow node Tree.fresh).1))
  = ["Empty folder"]
  /\ belowRow (Tree.FileNode (fun s => s) node Tree.fresh) = [].
Proof.
  intros node.
  destruct (expanded_empty_folder_shows_placeholder (fun s => s) node)
    as (_ & _ & _ & _ & Hnone & _ & Htext & _); [reflexivity | reflexivity |].
  split; [exact Htext | exact Hnone].
Defined.

(** ** The recompute effect *)

Section RecomputeFacts.

Variable StringToNumber : string -> option Z.
Variable Array_sort : (Row -> Row -> Z) -> list Row -> list Row.

Local Abbreviation Recompute := (recompute StringToNumber Array_sort).
Local Abbreviation DerivedRows := (derivedRows StringToNumber Array_sort).

Lemma recompute_frame st :
  data (Recompute st) = data st
  /\ columns (Recompute st) = columns st
  /\ searchQuery (Recompute st) = searchQuery st
  /\ sortConfig (Recompute st) = sortConfig st
  /\ loading (Recompute st) = loading st
  /\ error (Recompute st) = error st
  /\ currentPage (Recompute st) = 1.
Proof.
  unfold recompute.
  by destruct (applySearchFilter st).
Qed.

Lemma recompute_length_store st :
  (length (store st) <= length (store (Recompute st)))%nat.
Proof.
  unfold recompute, applySearchFilter, applySorting.
  destruct (JsString.truthy (searchQuery st)), (sortConfig st);
    cbn [alloc store]; rewrite ?length_write, ?length_app; lia.
Qed.

Lemma recompute_wf st :
  (data st < length (store st))%nat -> wf (Recompute st).
Proof.
  intros Hd. unfold wf, recompute, applySearchFilter, applySorting.
  destruct (JsString.truthy (searchQuery st)), (sortConfig st);
    cbn [alloc store data filteredData];
    rewrite ?length_write, ?length_app; simpl; lia.
Qed.

(** After the effect, [filteredData] holds the derived rows. *)
Lemma recompute_filteredRows st :
  (data st < length (store st))%nat ->
  filteredRows (Recompute st)
  = DerivedRows (dataRows st) (searchQuery st) (sortConfig st).
Proof.
  intros Hd.
  unfold filteredRows, recompute, derivedRows, applySorting.
  pose proof (applySearchFilter_read st) as Hread.
  assert ((applySearchFilter st).1 < length (applySearchFilter st).2)%nat
    as Hin.
  { unfold applySearchFilter.
    destruct (JsString.truthy (searchQuery st)); cbn [alloc fst snd];
      rewrite ?length_app; simpl; lia. }
  destruct (applySearchFilter st) as [filtered σ1]; cbn [fst snd] in *.
  destruct (sortConfig st) as [cfg|]; cbn [store filteredData].
  - by rewrite read_write, Hread.
  - done.
Qed.

(** Without a sort, no reference into the store needs to be valid. *)
Lemma recompute_filteredRows_unsorted st :
  sortConfig st = None ->
  filteredRows (Recompute st) = filterRows (searchQuery st) (dataRows st).
Proof.
  intros Hs.
  unfold filteredRows, recompute, applySorting.
  pose proof (applySearchFilter_read st) as Hread.
  destruct (applySearchFilter st) as [filtered σ1]; cbn [fst snd] in *.
  by rewrite Hs.
Qed.

(** What the effect does to the rows of [data]: with a query the sort works
    on the filtered copy and [data] keeps its rows; without a query the sort
    works on [data] itself. *)
Lemma recompute_dataRows st :
  (data st < length (store st))%nat ->
  dataRows (Recompute st)
  = if JsString.truthy (searchQuery st) then dataRows st
    else DerivedRows (dataRows st) (searchQuery st) (sortConfig st).
Proof.
  intros Hd.
  unfold dataRows, recompute, derivedRows, applySearchFilter, applySorting,
    filterRows.
  destruct (JsString.truthy (searchQuery st)), (sortConfig st) as [cfg|];
    cbn [alloc store data].
  - rewrite read_write_other by lia. by apply read_alloc_old.
  - by apply read_alloc_old.
  - by rewrite read_write.
  - done.
Qed.

End RecomputeFacts.

(** ** Loading *)

Section LoadFacts.

Variable StringToNumber : string -> option Z.
Variable Array_sort : (Row -> Row -> Z) -> list Row -> list Row.

Local Abbreviation Mount := (mount StringToNumber Array_sort).
Local Abbreviation Load := (load StringToNumber Array_sort).
Local Abbreviation Recompute := (recompute StringToNumber Array_sort).

Lemma mount_eq :
  Mount
  = {| store := [[]; []]; data := 0%nat; columns := [];
       filteredData := 0%nat; searchQuery := EmptyString;
       sortConfig := None; currentPage := 1; loading := true;
       error := None |}.
Proof. reflexivity. Qed.

(** A successful load: the parsed rows are a new array, held by both
    [data] and [filteredData] when the effect starts. *)
Lemma load_Parsed_ok st parsed :
  parsed_errors parsed = [] ->
  (data st < length (store st))%nat ->
  Load (Parsed parsed) st
  = Recompute
      {| store := store st ++ [parsed_data parsed];
         data := length (store st);
         columns := default [] (meta_fields parsed);
         filteredData := length (store st);
         searchQuery := searchQuery st; sortConfig := sortConfig st;
         currentPage := currentPage st; loading := false;
         error := error st |}.
Proof.
  intros He Hd. unfold load, onload. rewrite He. cbn [length Nat.ltb Nat.leb alloc data].
  destruct (Nat.eqb_spec (length (store st)) (data st)); [lia | done].
Qed.

(** C2.  On a newly mounted viewer a load whose parse reports errors sets
    the error message but leaves [loading] set, so the view stays the
    loading spinner and the message is not shown; so does a load whose read
    fails.  Only a load that throws inside [onload] ends in the error panel.
    In all three cases neither rows nor columns are populated. *)
Theorem parse_error_stays_behind_spinner (parsed : ParseResult) :
  parsed_errors parsed <> [] ->
  let failed := Load (Parsed parsed) Mount in
  (error failed = Some "Error parsing CSV file"
   /\ loading failed = true
   /\ render failed = Spinner "Loading CSV data..."
   /\ dataRows failed = [] /\ columns failed = [])
  /\ (render (Load ReadFails Mount) = Spinner "Loading CSV data..."
      /\ error (Load ReadFails Mount) = None)
  /\ (render (Load Throws Mount)
      = ErrorPanel "Failed to load CSV file"
          "Please check your CSV file format and try again."
      /\ dataRows (Load Throws Mount) = []
      /\ columns (Load Throws Mount) = []).
Proof.
  intros He failed. subst failed. unfold load, onload.
  destruct (parsed_errors parsed) as [|e es]; [done|].
  cbn. done.
Qed.

End LoadFacts.

Lemma parse_error_stays_behind_spinner_witness :
  render
    (load StringToNumber_dec (v8_sort (A:=Row))
       (Parsed
          {| parsed_data := [ [("a", VNum 1)] ];
             parsed_errors :=
               [ {| err_type := "FieldMismatch"; err_code := "TooFewFields";
                    err_message :=
                      "Too few fields: expected 2 fields but parsed 1" |} ];
             meta_fields := Some ["a"; "b"] |})
       (mount StringToNumber_dec (v8_sort (A:=Row))))
  = Spinner "Loading CSV data...".
Proof.
  apply (parse_error_stays_behind_spinner StringToNumber_dec
           (v8_sort (A:=Row))).
  discriminate.
Defined.

(** ** Pagination *)

Lemma Math_ceil_div_spec n d :
  0 <= n -> 0 < d ->
  d * (Math_ceil_div n d - 1) < n <= d * Math_ceil_div n d.
Proof.
  intros Hn Hd. unfold Math_ceil_div.
  pose proof (Z.div_mod n d ltac:(lia)) as Hdm.
  pose proof (Z.mod_pos_bound n d Hd) as Hb.
  destruct (Z.eqb_spec (n mod d) 0); nia.
Qed.

Lemma slice_window {A} (l : list A) (start : Z) :
  0 <= start ->
  slice l start (start + itemsPerPage)
  = take (Z.to_nat itemsPerPage) (drop (Z.to_nat start) l).
Proof.
  intros Hs. unfold slice, itemsPerPage.
  destruct (Z.ltb_spec start 0); [lia|].
  destruct (Z.ltb_spec (start + 50) 0); [lia|].
  destruct (Z.le_gt_cases start (Z.of_nat (length l))) as [Hle | Hgt].
  - rewrite (Z.min_l start) by lia.
    destruct (Z.le_gt_cases (start + 50) (Z.of_nat (length l))).
    + rewrite Z.min_l by lia. f_equal. lia.
    + rewrite Z.min_r by lia.
      rewrite !take_ge; [done | |]; rewrite length_drop; lia.
  - rewrite !Z.min_r by lia.
    rewrite !drop_ge by lia. by rewrite !take_nil.
Qed.

Lemma elem_of_pageButtons st n :
  n ∈ pageButtons st <-> 1 <= n <= Z.min 5 (totalPages st).
Proof.
  unfold pageButtons. rewrite list_elem_of_fmap. split.
  - intros (i & -> & Hi). apply elem_of_seq in Hi. lia.
  - intros Hn. exists (Z.to_nat (n - 1)). split; [lia|].
    apply elem_of_seq. lia.
Qed.

Lemma totalPages_spec st :
  itemsPerPage * (totalPages st - 1) < Z.of_nat (length (filteredRows st))
  <= itemsPerPage * totalPages st.
Proof. apply Math_ceil_div_spec; unfold itemsPerPage; lia. Qed.

(** The page handlers.  [totalPages] is the number of rows divided by 50,
    rounded up.  From a current page within [1 .. totalPages], Previous
    and Next set the page to their target, [currentPage - 1] or
    [currentPage + 1], clamped into [1 .. totalPages]; a numbered button is
    rendered for the numbers [1 .. min(5, totalPages)] only and sets its
    number as it is.  A render computes its page as the slice of the
    filtered rows from [(currentPage - 1) * 50] to [currentPage * 50]. *)
Lemma page_setting_clamps_into_range (st : State) :
  (itemsPerPage * (totalPages st - 1) < Z.of_nat (length (filteredRows st))
   <= itemsPerPage * totalPages st)
  /\ (1 <= currentPage st <= totalPages st ->
      currentPage (clickPrevious st) = clampPage st (currentPage st - 1)
      /\ currentPage (clickNext st) = clampPage st (currentPage st + 1)
      /\ (forall n, n ∈ pageButtons st ->
            currentPage (clickPage n st) = clampPage st n))
  /\ (forall n, currentPage (clickPage n st) = n)
  /\ currentData st
     = slice (filteredRows st) ((currentPage st - 1) * 50) (currentPage st * 50)
  /\ (1 <= currentPage st ->
      currentData st
      = take 50 (drop (Z.to_nat ((currentPage st - 1) * 50))
                      (filteredRows st))).
Proof.
  refine (conj _ (conj _ (conj _ (conj _ _)))).
  - apply totalPages_spec.
  - intros Hp. unfold clickPrevious, clickNext, clickPage, clampPage;
      cbn [setCurrentPage currentPage].
    split_and!; [lia | lia |].
    intros n Hn%elem_of_pageButtons. lia.
  - reflexivity.
  - unfold currentData, endIndex, startIndex, itemsPerPage. f_equal. lia.
  - intros Hp. unfold currentData, endIndex.
    rewrite slice_window by (unfold startIndex, itemsPerPage; lia).
    reflexivity.
Qed.

Lemma page_setting_clamps_into_range_witness :
  let st :=
    {| store := [ replicate 120 [("n", VNum 7)] ]; data := 0%nat;
       columns := ["n"]; filteredData := 0%nat;
       searchQuery := EmptyString; sortConfig := None; currentPage := 3;
       loading := false; error := None |} in
  currentPage (clickNext st) = clampPage st 4
  /\ totalPages st = 3
  /\ length (currentData st) = 20%nat.
Proof.
  intros st.
  destruct (page_setting_clamps_into_range st)
    as (_ & Hclamp & _ & _ & Hslice).
  split_and!.
  - apply Hclamp. split; vm_compute; discriminate.
  - reflexivity.
  - rewrite Hslice by (vm_compute; discriminate). reflexivity.
Defined.

(** ** Consistent comparators *)

Lemma consistent_subseteq {A} (c : A -> A -> Z) (l k : list A) :
  k ⊆ l -> consistent c l -> consistent c k.
Proof. intros Hs [H1 H2 H3 H4 H5]. split; intros; eauto 10. Qed.

Lemma consistent_perm {A} (c : A -> A -> Z) (l k : list A) :
  k ≡ₚ l -> consistent c l -> consistent c k.
Proof. intros Hp. apply consistent_subseteq. intros x. by rewrite Hp. Qed.

Lemma consistentb_spec {A} (c : A -> A -> Z) (l : list A) :
  consistentb c l = true -> consistent c l.
Proof.
  unfold consistentb. rewrite forallb_forall. intros H.
  assert (forall a b d, a ∈ l -> b ∈ l -> d ∈ l ->
    c a a = 0 /\ (c a b = 0 -> c b a = 0)
    /\ (c a b = 0 -> c b d = 0 -> c a d = 0)
    /\ (c a b < 0 -> c b d < 0 -> c a d < 0)
    /\ (c a b > 0 -> c b d > 0 -> c a d > 0)) as Hall.
  { intros a b d Ha%list_elem_of_In Hb%list_elem_of_In Hd%list_elem_of_In.
    specialize (H a Ha). apply andb_true_iff in H as [Hr H].
    rewrite forallb_forall in H. specialize (H b Hb).
    apply andb_true_iff in H as [Hs H].
    rewrite forallb_forall in H. specialize (H d Hd).
    apply andb_true_iff in H as [H Hgt].
    apply andb_true_iff in H as [Heq Hlt].
    apply Z.eqb_eq in Hr.
    destruct (Z.eqb_spec (c a b) 0), (Z.eqb_spec (c b a) 0),
      (Z.eqb_spec (c b d) 0), (Z.eqb_spec (c a d) 0),
      (Z.ltb_spec (c a b) 0), (Z.ltb_spec (c b d) 0),
      (Z.ltb_spec (c a d) 0), (Z.ltb_spec 0 (c a b)),
      (Z.ltb_spec 0 (c b d)), (Z.ltb_spec 0 (c a d));
      simpl in *; try discriminate; repeat split; intros; lia. }
  split.
  - intros a Ha. by destruct (Hall a a a Ha Ha Ha) as (? & _).
  - intros a b Ha Hb. by destruct (Hall a b b Ha Hb Hb) as (_ & ? & _).
  - intros a b d Ha Hb Hd.
    by destruct (Hall a b d Ha Hb Hd) as (_ & _ & ? & _).
  - intros a b d Ha Hb Hd.
    by destruct (Hall a b d Ha Hb Hd) as (_ & _ & _ & ? & _).
  - intros a b d Ha Hb Hd.
    by destruct (Hall a b d Ha Hb Hd) as (_ & _ & _ & _ & ?).
Qed.

Section ConsistencyFacts.

Context {A : Type} (c : A -> A -> Z) (l : list A).
Hypothesis Hc : consistent c l.

Lemma cmp_lt_gt a b : a ∈ l -> b ∈ l -> c a b < 0 -> c b a > 0.
Proof.
  intros Ha Hb Hab.
  destruct (Z.lt_trichotomy (c b a) 0) as [Hba | [Hba | Hba]]; [| | lia].
  - pose proof (cmp_trans_lt _ _ Hc a b a Ha Hb Ha Hab Hba).
    pose proof (cmp_refl _ _ Hc a Ha). lia.
  - pose proof (cmp_sym _ _ Hc b a Hb Ha Hba). lia.
Qed.

Lemma cmp_gt_lt a b : a ∈ l -> b ∈ l -> c a b > 0 -> c b a < 0.
Proof.
  intros Ha Hb Hab.
  destruct (Z.lt_trichotomy (c b a) 0) as [Hba | [Hba | Hba]]; [lia | |].
  - pose proof (cmp_sym _ _ Hc b a Hb Ha Hba). lia.
  - assert (c b a > 0) as Hba' by lia.
    pose proof (cmp_trans_gt _ _ Hc a b a Ha Hb Ha Hab Hba').
    pose proof (cmp_refl _ _ Hc a Ha). lia.
Qed.

Lemma cmp_lt_eq a b d :
  a ∈ l -> b ∈ l -> d ∈ l -> c a b < 0 -> c b d = 0 -> c a d < 0.
Proof.
  intros Ha Hb Hd Hab Hbd.
  destruct (Z.lt_trichotomy (c a d) 0) as [H | [H | H]]; [done | |].
  - pose proof (cmp_sym _ _ Hc b d Hb Hd Hbd) as Hdb.
    pose proof (cmp_trans_eq _ _ Hc a d b Ha Hd Hb H Hdb). lia.
  - assert (c a d > 0) as H' by lia.
    pose proof (cmp_gt_lt a d Ha Hd H') as Hda.
    pose proof (cmp_trans_lt _ _ Hc d a b Hd Ha Hb Hda Hab) as Hlt.
    pose proof (cmp_sym _ _ Hc b d Hb Hd Hbd). lia.
Qed.

Lemma may_precede_refl x : x ∈ l -> may_precede c x x.
Proof. intros Hx. unfold may_precede. by rewrite (cmp_refl _ _ Hc). Qed.

Lemma may_precede_trans x y z :
  x ∈ l -> y ∈ l -> z ∈ l ->
  may_precede c x y -> may_precede c y z -> may_precede c x z.
Proof.
  unfold may_precede. intros Hx Hy Hz Hxy Hyz.
  destruct (Z.lt_trichotomy (c z x) 0) as [H | [H | H]]; [| lia | lia].
  destruct (Z.lt_trichotomy (c y x) 0) as [H' | [H' | H']]; [lia | |].
  - pose proof (cmp_sym _ _ Hc y x Hy Hx H') as Hxy'.
    pose proof (cmp_lt_eq z x y Hz Hx Hy H Hxy'). lia.
  - assert (c y x > 0) as H'' by lia.
    pose proof (cmp_gt_lt y x Hy Hx H'') as Hxy'.
    pose proof (cmp_trans_lt _ _ Hc z x y Hz Hx Hy H Hxy'). lia.
Qed.

(** Two elements each of which may precede the other compare equal. *)
Lemma may_precede_antisym x y :
  x ∈ l -> y ∈ l -> may_precede c x y -> may_precede c y x -> c x y = 0.
Proof.
  unfold may_precede. intros Hx Hy Hxy Hyx.
  destruct (Z.lt_trichotomy (c y x) 0) as [H | [H | H]]; [lia | |].
  - by apply (cmp_sym _ _ Hc).
  - assert (c y x > 0) as H' by lia.
    pose proof (cmp_gt_lt y x Hy Hx H'). lia.
Qed.

(** Among mutually comparable elements, the head of a sorted list may
    precede each of its elements. *)
Lemma sorted_head_least x rest y :
  x :: rest ⊆ l -> StronglySorted (may_precede c) (x :: rest) ->
  y ∈ x :: rest -> may_precede c x y.
Proof.
  intros Hsub Hs Hy. apply StronglySorted_inv in Hs as [_ Hall].
  apply elem_of_cons in Hy as [-> | Hy].
  - apply may_precede_refl, Hsub. left.
  - by eapply Forall_forall in Hall.
Qed.

(** *** A sorted, stable rearrangement is unique *)

Lemma equals_of_cons a x k :
  equals_of c a (x :: k)
  = if c a x =? 0 then x :: equals_of c a k else equals_of c a k.
Proof. reflexivity. Qed.

Lemma sorted_stable_unique k1 k2 :
  k1 ⊆ l -> k1 ≡ₚ k2 ->
  StronglySorted (may_precede c) k1 -> StronglySorted (may_precede c) k2 ->
  (forall a, a ∈ l -> equals_of c a k1 = equals_of c a k2) ->
  k1 = k2.
Proof.
  revert k2. induction k1 as [|x t1 IH]; intros k2 Hsub Hp Hs1 Hs2 Heq.
  { by apply Permutation_nil_l in Hp. }
  destruct k2 as [|y t2].
  { by apply Permutation_nil_r in Hp. }
  assert (x ∈ l) as Hx by (apply Hsub; left).
  assert (x :: t1 ⊆ l) as Hsub1 by done.
  assert (y :: t2 ⊆ l) as Hsub2 by (intros z; rewrite <- Hp; apply Hsub).
  assert (y ∈ l) as Hy by (apply Hsub2; left).
  assert (c x y = 0) as Hxy.
  { apply may_precede_antisym; [done | done | |].
    - eapply sorted_head_least; [exact Hsub1 | done |].
      rewrite Hp. left.
    - eapply sorted_head_least; [exact Hsub2 | done |].
      rewrite <- Hp. left. }
  assert (x = y) as <-.
  { specialize (Heq x Hx). rewrite !equals_of_cons in Heq.
    rewrite (cmp_refl _ _ Hc x Hx), Hxy in Heq. simpl in Heq. congruence. }
  f_equal. apply IH.
  - intros z Hz. apply Hsub. by right.
  - by apply (inj (cons x)).
  - by apply StronglySorted_inv in Hs1 as [? _].
  - by apply StronglySorted_inv in Hs2 as [? _].
  - intros a Ha. specialize (Heq a Ha). rewrite !equals_of_cons in Heq.
    destruct (c a x =? 0); congruence.
Qed.

End ConsistencyFacts.

(** ** Insertion sort keeps the promise of the language *)

Section InsertionSort.

Context {A : Type} (c : A -> A -> Z).

Lemma insert_perm x k : insert c x k ≡ₚ x :: k.
Proof.
  induction k as [|y k IH]; simpl; [done|].
  destruct (c y x <? 0); [|done].
  rewrite IH. apply Permutation_swap.
Qed.

Lemma insertion_sort_perm k : insertion_sort c k ≡ₚ k.
Proof.
  induction k as [|x k IH]; simpl; [done|]. by rewrite insert_perm, IH.
Qed.

Variable l : list A.
Hypothesis Hc : consistent c l.

Lemma insert_sorted x k :
  x :: k ⊆ l ->
  StronglySorted (may_precede c) k ->
  StronglySorted (may_precede c) (insert c x k).
Proof.
  intros Hsub Hs. induction k as [|y k IH]; simpl.
  { repeat constructor. }
  assert (x ∈ l) as Hx by (apply Hsub; left).
  assert (y ∈ l) as Hy by (apply Hsub; right; left).
  apply StronglySorted_inv in Hs as [Hs Hall].
  destruct (Z.ltb_spec (c y x) 0) as [Hlt | Hge].
  - constructor.
    + apply IH; [|done]. intros z Hz. apply Hsub.
      apply elem_of_cons in Hz as [-> | Hz]; [left | right; by right].
    + rewrite insert_perm. constructor; [|done].
      unfold may_precede. pose proof (cmp_lt_gt c l Hc y x Hy Hx Hlt). lia.
  - constructor; [by constructor|].
    constructor; [done|].
    apply Forall_forall. intros z Hz.
    eapply (may_precede_trans c l Hc x y z); [done | done | | done |].
    + apply Hsub. right; by right.
    + by eapply Forall_forall in Hall.
Qed.

Lemma insertion_sort_sorted k :
  k ⊆ l -> StronglySorted (may_precede c) (insertion_sort c k).
Proof.
  induction k as [|x k IH]; intros Hsub; simpl; [constructor|].
  apply insert_sorted.
  - intros z Hz. apply Hsub.
    apply elem_of_cons in Hz as [-> | Hz]; [left | right].
    by rewrite insertion_sort_perm in Hz.
  - apply IH. intros z Hz. apply Hsub. by right.
Qed.

Lemma insert_equals_of a x k :
  a ∈ l -> x :: k ⊆ l ->
  equals_of c a (insert c x k) = equals_of c a (x :: k).
Proof.
  intros Ha Hsub. induction k as [|y k IH]; simpl; [done|].
  assert (x ∈ l) as Hx by (apply Hsub; left).
  assert (y ∈ l) as Hy by (apply Hsub; right; left).
  destruct (Z.ltb_spec (c y x) 0) as [Hlt | Hge]; [|done].
  rewrite equals_of_cons, IH.
  2:{ intros z Hz. apply Hsub.
      apply elem_of_cons in Hz as [-> | Hz]; [left | right; by right]. }
  rewrite !equals_of_cons.
  destruct (Z.eqb_spec (c a x) 0) as [Hax | _],
    (Z.eqb_spec (c a y) 0) as [Hay | _]; try done.
  pose proof (cmp_sym _ _ Hc a y Ha Hy Hay) as Hya.
  pose proof (cmp_trans_eq _ _ Hc y a x Hy Ha Hx Hya Hax). lia.
Qed.

Lemma insertion_sort_equals_of a k :
  a ∈ l -> k ⊆ l ->
  equals_of c a (insertion_sort c k) = equals_of c a k.
Proof.
  intros Ha. induction k as [|x k IH]; intros Hsub; simpl; [done|].
  rewrite insert_equals_of; [|done|].
  - rewrite !equals_of_cons, IH; [done|].
    intros z Hz. apply Hsub. by right.
  - intros z Hz. apply Hsub.
    apply elem_of_cons in Hz as [-> | Hz]; [left | right].
    by rewrite insertion_sort_perm in Hz.
Qed.

End InsertionSort.

Lemma insertion_sort_EcmaSort {A} : EcmaSort (@insertion_sort A).
Proof.
  intros c l. split; [apply insertion_sort_perm|].
  intros Hc. split.
  - by apply (insertion_sort_sorted c l Hc).
  - intros a Ha. by apply (insertion_sort_equals_of c l Hc).
Qed.

(** ** Consequences of the promise *)

Section EcmaSortFacts.

Context {A : Type} (sort : (A -> A -> Z) -> list A -> list A).
Hypothesis Hsort : EcmaSort sort.

Lemma sort_perm c l : sort c l ≡ₚ l.
Proof. apply Hsort. Qed.

Lemma sort_elem_of c l x : x ∈ sort c l <-> x ∈ l.
Proof. by rewrite sort_perm. Qed.

Lemma sort_length c l : length (sort c l) = length l.
Proof. by rewrite sort_perm. Qed.

(** For a consistent comparator every conforming procedure gives the same
    array: the one insertion sort gives. *)
Lemma sort_unique c l :
  consistent c l -> sort c l = insertion_sort c l.
Proof.
  intros Hc.
  destruct (Hsort c l) as [Hp [Hs He]]; [done|].
  apply (sorted_stable_unique c l Hc).
  - intros x. by rewrite Hp.
  - by rewrite Hp, insertion_sort_perm.
  - done.
  - by apply (insertion_sort_sorted c l Hc).
  - intros a Ha. rewrite He by done.
    symmetry. by apply (insertion_sort_equals_of c l Hc).
Qed.

(** Sorting again by a comparator with the same ties: only the order of
    the ties in the original array matters. *)
Lemma sort_sort c1 c2 l :
  consistent c1 l -> consistent c2 l ->
  (forall a b, a ∈ l -> b ∈ l -> c1 a b = 0 <-> c2 a b = 0) ->
  sort c1 (sort c2 l) = sort c1 l.
Proof.
  intros Hc1 Hc2 Hties.
  assert (consistent c1 (sort c2 l)) as Hc1'.
  { eapply consistent_perm; [apply sort_perm | done]. }
  destruct (Hsort c1 (sort c2 l)) as [Hp1 [Hs1 He1]]; [done|].
  destruct (Hsort c2 l) as [Hp2 [Hs2 He2]]; [done|].
  destruct (Hsort c1 l) as [Hp [Hs He]]; [done|].
  apply (sorted_stable_unique c1 l Hc1); try done.
  - intros x. by rewrite Hp1, Hp2.
  - by rewrite Hp1, Hp2, Hp.
  - intros a Ha. rewrite He1 by (by rewrite Hp2). rewrite He by done.
    assert (forall k, k ⊆ l -> equals_of c1 a k = equals_of c2 a k) as Hsame.
    { intros k Hk. unfold equals_of. apply filter_ext_in.
      intros x Hx%list_elem_of_In. specialize (Hties a x Ha (Hk x Hx)).
      destruct (Z.eqb_spec (c1 a x) 0) as [E1 | E1],
        (Z.eqb_spec (c2 a x) 0) as [E2 | E2]; try done.
      - by apply Hties in E1.
      - by apply Hties in E2. }
    rewrite Hsame by (intros x; by rewrite Hp2).
    rewrite He2 by done. symmetry. by apply Hsame.
Qed.

End EcmaSortFacts.

(** ** The comparator *)

Section ComparatorFacts.

Variable StringToNumber : string -> option Z.
Local Abbreviation CompareRows := (compareRows StringToNumber).

(** The comparator returns 0 exactly when neither value is less than the
    other, and -1 or 1 otherwise: it never breaks a tie. *)
Lemma compareRows_zero cfg a b :
  CompareRows cfg a b = 0 <->
  js_lt StringToNumber (get a (key cfg)) (get b (key cfg)) = false
  /\ js_gt StringToNumber (get a (key cfg)) (get b (key cfg)) = false.
Proof.
  unfold compareRows.
  destruct (js_lt _ _ _), (js_gt _ _ _), (direction cfg); simpl;
    split; try lia; try done; intros [? ?]; done.
Qed.

Lemma compareRows_desc k a b :
  CompareRows {| key := k; direction := desc |} a b
  = - CompareRows {| key := k; direction := asc |} a b.
Proof.
  unfold compareRows; cbn [key direction Direction_eqb].
  by destruct (js_lt StringToNumber (get a k) (get b k)),
    (js_gt StringToNumber (get a k) (get b k)).
Qed.

Lemma compareRows_flip cfg a b :
  CompareRows (nextSortConfig (Some cfg) (key cfg)) a b
  = - CompareRows cfg a b.
Proof.
  unfold nextSortConfig, compareRows; cbn [key direction].
  rewrite String.eqb_refl.
  by destruct (direction cfg),
    (js_lt StringToNumber (get a (key cfg)) (get b (key cfg))),
    (js_gt StringToNumber (get a (key cfg)) (get b (key cfg))).
Qed.

End ComparatorFacts.

Lemma consistent_opp {A} (c c' : A -> A -> Z) (l : list A) :
  (forall a b, c' a b = - c a b) -> consistent c l -> consistent c' l.
Proof.
  intros Hopp Hc. split.
  - intros a Ha. rewrite Hopp, (cmp_refl _ _ Hc); [done | done].
  - intros a b Ha Hb. rewrite !Hopp. intros H.
    pose proof (cmp_sym _ _ Hc a b Ha Hb). lia.
  - intros a b d Ha Hb Hd. rewrite !Hopp. intros H1 H2.
    pose proof (cmp_trans_eq _ _ Hc a b d Ha Hb Hd). lia.
  - intros a b d Ha Hb Hd. rewrite !Hopp. intros H1 H2.
    pose proof (cmp_trans_gt _ _ Hc a b d Ha Hb Hd). lia.
  - intros a b d Ha Hb Hd. rewrite !Hopp. intros H1 H2.
    pose proof (cmp_trans_lt _ _ Hc a b d Ha Hb Hd). lia.
Qed.

(** ** Order of ties *)

Lemma List_filter_sublist_mono {A} (f : A -> bool) (l k : list A) :
  l `sublist_of` k -> List.filter f l `sublist_of` List.filter f k.
Proof.
  induction 1 as [|x l k _ IH|x l k _ IH]; simpl.
  - constructor.
  - destruct (f x); [by constructor | done].
  - destruct (f x); [by constructor | done].
Qed.

Lemma before_lookup {A} (x y : A) (l : list A) :
  before x y l ->
  exists i j, (i < j)%nat /\ l !! i = Some x /\ l !! j = Some y.
Proof.
  unfold before. induction l as [|z l IH]; intros H.
  { by apply sublist_nil_r in H. }
  apply sublist_cons_r in H as [H | (l' & Heq & H)].
  - destruct (IH H) as (i & j & Hij & Hi & Hj).
    exists (S i), (S j). split_and!; [lia | done | done].
  - injection Heq as <- <-.
    assert (y ∈ l) as Hy by (eapply sublist_subseteq; [exact H | left]).
    apply list_elem_of_lookup in Hy as [j Hj].
    exists 0%nat, (S j). split_and!; [lia | done | done].
Qed.

(** A conforming sort keeps the order of ties when the comparator is
    consistent. *)
Lemma EcmaSort_ties_keep_order {A}
    (sort : (A -> A -> Z) -> list A -> list A) (c : A -> A -> Z) l :
  EcmaSort sort -> consistent c l -> ties_keep_order c l (sort c l).
Proof.
  intros Hsort Hc x y Hb Hxy. unfold before in *.
  assert (x ∈ l) as Hx by (eapply sublist_subseteq; [exact Hb | left]).
  destruct (Hsort c l) as [_ [_ He]]; [done|].
  trans (equals_of c x (sort c l)); [|apply List_filter_sublist].
  rewrite He by done.
  apply (List_filter_sublist_mono (fun z => c x z =? 0)) in Hb.
  simpl in Hb. by rewrite (cmp_refl _ _ Hc x Hx), Hxy in Hb.
Qed.

(** ** Columns on which the comparator is consistent *)

Section WeakOrder.

Context {A : Type} (lt : A -> A -> bool) (s : Z) (c : A -> A -> Z)
  (l : list A).

Hypothesis Hs : s = 1 \/ s = -1.
Hypothesis Hcmp : forall a b,
  c a b = if lt a b then - s else if lt b a then s else 0.
Hypothesis lt_irrefl : forall a, a ∈ l -> lt a a = false.
Hypothesis lt_trans : forall a b d, a ∈ l -> b ∈ l -> d ∈ l ->
  lt a b = true -> lt b d = true -> lt a d = true.
Hypothesis incomparable_trans : forall a b d, a ∈ l -> b ∈ l -> d ∈ l ->
  lt a b = false -> lt b a = false -> lt b d = false -> lt d b = false ->
  lt a d = false /\ lt d a = false.

Lemma lt_asym a b : a ∈ l -> b ∈ l -> lt a b = true -> lt b a = false.
Proof.
  intros Ha Hb Hab. destruct (lt b a) eqn:Hba; [|done].
  pose proof (lt_trans a b a Ha Hb Ha Hab Hba).
  pose proof (lt_irrefl a Ha). congruence.
Qed.

(** A comparator that answers by a strict weak order is consistent. *)
Lemma weak_order_consistent : consistent c l.
Proof.
  split.
  - intros a Ha. by rewrite Hcmp, lt_irrefl.
  - intros a b Ha Hb. rewrite !Hcmp.
    destruct (lt a b) eqn:Hab, (lt b a) eqn:Hba; lia.
  - intros a b d Ha Hb Hd. rewrite !Hcmp.
    destruct (lt a b) eqn:Hab; [lia|].
    destruct (lt b a) eqn:Hba; [lia|].
    destruct (lt b d) eqn:Hbd; [lia|].
    destruct (lt d b) eqn:Hdb; [lia|].
    destruct (incomparable_trans a b d) as [-> ->]; done.
  - intros a b d Ha Hb Hd. rewrite !Hcmp.
    destruct (lt a b) eqn:Hab, (lt b a) eqn:Hba,
      (lt b d) eqn:Hbd, (lt d b) eqn:Hdb; try lia.
    + rewrite (lt_trans a b d) by done. lia.
    + rewrite (lt_trans a b d) by done. lia.
    + rewrite (lt_trans a b d) by done. lia.
    + rewrite (lt_trans a b d) by done. lia.
    + rewrite (lt_asym d a), (lt_trans d b a) by eauto. lia.
  - intros a b d Ha Hb Hd. rewrite !Hcmp.
    destruct (lt a b) eqn:Hab, (lt b a) eqn:Hba,
      (lt b d) eqn:Hbd, (lt d b) eqn:Hdb; try lia.
    + rewrite (lt_trans a b d) by done. lia.
    + rewrite (lt_trans a b d) by done. lia.
    + rewrite (lt_trans a b d) by done. lia.
    + rewrite (lt_trans a b d) by done. lia.
    + rewrite (lt_asym d a), (lt_trans d b a) by eauto. lia.
Qed.

End WeakOrder.

Lemma String_ltb_irrefl s : String.ltb s s = false.
Proof.
  unfold String.ltb.
  pose proof (String.compare_antisym s s) as H.
  by destruct (String.compare s s).
Qed.

Lemma String_ltb_leb s t :
  String.ltb s t = true <-> String.leb s t = true /\ s <> t.
Proof.
  unfold String.ltb, String.leb.
  destruct (String.compare s t) eqn:E; split; try done.
  - apply String.compare_eq_iff in E. by intros [_ ?].
  - intros _. split; [done|]. intros ->.
    pose proof (String_ltb_irrefl t) as H. unfold String.ltb in H.
    by rewrite E in H.
  - by intros [? _].
Qed.

Lemma String_ltb_trans s t u :
  String.ltb s t = true -> String.ltb t u = true -> String.ltb s u = true.
Proof.
  rewrite !String_ltb_leb. intros [Hst Hne] [Htu Hne']. split.
  - apply Is_true_true. trans t; by apply Is_true_true.
  - intros ->. apply Hne. by apply String.leb_antisym.
Qed.

Lemma String_ltb_total s t :
  String.ltb s t = false -> String.ltb t s = false -> s = t.
Proof.
  unfold String.ltb. rewrite (String.compare_antisym t s).
  destruct (String.compare s t) eqn:E; simpl; try done.
  intros _ _. by apply String.compare_eq_iff.
Qed.

Section Columns.

Variable StringToNumber : string -> option Z.
Local Abbreviation CompareRows := (compareRows StringToNumber).

Lemma compareRows_by_lt cfg a b :
  CompareRows cfg a b
  = let lt x y :=
      js_lt StringToNumber (get x (key cfg)) (get y (key cfg)) in
    let s := if Direction_eqb (direction cfg) asc then 1 else -1 in
    if lt a b then - s else if lt b a then s else 0.
Proof.
  unfold compareRows, js_gt; cbn zeta.
  by destruct (Direction_eqb (direction cfg) asc),
    (js_lt StringToNumber (get a (key cfg)) (get b (key cfg))),
    (js_lt StringToNumber (get b (key cfg)) (get a (key cfg))).
Qed.

(** The number a numeric value is read as. *)
Lemma js_lt_numeric v w :
  numeric v = true -> numeric w = true ->
  exists n m, ToNumber StringToNumber v = Some n
    /\ ToNumber StringToNumber w = Some m
    /\ js_lt StringToNumber v w = (n <? m).
Proof.
  destruct v as [| |[]|n|?], w as [| |[]|m|?]; try discriminate;
    intros _ _; eexists _, _; split_and!; reflexivity.
Qed.

(** X27.  On a column of numbers, booleans and nulls the comparator is
    consistent. *)
Lemma compareRows_consistent_numeric cfg (rows : list Row) :
  Forall (fun row => numeric (get row (key cfg)) = true) rows ->
  consistent (CompareRows cfg) rows.
Proof.
  intros Hnum. rewrite Forall_forall in Hnum.
  apply (weak_order_consistent
           (fun x y => js_lt StringToNumber (get x (key cfg)) (get y (key cfg)))
           (if Direction_eqb (direction cfg) asc then 1 else -1)).
  - destruct (Direction_eqb _ _); auto.
  - intros a b. apply compareRows_by_lt.
  - intros a Ha.
    destruct (js_lt_numeric _ _ (Hnum a Ha) (Hnum a Ha))
      as (n & m & Hn & Hm & ->). simplify_eq. lia.
  - intros a b d Ha Hb Hd.
    destruct (js_lt_numeric _ _ (Hnum a Ha) (Hnum b Hb))
      as (n & m & Hn & Hm & ->).
    destruct (js_lt_numeric _ _ (Hnum b Hb) (Hnum d Hd))
      as (m' & k & Hm' & Hk & ->).
    destruct (js_lt_numeric _ _ (Hnum a Ha) (Hnum d Hd))
      as (n' & k' & Hn' & Hk' & ->).
    simplify_eq. lia.
  - intros a b d Ha Hb Hd.
    destruct (js_lt_numeric _ _ (Hnum a Ha) (Hnum b Hb))
      as (n & m & Hn & Hm & ->).
    destruct (js_lt_numeric _ _ (Hnum b Hb) (Hnum a Ha))
      as (m1 & n1 & Hm1 & Hn1 & ->).
    destruct (js_lt_numeric _ _ (Hnum b Hb) (Hnum d Hd))
      as (m' & k & Hm' & Hk & ->).
    destruct (js_lt_numeric _ _ (Hnum d Hd) (Hnum b Hb))
      as (k1 & m2 & Hk1 & Hm2 & ->).
    destruct (js_lt_numeric _ _ (Hnum a Ha) (Hnum d Hd))
      as (n' & k' & Hn' & Hk' & ->).
    destruct (js_lt_numeric _ _ (Hnum d Hd) (Hnum a Ha))
      as (k2 & n2 & Hk2 & Hn2 & ->).
    simplify_eq. lia.
Qed.

(** X28.  On a column of strings the comparator is consistent. *)
Lemma compareRows_consistent_strings cfg (rows : list Row) :
  Forall (fun row => is_string (get row (key cfg)) = true) rows ->
  consistent (CompareRows cfg) rows.
Proof.
  intros Hstr. rewrite Forall_forall in Hstr.
  assert (forall a, a ∈ rows -> exists s, get a (key cfg) = VStr s) as Hs.
  { intros a Ha. specialize (Hstr a Ha).
    destruct (get a (key cfg)); try discriminate. by eexists. }
  apply (weak_order_consistent
           (fun x y => js_lt StringToNumber (get x (key cfg)) (get y (key cfg)))
           (if Direction_eqb (direction cfg) asc then 1 else -1)).
  - destruct (Direction_eqb _ _); auto.
  - intros a b. apply compareRows_by_lt.
  - intros a Ha. destruct (Hs a Ha) as [s ->]. apply String_ltb_irrefl.
  - intros a b d Ha Hb Hd.
    destruct (Hs a Ha) as [s ->], (Hs b Hb) as [t ->], (Hs d Hd) as [u ->].
    apply String_ltb_trans.
  - intros a b d Ha Hb Hd.
    destruct (Hs a Ha) as [s ->], (Hs b Hb) as [t ->], (Hs d Hd) as [u ->].
    cbn [js_lt]. intros H1 H2 H3 H4.
    rewrite (String_ltb_total s t H1 H2), (String_ltb_total t u H3 H4).
    by rewrite String_ltb_irrefl.
Qed.

End Columns.

(** ** V8 keeps the promise of the language *)

Section V8Permutation.

Context {A : Type} (c : A -> A -> Z).

Lemma extendRun_app d prev rest :
  rest = (extendRun c d prev rest).1 ++ (extendRun c d prev rest).2.
Proof.
  revert prev. induction rest as [|x rest IH]; intros prev; simpl; [done|].
  destruct (if d then 0 <=? c x prev else c x prev <? 0); [done|].
  specialize (IH x). destruct (extendRun c d x rest) as [run tail].
  simpl in *. by rewrite <- IH.
Qed.

Lemma CountAndMakeRun_perm l :
  (CountAndMakeRun c l).1 ++ (CountAndMakeRun c l).2 ≡ₚ l.
Proof.
  destruct l as [|x [|y rest]]; simpl; [done | done |].
  pose proof (extendRun_app (c y x <? 0) y rest) as Happ.
  destruct (extendRun c (c y x <? 0) y rest) as [run tail]; simpl in *.
  rewrite Happ. clear Happ.
  destruct (c y x <? 0); simpl; [|done].
  change (x :: y :: run ++ tail) with ((x :: y :: run) ++ tail).
  f_equiv. rewrite <- (Permutation_rev (x :: y :: run)). done.
Qed.

Lemma binaryInsert_perm sorted pivot :
  binaryInsert c sorted pivot ≡ₚ sorted ++ [pivot].
Proof.
  unfold binaryInsert.
  set (p := findInsertionPoint _ _ _ _ _ _).
  rewrite <- (take_drop p sorted) at 3.
  rewrite <- Permutation_middle. apply Permutation_cons_append.
Qed.

Lemma fold_binaryInsert_perm rest run :
  fold_left (binaryInsert c) rest run ≡ₚ run ++ rest.
Proof.
  revert run. induction rest as [|x rest IH]; intros run; simpl.
  - by rewrite app_nil_r.
  - rewrite IH, binaryInsert_perm. by rewrite <- app_assoc.
Qed.

Lemma v8_sort_perm l : v8_sort c l ≡ₚ l.
Proof.
  unfold v8_sort. pose proof (CountAndMakeRun_perm l) as Hp.
  destruct (CountAndMakeRun c l) as [run rest]; simpl in *.
  by rewrite fold_binaryInsert_perm.
Qed.

End V8Permutation.
Lemma List_filter_none {A} (f : A -> bool) (l : list A) :
  (forall x, x ∈ l -> f x = false) -> List.filter f l = [].
Proof.
  induction l as [|x l IH]; intros H; simpl; [done|].
  rewrite (H x) by left. apply IH. intros y Hy. apply H. by right.
Qed.

Section V8Sorted.

Context {A : Type} (c : A -> A -> Z) (L : list A).
Hypothesis Hc : consistent c L.

Lemma extendRun_Sorted d prev rest :
  Sorted (run_step c d) (prev :: (extendRun c d prev rest).1).
Proof.
  revert prev. induction rest as [|x rest IH]; intros prev; simpl.
  { repeat constructor. }
  destruct d; simpl.
  - destruct (Z.leb_spec 0 (c x prev)); simpl; [repeat constructor|].
    specialize (IH x). destruct (extendRun c true x rest) as [run tail].
    simpl in *. constructor; [done|]. constructor. unfold run_step. lia.
  - destruct (Z.ltb_spec (c x prev) 0); simpl; [repeat constructor|].
    specialize (IH x). destruct (extendRun c false x rest) as [run tail].
    simpl in *. constructor; [done|]. constructor. unfold run_step. lia.
Qed.

Lemma Sorted_StronglySorted_on (R : A -> A -> Prop) l :
  l ⊆ L ->
  (forall x y z, x ∈ L -> y ∈ L -> z ∈ L -> R x y -> R y z -> R x z) ->
  Sorted R l -> StronglySorted R l.
Proof.
  intros Hsub Htrans. induction 1 as [|x l Hs IH Hhd]; [constructor|].
  assert (l ⊆ L) as Hsub' by (intros z Hz; apply Hsub; by right).
  specialize (IH Hsub').
  constructor; [done|].
  destruct Hhd as [|y l Hxy]; [constructor|].
  apply StronglySorted_inv in IH as [_ Hall].
  constructor; [done|].
  apply Forall_forall. intros z Hz.
  apply (Htrans x y z).
  - apply Hsub. left.
  - apply Hsub. right; left.
  - apply Hsub. right; by right.
  - done.
  - by eapply Forall_forall in Hall.
Qed.

Lemma StronglySorted_lookup (R : A -> A -> Prop) l i j x y :
  StronglySorted R l -> (i < j)%nat ->
  l !! i = Some x -> l !! j = Some y -> R x y.
Proof.
  intros Hs. revert i j. induction Hs as [|z l Hs IH Hall]; intros i j Hij Hi Hj.
  { done. }
  destruct j as [|j]; [lia|]. destruct i as [|i]; simpl in *.
  - injection Hi as ->. eapply Forall_lookup_1 in Hall; eauto.
  - apply (IH i j); [lia | done | done].
Qed.

(** An ascending run is sorted. *)
Lemma ascending_run_sorted l :
  l ⊆ L -> Sorted (run_step c false) l -> StronglySorted (may_precede c) l.
Proof.
  intros Hsub Hs. apply Sorted_StronglySorted_on; [done | | done].
  intros x y z Hx Hy Hz. by apply (may_precede_trans c L Hc).
Qed.

(** A strictly descending run: sorted by "greater". *)
Lemma descending_run_sorted l :
  l ⊆ L -> Sorted (run_step c true) l ->
  StronglySorted (fun x y => c y x < 0) l.
Proof.
  intros Hsub Hs. apply Sorted_StronglySorted_on; [done | | done].
  intros x y z Hx Hy Hz Hyx Hzy.
  by apply (cmp_trans_lt _ _ Hc z y x).
Qed.

Lemma descending_rev_sorted l :
  l ⊆ L -> StronglySorted (fun x y => c y x < 0) l ->
  StronglySorted (may_precede c) (rev l).
Proof.
  intros Hsub Hs. induction Hs as [|x l Hs IH Hall]; simpl; [constructor|].
  assert (l ⊆ L) as Hsub' by (intros z Hz; apply Hsub; by right).
  apply StronglySorted_app_2.
  - intros y x' Hy Hx'. apply list_elem_of_singleton in Hx' as ->.
    apply list_elem_of_In, in_rev, list_elem_of_In in Hy.
    eapply Forall_forall in Hall; [|done].
    unfold may_precede.
    pose proof (cmp_lt_gt c L Hc y x (Hsub' _ Hy) (Hsub _ ltac:(left)) Hall).
    lia.
  - by apply IH.
  - repeat constructor.
Qed.

Lemma descending_equals_of a l :
  a ∈ L -> l ⊆ L -> StronglySorted (fun x y => c y x < 0) l ->
  (length (equals_of c a l) <= 1)%nat.
Proof.
  intros Ha Hsub Hs. induction Hs as [|x l Hs IH Hall]; simpl; [lia|].
  assert (l ⊆ L) as Hsub' by (intros z Hz; apply Hsub; by right).
  assert (x ∈ L) as Hx by (apply Hsub; left).
  destruct (Z.eqb_spec (c a x) 0) as [Hax|]; [|by apply IH].
  assert (equals_of c a l = []) as ->; [|simpl; lia].
  unfold equals_of. apply List_filter_none. intros y Hy.
  eapply Forall_forall in Hall as Hyx; [|done].
  apply Z.eqb_neq. intros Hay.
  pose proof (cmp_sym _ _ Hc a x Ha Hx Hax) as Hxa.
  pose proof (cmp_trans_eq _ _ Hc x a y Hx Ha (Hsub' _ Hy) Hxa Hay) as Hxy.
  pose proof (cmp_sym _ _ Hc x y Hx (Hsub' _ Hy) Hxy). lia.
Qed.

Lemma descending_rev_equals_of a l :
  a ∈ L -> l ⊆ L -> StronglySorted (fun x y => c y x < 0) l ->
  equals_of c a (rev l) = equals_of c a l.
Proof.
  intros Ha Hsub Hs. unfold equals_of. rewrite List.filter_rev.
  pose proof (descending_equals_of a l Ha Hsub Hs) as Hlen.
  unfold equals_of in Hlen.
  destruct (List.filter _ l) as [|x [|y t]]; simpl in *; [done | done | lia].
Qed.

End V8Sorted.

Section V8Insert.

Context {A : Type} (c : A -> A -> Z) (L : list A).
Hypothesis Hc : consistent c L.

(** Less than an element, hence less than any element that may follow it. *)
Lemma cmp_lt_may_precede p m e :
  p ∈ L -> m ∈ L -> e ∈ L -> c p m < 0 -> may_precede c m e -> c p e < 0.
Proof.
  unfold may_precede. intros Hp Hm He Hpm Hme.
  destruct (Z.lt_trichotomy (c e m) 0) as [H | [H | H]]; [lia | |].
  - pose proof (cmp_sym _ _ Hc e m He Hm H) as Hme'.
    by apply (cmp_lt_eq c L Hc p m e).
  - assert (c e m > 0) as H' by lia.
    pose proof (cmp_gt_lt c L Hc e m He Hm H') as Hme'.
    by apply (cmp_trans_lt _ _ Hc p m e).
Qed.

(** The binary search ends between the elements the pivot is not less
    than and the elements it is less than. *)
Lemma findInsertionPoint_spec fuel sorted pivot left right :
  pivot ∈ L -> sorted ⊆ L ->
  StronglySorted (may_precede c) sorted ->
  (left <= right <= length sorted)%nat ->
  (right - left <= fuel)%nat ->
  (forall i e, (i < left)%nat -> sorted !! i = Some e -> 0 <= c pivot e) ->
  (forall i e, (right <= i)%nat -> sorted !! i = Some e -> c pivot e < 0) ->
  let p := findInsertionPoint c fuel sorted pivot left right in
  (p <= length sorted)%nat
  /\ (forall i e, (i < p)%nat -> sorted !! i = Some e -> 0 <= c pivot e)
  /\ (forall i e, (p <= i)%nat -> sorted !! i = Some e -> c pivot e < 0).
Proof.
  intros Hp Hsub Hs. revert left right.
  induction fuel as [|fuel IH]; intros left right Hlr Hfuel Hlow Hhigh;
    cbn [findInsertionPoint].
  { assert (left = right) as -> by lia. split_and!; [lia | done | done]. }
  destruct (Nat.ltb_spec left right) as [Hlt | Hge].
  2:{ assert (left = right) as -> by lia. split_and!; [lia | done | done]. }
  set (mid := (left + (right - left) / 2)%nat).
  assert (left <= mid < right)%nat as Hmid.
  { subst mid. pose proof (Nat.div_lt (right - left) 2 ltac:(lia) ltac:(lia)).
    lia. }
  destruct (lookup_lt_is_Some_2 sorted mid ltac:(lia)) as [element Hel].
  rewrite Hel.
  assert (element ∈ L) as HeL.
  { apply Hsub. by eapply list_elem_of_lookup_2. }
  destruct (Z.ltb_spec (c pivot element) 0) as [Hless | Hnot].
  - apply IH; [lia | lia | done |].
    intros i e Hi He.
    destruct (decide (i = mid)) as [-> | Hne]; [by simplify_eq|].
    apply (cmp_lt_may_precede pivot element e); [done | done | | done |].
    + apply Hsub. by eapply list_elem_of_lookup_2.
    + apply (StronglySorted_lookup (may_precede c) sorted mid i);
        [done | lia | done | done].
  - apply IH; [lia | lia | | done].
    intros i e Hi He.
    destruct (decide (i = mid)) as [-> | Hne]; [simplify_eq; lia|].
    assert (e ∈ L) as HeL' by (apply Hsub; by eapply list_elem_of_lookup_2).
    apply (may_precede_trans c L Hc e element pivot); [done | done | done | |].
    + apply (StronglySorted_lookup (may_precede c) sorted i mid);
        [done | lia | done | done].
    + unfold may_precede. lia.
Qed.

Lemma binaryInsert_sorted sorted pivot :
  pivot ∈ L -> sorted ⊆ L ->
  StronglySorted (may_precede c) sorted ->
  StronglySorted (may_precede c) (binaryInsert c sorted pivot).
Proof.
  intros Hp Hsub Hs. unfold binaryInsert.
  destruct (findInsertionPoint_spec (length sorted) sorted pivot 0
              (length sorted) Hp Hsub Hs)
    as (Hlen & Hlow & Hhigh); [lia | lia | intros; lia | |].
  { intros i e Hi He. apply lookup_lt_Some in He. lia. }
  set (p := findInsertionPoint _ _ _ _ _ _) in *.
  rewrite <- (take_drop p sorted) in Hs.
  apply StronglySorted_app in Hs as (Hcross & Hs1 & Hs2).
  apply StronglySorted_app_2; [| done |].
  - intros x y Hx Hy. apply elem_of_cons in Hy as [-> | Hy]; [|by apply Hcross].
    apply list_elem_of_lookup in Hx as [i Hi].
    apply lookup_take_Some in Hi as [Hi Hip].
    unfold may_precede. by apply (Hlow i).
  - constructor; [done|]. apply Forall_forall. intros y Hy.
    apply list_elem_of_lookup in Hy as [i Hi]. rewrite lookup_drop in Hi.
    assert (c pivot y < 0) as Hlt by (apply (Hhigh (p + i)%nat); [lia | done]).
    assert (y ∈ L) as HyL by (apply Hsub; by eapply list_elem_of_lookup_2).
    pose proof (cmp_lt_gt c L Hc pivot y Hp HyL Hlt).
    unfold may_precede. lia.
Qed.

Lemma equals_of_app a l k :
  equals_of c a (l ++ k) = equals_of c a l ++ equals_of c a k.
Proof. apply List.filter_app. Qed.

Lemma binaryInsert_equals_of a sorted pivot :
  a ∈ L -> pivot ∈ L -> sorted ⊆ L ->
  StronglySorted (may_precede c) sorted ->
  equals_of c a (binaryInsert c sorted pivot)
  = equals_of c a (sorted ++ [pivot]).
Proof.
  intros Ha Hp Hsub Hs. unfold binaryInsert.
  destruct (findInsertionPoint_spec (length sorted) sorted pivot 0
              (length sorted) Hp Hsub Hs)
    as (Hlen & Hlow & Hhigh); [lia | lia | intros; lia | |].
  { intros i e Hi He. apply lookup_lt_Some in He. lia. }
  set (p := findInsertionPoint _ _ _ _ _ _) in *.
  rewrite <- (take_drop p sorted) at 3.
  rewrite !equals_of_app, <- app_assoc. f_equal.
  rewrite !equals_of_cons.
  destruct (Z.eqb_spec (c a pivot) 0) as [Hap|]; simpl; [|by rewrite app_nil_r].
  assert (equals_of c a (drop p sorted) = []) as ->; [|done].
  apply List_filter_none. intros y Hy.
  apply list_elem_of_lookup in Hy as [i Hi]. rewrite lookup_drop in Hi.
  assert (c pivot y < 0) as Hlt by (apply (Hhigh (p + i)%nat); [lia | done]).
  assert (y ∈ L) as HyL by (apply Hsub; by eapply list_elem_of_lookup_2).
  apply Z.eqb_neq. intros Hay.
  pose proof (cmp_sym _ _ Hc a pivot Ha Hp Hap) as Hpa.
  pose proof (cmp_trans_eq _ _ Hc pivot a y Hp Ha HyL Hpa Hay). lia.
Qed.

(** The loop of [BinaryInsertionSort]: the array stays a sorted, stable
    rearrangement of the elements taken so far. *)
Lemma fold_binaryInsert_inv rest sorted prefix :
  prefix ++ rest ⊆ L ->
  sorted ≡ₚ prefix ->
  StronglySorted (may_precede c) sorted ->
  (forall a, a ∈ L -> equals_of c a sorted = equals_of c a prefix) ->
  StronglySorted (may_precede c) (fold_left (binaryInsert c) rest sorted)
  /\ forall a, a ∈ L ->
       equals_of c a (fold_left (binaryInsert c) rest sorted)
       = equals_of c a (prefix ++ rest).
Proof.
  revert sorted prefix.
  induction rest as [|x rest IH]; intros sorted prefix Hsub Hp Hs He; simpl.
  { rewrite app_nil_r. done. }
  assert (x ∈ L) as Hx by (apply Hsub, elem_of_app; right; left).
  assert (sorted ⊆ L) as HsL.
  { intros z Hz. apply Hsub, elem_of_app. left. by rewrite <- Hp. }
  replace (prefix ++ x :: rest) with ((prefix ++ [x]) ++ rest)
    by (by rewrite <- app_assoc).
  apply IH.
  - by rewrite <- app_assoc.
  - by rewrite binaryInsert_perm, Hp.
  - by apply binaryInsert_sorted.
  - intros a Ha. rewrite binaryInsert_equals_of by done.
    by rewrite !equals_of_app, He.
Qed.

Lemma v8_sort_sorted_stable l :
  l ⊆ L ->
  StronglySorted (may_precede c) (v8_sort c l)
  /\ forall a, a ∈ L -> equals_of c a (v8_sort c l) = equals_of c a l.
Proof.
  intros Hsub. unfold v8_sort.
  destruct l as [|x [|y rest]].
  - simpl. split; [constructor | done].
  - simpl. split; [repeat constructor | done].
  - cbn [CountAndMakeRun].
    pose proof (extendRun_app c (c y x <? 0) y rest) as Happ.
    pose proof (extendRun_Sorted c (c y x <? 0) y rest) as Hrun.
    destruct (extendRun c (c y x <? 0) y rest) as [run tail];
      cbn [fst snd] in *.
    assert (Sorted (run_step c (c y x <? 0)) (x :: y :: run)) as Hwhole.
    { constructor; [done|]. constructor. unfold run_step.
      destruct (Z.ltb_spec (c y x) 0); lia. }
    assert ((x :: y :: run) ++ tail = x :: y :: rest) as Hl
      by (simpl; by rewrite <- Happ).
    assert (x :: y :: run ⊆ L) as HwL.
    { intros z Hz. apply Hsub. rewrite <- Hl. apply elem_of_app. by left. }
    rewrite <- Hl. rewrite <- Hl in Hsub.
    destruct (c y x <? 0).
    + pose proof (descending_run_sorted c L Hc _ HwL Hwhole) as Hd.
      apply fold_binaryInsert_inv; [done | | |].
      * symmetry. apply Permutation_rev.
      * by apply (descending_rev_sorted c L Hc).
      * intros a Ha. by apply (descending_rev_equals_of c L Hc).
    + apply fold_binaryInsert_inv; [done | done | | done].
      by apply (ascending_run_sorted c L Hc).
Qed.

End V8Insert.

Lemma v8_sort_EcmaSort {A} : EcmaSort (@v8_sort A).
Proof.
  intros c l. split; [apply v8_sort_perm|].
  intros Hc. by apply (v8_sort_sorted_stable c l Hc).
Qed.

(** ** Sorting in the effect *)

Section SortingFacts.

Variable StringToNumber : string -> option Z.
Variable Array_sort : (Row -> Row -> Z) -> list Row -> list Row.

Local Abbreviation Recompute := (recompute StringToNumber Array_sort).
Local Abbreviation CompareRows := (compareRows StringToNumber).

(** For a consistent comparator the effect is the one of insertion sort. *)
Lemma recompute_EcmaSort st :
  EcmaSort Array_sort ->
  (forall cfg, sortConfig st = Some cfg ->
     consistent (CompareRows cfg)
       (filterRows (searchQuery st) (dataRows st))) ->
  Recompute st = recompute StringToNumber insertion_sort st.
Proof.
  intros Hsort Hc. unfold recompute, applySorting.
  pose proof (applySearchFilter_read st) as Hread.
  destruct (applySearchFilter st) as [filtered σ1]; cbn [fst snd] in *.
  destruct (sortConfig st) as [cfg|]; [|done].
  rewrite Hread. by rewrite (sort_unique _ Hsort) by auto.
Qed.

(** C4 (amended).  When the comparator of the sort configuration is a
    consistent comparison on the rows that pass the filter, the sort of the
    effect is stable, for every sorting procedure that keeps the promise of
    the language: the rows left in [filteredData] are the sorted filtered
    rows, and any two of them that compare equal keep their relative order.
    The comparator returns 0 exactly for two values neither of which is
    less than the other. *)
Theorem sort_keeps_order_of_ties (st : State) (cfg : SortConfig) :
  EcmaSort Array_sort ->
  (data st < length (store st))%nat ->
  sortConfig st = Some cfg ->
  consistent (CompareRows cfg) (filterRows (searchQuery st) (dataRows st)) ->
  filteredRows (Recompute st)
  = Array_sort (CompareRows cfg) (filterRows (searchQuery st) (dataRows st))
  /\ StronglySorted (may_precede (CompareRows cfg)) (filteredRows (Recompute st))
  /\ ties_keep_order (CompareRows cfg)
       (filterRows (searchQuery st) (dataRows st))
       (filteredRows (Recompute st))
  /\ (forall a b,
        CompareRows cfg a b = 0 <->
        js_lt StringToNumber (get a (key cfg)) (get b (key cfg)) = false
        /\ js_gt StringToNumber (get a (key cfg)) (get b (key cfg)) = false).
Proof.
  intros Hsort Hd Hcfg Hc.
  rewrite recompute_filteredRows by done.
  unfold derivedRows. rewrite Hcfg.
  split_and!.
  - done.
  - by apply Hsort.
  - by apply EcmaSort_ties_keep_order.
  - intros a b. apply compareRows_zero.
Qed.

End SortingFacts.

Lemma sort_keeps_order_of_ties_witness :
  let st := v8_handleSort "a" (v8_viewer ties_csv) in
  ties_keep_order
    (compareRows StringToNumber_dec {| key := "b"; direction := asc |})
    [ [("a", VNum 1); ("b", VNum 1)]; [("a", VNum 2); ("b", VNum 1)] ]
    (filteredRows (v8_handleSort "b" st)).
Proof.
  intros st.
  apply (sort_keeps_order_of_ties StringToNumber_dec v8_sort
           {| store := store st; data := data st; columns := columns st;
              filteredData := filteredData st;
              searchQuery := searchQuery st;
              sortConfig := Some (nextSortConfig (sortConfig st) "b");
              currentPage := currentPage st; loading := loading st;
              error := error st |}
           {| key := "b"; direction := asc |}).
  - apply v8_sort_EcmaSort.
  - vm_compute. lia.
  - reflexivity.
  - apply consistentb_spec. reflexivity.
Defined.

(** C4, as stated, fails in V8 on a text column with an empty cell: the
    rows 3 (empty name) and 4 (name [a]) compare equal, row 3 stands before
    row 4 in the file, and after a click on the header of [name] row 4
    stands before row 3. *)
Lemma ties_swapped_on_mixed_column :
  let cfg := {| key := "name"; direction := asc |} in
  let loaded := v8_viewer names_csv in
  let sorted := v8_handleSort "name" loaded in
  sortConfig sorted = Some cfg
  /\ filterRows (searchQuery loaded) (dataRows loaded) = parsed_data names_csv
  /\ compareRows StringToNumber_dec cfg
       [("id", VNum 3); ("name", VNull)]
       [("id", VNum 4); ("name", VStr "a")] = 0
  /\ before [("id", VNum 3); ("name", VNull)]
            [("id", VNum 4); ("name", VStr "a")] (parsed_data names_csv)
  /\ ~ ties_keep_order (compareRows StringToNumber_dec cfg)
         (filterRows (searchQuery loaded) (dataRows loaded))
         (filteredRows sorted)
  /\ reachable StringToNumber_dec v8_sort sorted.
Proof.
  intros cfg loaded sorted.
  assert (reachable StringToNumber_dec v8_sort sorted) as Hreach.
  { apply (reachable_step _ _ (EvSort "name")); [|reflexivity].
    apply (reachable_step _ _ (EvLoad (Parsed names_csv)));
      [apply reachable_mount | reflexivity]. }
  assert (before [("id", VNum 3); ("name", VNull)]
            [("id", VNum 4); ("name", VStr "a")] (parsed_data names_csv))
    as Hbefore.
  { unfold before, names_csv; cbn [parsed_data].
    do 2 apply sublist_cons. do 2 apply sublist_skip. apply sublist_nil. }
  split_and!;
    [reflexivity | reflexivity | reflexivity | exact Hbefore | | exact Hreach].
  intros Hkeep.
  specialize (Hkeep _ _ Hbefore eq_refl).
  apply before_lookup in Hkeep as (i & j & Hij & Hi & Hj).
  assert (filteredRows sorted
          = [ [("id", VNum 4); ("name", VStr "a")];
              [("id", VNum 2); ("name", VStr "c")];
              [("id", VNum 1); ("name", VStr "d")];
              [("id", VNum 3); ("name", VNull)] ]) as Hrows
    by (vm_compute; reflexivity).
  rewrite Hrows in Hi, Hj.
  destruct i as [|[|[|[|i]]]]; try discriminate Hi;
    destruct j as [|[|[|[|j]]]]; try discriminate Hj; lia.
Qed.

(** Why the language leaves the order of these four rows to the engine:
    none of their orders is both sorted by name and keeps every tie in file
    order.  The empty name ties with [d] before it and with [a] after it, so
    keeping both ties puts [d] before [a]. *)
Lemma mixed_column_sorted_or_stable (rows' : list Row) :
  let c :=
    compareRows StringToNumber_dec {| key := "name"; direction := asc |} in
  rows' ≡ₚ parsed_data names_csv ->
  StronglySorted (may_precede c) rows' ->
  ~ ties_keep_order c (parsed_data names_csv) rows'.
Proof.
  intros c Hp Hs Hkeep.
  set (d := [("id", VNum 1); ("name", VStr "d")] : Row).
  set (e := [("id", VNum 3); ("name", VNull)] : Row).
  set (a := [("id", VNum 4); ("name", VStr "a")] : Row).
  assert (NoDup rows') as Hnd.
  { rewrite Hp. unfold names_csv; cbn [parsed_data].
    repeat (apply NoDup_cons_2;
            [intros H;
             repeat (apply elem_of_cons in H as [H|H]; [discriminate H|]);
             by apply elem_of_nil in H |]).
    apply NoDup_nil_2. }
  assert (before d e (parsed_data names_csv)) as Hde.
  { unfold before, names_csv; cbn [parsed_data].
    apply sublist_skip, sublist_cons, sublist_skip, sublist_nil_l. }
  assert (before e a (parsed_data names_csv)) as Hea.
  { unfold before, names_csv; cbn [parsed_data].
    do 2 apply sublist_cons. do 2 apply sublist_skip. apply sublist_nil. }
  pose proof (Hkeep d e Hde eq_refl) as Hde'.
  pose proof (Hkeep e a Hea eq_refl) as Hea'.
  apply before_lookup in Hde' as (i & j & Hij & Hi & Hj).
  apply before_lookup in Hea' as (j' & k & Hjk & Hj' & Hk).
  assert (j = j') as <- by (by eapply NoDup_lookup).
  assert (may_precede c d a) as Hda.
  { apply (StronglySorted_lookup _ rows' i k); [done | lia | done | done]. }
  vm_compute in Hda. by apply Hda.
Qed.

(** ** Sorting twice *)

Section History.

Variable StringToNumber : string -> option Z.
Variable Array_sort : (Row -> Row -> Z) -> list Row -> list Row.
Hypothesis Hsort : EcmaSort Array_sort.

Local Abbreviation Recompute := (recompute StringToNumber Array_sort).
Local Abbreviation HandleSort := (handleSort StringToNumber Array_sort).
Local Abbreviation CompareRows := (compareRows StringToNumber).

Lemma handleSort_EcmaSort column st :
  consistent (CompareRows (nextSortConfig (sortConfig st) column))
    (filterRows (searchQuery st) (dataRows st)) ->
  HandleSort column st = handleSort StringToNumber insertion_sort column st.
Proof.
  intros Hc. unfold handleSort. apply recompute_EcmaSort; [done|].
  cbn [sortConfig searchQuery]. by intros cfg [= <-].
Qed.

Lemma nextSortConfig_involutive cfg :
  nextSortConfig (Some (nextSortConfig (Some cfg) (key cfg))) (key cfg) = cfg.
Proof.
  unfold nextSortConfig; cbn [key direction]. rewrite !String.eqb_refl.
  by destruct cfg as [k []].
Qed.

(** What [handleSort] leaves in [filteredData] and in [data]. *)
Lemma handleSort_rows column st :
  (data st < length (store st))%nat ->
  let cfg := nextSortConfig (sortConfig st) column in
  let after := HandleSort column st in
  sortConfig after = Some cfg
  /\ searchQuery after = searchQuery st
  /\ (data after < length (store after))%nat
  /\ filteredRows after
     = Array_sort (CompareRows cfg) (filterRows (searchQuery st) (dataRows st))
  /\ dataRows after
     = if JsString.truthy (searchQuery st) then dataRows st
       else Array_sort (CompareRows cfg) (dataRows st).
Proof.
  intros Hd cfg after. subst after. unfold handleSort.
  set (st' := mkState _ _ _ _ _ _ _ _ _).
  assert (data st' < length (store st'))%nat as Hd' by done.
  destruct (recompute_frame StringToNumber Array_sort st')
    as (_ & _ & Hq & Hs & _).
  split_and!; [done | done | | |].
  - by apply recompute_wf.
  - by rewrite recompute_filteredRows.
  - rewrite recompute_dataRows by done. unfold derivedRows, filterRows.
    cbn [searchQuery sortConfig st'].
    by destruct (JsString.truthy (searchQuery st)).
Qed.

(** X29.  Two clicks on the header of the sorted column give back the rows
    of the first sort when the query is not empty (each sort then works on
    a new copy of the filtered rows), and also when the comparator is
    consistent (re-sorting a sorted array depends only on the order of its
    ties). *)
Lemma sort_toggle_restores st cfg :
  (data st < length (store st))%nat ->
  sortConfig st = Some cfg ->
  JsString.truthy (searchQuery st) = true
  \/ consistent (CompareRows cfg) (dataRows st) ->
  filteredRows (HandleSort (key cfg) (HandleSort (key cfg) (Recompute st)))
  = filteredRows (Recompute st).
Proof.
  intros Hd Hcfg Hcase.
  set (A := Recompute st).
  destruct (recompute_frame StringToNumber Array_sort st)
    as (_ & _ & HqA & HsA & _). fold A in HqA, HsA.
  assert (data A < length (store A))%nat as HdA by (by apply recompute_wf).
  destruct (handleSort_rows (key cfg) A HdA) as (HsB & HqB & HdB & _ & HrB).
  set (B := HandleSort (key cfg) A) in *.
  destruct (handleSort_rows (key cfg) B HdB) as (_ & _ & _ & HfC & _).
  rewrite HfC, HsB, HqB, HrB, HsA, HqA, Hcfg.
  rewrite nextSortConfig_involutive.
  unfold A. rewrite recompute_filteredRows, recompute_dataRows by done.
  unfold derivedRows. rewrite Hcfg.
  destruct (JsString.truthy (searchQuery st)) eqn:Hq; [done|].
  destruct Hcase as [? | Hc]; [done|].
  unfold filterRows. rewrite Hq.
  set (c := CompareRows cfg) in *.
  set (c' := CompareRows (nextSortConfig (Some cfg) (key cfg))).
  assert (forall a b, c' a b = - c a b) as Hopp
    by (intros; apply compareRows_flip).
  assert (consistent c (Array_sort c (dataRows st))) as Hc1.
  { eapply consistent_perm; [by apply sort_perm | done]. }
  rewrite (sort_sort _ Hsort c c'); [| done | by eapply consistent_opp |].
  - apply (sort_sort _ Hsort c c); [done | done | done].
  - intros a b _ _. rewrite Hopp. lia.
Qed.

(** C3.  After the file [a,b / 2,1 / 1,1] is loaded, with the empty query,
    a click on the header of [b] leaves the rows in file order, and a click
    on [a] followed by a click on [b] leaves them in the opposite order: the
    query and the sort configuration are the same in both states, the rows
    differ, and the rows of [data] are no longer in file order.  With a
    query that keeps both rows the two histories give the same rows. *)
Theorem filteredRows_depends_on_sort_history :
  let loaded :=
    load StringToNumber Array_sort (Parsed ties_csv)
      (mount StringToNumber Array_sort) in
  let direct := HandleSort "b" loaded in
  let indirect := HandleSort "b" (HandleSort "a" loaded) in
  let queried := setSearchQuery StringToNumber Array_sort "1" loaded in
  (searchQuery direct = searchQuery indirect
   /\ sortConfig direct = sortConfig indirect
   /\ columns direct = columns indirect)
  /\ filteredRows direct
     = [ [("a", VNum 2); ("b", VNum 1)]; [("a", VNum 1); ("b", VNum 1)] ]
  /\ filteredRows indirect
     = [ [("a", VNum 1); ("b", VNum 1)]; [("a", VNum 2); ("b", VNum 1)] ]
  /\ dataRows indirect <> parsed_data ties_csv
  /\ filteredRows (HandleSort "b" queried)
     = filteredRows (HandleSort "b" (HandleSort "a" queried))
  /\ (reachable StringToNumber Array_sort direct
      /\ reachable StringToNumber Array_sort indirect).
Proof.
  intros loaded direct indirect queried.
  assert (reachable StringToNumber Array_sort direct
          /\ reachable StringToNumber Array_sort indirect) as Hreach.
  { assert (reachable StringToNumber Array_sort loaded) as Hl.
    { apply (reachable_step _ _ (EvLoad (Parsed ties_csv)));
        [apply reachable_mount | reflexivity]. }
    split.
    - by apply (reachable_step _ _ (EvSort "b")).
    - apply (reachable_step _ _ (EvSort "b")); [|reflexivity].
      by apply (reachable_step _ _ (EvSort "a")). }
  revert Hreach. generalize (reachable StringToNumber Array_sort direct
    /\ reachable StringToNumber Array_sort indirect). intros Reach Hreach.
  assert (loaded
          = load StringToNumber insertion_sort (Parsed ties_csv)
              (mount StringToNumber insertion_sort)) as Hloaded
    by reflexivity.
  assert (queried
          = setSearchQuery StringToNumber insertion_sort "1"
              (load StringToNumber insertion_sort (Parsed ties_csv)
                 (mount StringToNumber insertion_sort))) as Hqueried
    by reflexivity.
  subst direct indirect. rewrite Hqueried, Hloaded.
  clear loaded queried Hloaded Hqueried.
  repeat
    first [ rewrite (handleSort_EcmaSort "a")
              by (apply consistentb_spec; vm_compute; reflexivity)
          | rewrite (handleSort_EcmaSort "b")
              by (apply consistentb_spec; vm_compute; reflexivity) ].
  vm_compute. split_and!; try reflexivity; [discriminate | exact Hreach].
Qed.

End History.

Lemma filteredRows_depends_on_sort_history_witness :
  filteredRows (v8_handleSort "b" (v8_viewer ties_csv))
  <> filteredRows
       (v8_handleSort "b" (v8_handleSort "a" (v8_viewer ties_csv))).
Proof.
  destruct (filteredRows_depends_on_sort_history StringToNumber_dec
              v8_sort v8_sort_EcmaSort)
    as (_ & Hdirect & Hindirect & _).
  unfold v8_handleSort, v8_viewer.
  rewrite Hdirect, Hindirect. discriminate.
Defined.

Lemma sort_toggle_restores_witness :
  let sorted := v8_handleSort "age" (v8_viewer people_csv) in
  filteredRows (v8_handleSort "age" (v8_handleSort "age" sorted))
  = filteredRows sorted.
Proof.
  intros sorted.
  set (st := {| store := store (v8_viewer people_csv);
                data := data (v8_viewer people_csv);
                columns := columns (v8_viewer people_csv);
                filteredData := filteredData (v8_viewer people_csv);
                searchQuery := EmptyString;
                sortConfig := Some {| key := "age"; direction := asc |};
                currentPage := 1; loading := false; error := None |}).
  apply (sort_toggle_restores StringToNumber_dec v8_sort
           v8_sort_EcmaSort st {| key := "age"; direction := asc |}).
  - vm_compute. lia.
  - reflexivity.
  - right. apply consistentb_spec. reflexivity.
Defined.

(** C5.  In V8, with the empty query, the file
    [id,name / 1,b / 2,c / 3, / 4,a] and three clicks on the header of
    [name] (ascending, descending, ascending): the first ascending sort
    leaves the rows 1, 2, 3, 4, the second one the rows 4, 1, 2, 3.  Each
    sort works on the array of [data] itself, which the sort before it has
    reordered. *)
Theorem sort_toggle_on_shared_array :
  let ids := map (fun row => get row "id") in
  let ascending := v8_handleSort "name" (v8_viewer toggle_csv) in
  let descending := v8_handleSort "name" ascending in
  let again := v8_handleSort "name" descending in
  (sortConfig ascending = Some {| key := "name"; direction := asc |}
   /\ sortConfig descending = Some {| key := "name"; direction := desc |}
   /\ sortConfig again = Some {| key := "name"; direction := asc |})
  /\ (searchQuery ascending = EmptyString
      /\ filteredData ascending = data ascending)
  /\ ids (filteredRows ascending) = [VNum 1; VNum 2; VNum 3; VNum 4]
  /\ ids (filteredRows descending) = [VNum 2; VNum 1; VNum 3; VNum 4]
  /\ ids (filteredRows again) = [VNum 4; VNum 1; VNum 2; VNum 3]
  /\ filteredRows again <> filteredRows ascending
  /\ reachable StringToNumber_dec v8_sort again.
Proof.
  intros ids ascending descending again.
  assert (reachable StringToNumber_dec v8_sort again) as Hreach.
  { do 3 (apply (reachable_step _ _ (EvSort "name")); [|reflexivity]).
    apply (reachable_step _ _ (EvLoad (Parsed toggle_csv)));
      [apply reachable_mount | reflexivity]. }
  revert Hreach. generalize (reachable StringToNumber_dec v8_sort again).
  intros Reach Hreach.
  vm_compute. split_and!; try reflexivity; [discriminate | exact Hreach].
Qed.

(** The scenario of the specification, in V8: a click on [age] gives Amy,
    Bob; a second click gives Bob, Amy. *)
Example sort_scenario :
  let names := map (fun row => get row "name") in
  let once := v8_handleSort "age" (v8_viewer people_csv) in
  names (filteredRows once) = [VStr "Amy"; VStr "Bob"]
  /\ names (filteredRows (v8_handleSort "age" once))
     = [VStr "Bob"; VStr "Amy"].
Proof. vm_compute. split; reflexivity. Qed.

(** ** Reachable states *)

Section Reachable.

Variable StringToNumber : string -> option Z.
Variable Array_sort : (Row -> Row -> Z) -> list Row -> list Row.

Local Abbreviation Recompute := (recompute StringToNumber Array_sort).
Local Abbreviation Reachable := (reachable StringToNumber Array_sort).
Local Abbreviation Handle := (handle StringToNumber Array_sort).

Lemma load_cases o st :
  (data st < length (store st))%nat ->
  (exists l e,
     load StringToNumber Array_sort o st
     = {| store := store st; data := data st; columns := columns st;
          filteredData := filteredData st; searchQuery := searchQuery st;
          sortConfig := sortConfig st; currentPage := currentPage st;
          loading := l; error := e |})
  \/ (exists st', (data st' < length (store st'))%nat
        /\ load StringToNumber Array_sort o st = Recompute st').
Proof.
  intros Hd. unfold load, onload. destruct o as [| |parsed].
  - left. exists (loading st), (error st).
    rewrite Nat.eqb_refl. by destruct st.
  - left. eexists _, _. cbn [data]. by rewrite Nat.eqb_refl.
  - destruct (0 <? length (parsed_errors parsed))%nat.
    + left. eexists _, _. cbn [data]. by rewrite Nat.eqb_refl.
    + right. cbn [alloc data].
      destruct (Nat.eqb_spec (length (store st)) (data st)); [lia|].
      eexists. split; [|reflexivity]. cbn [data store].
      rewrite length_app. simpl. lia.
Qed.

Lemma setSearchQuery_cases q st :
  setSearchQuery StringToNumber Array_sort q st = st
  \/ exists st', data st' = data st /\ store st' = store st
       /\ setSearchQuery StringToNumber Array_sort q st = Recompute st'.
Proof.
  unfold setSearchQuery. destruct (String.eqb q (searchQuery st)); [by left|].
  right. eexists. split_and!; [| |reflexivity]; reflexivity.
Qed.

(** In every reachable state both references point into the store. *)
Lemma reachable_wf st : Reachable st -> wf st.
Proof.
  induction 1 as [|e st Hr IH Hoff].
  - unfold wf. vm_compute. lia.
  - destruct IH as [Hd Hf]. destruct e as [o|q|column| |n|]; cbn [handle].
    + destruct (load_cases o st Hd) as [(l & e & ->) | (st' & Hd' & ->)];
        [done | by apply recompute_wf].
    + destruct (setSearchQuery_cases q st)
        as [-> | (st' & Hd' & Hs' & ->)]; [done|].
      apply recompute_wf. by rewrite Hd', Hs'.
    + by apply recompute_wf.
    + done.
    + done.
    + done.
Qed.

(** In every reachable state the current page is at least 1 and, when
    there are pages, at most [totalPages]. *)
Lemma reachable_currentPage st :
  Reachable st -> 1 <= currentPage st <= Z.max 1 (totalPages st).
Proof.
  induction 1 as [|e st Hr IH Hoff].
  - vm_compute. split; discriminate.
  - pose proof (reachable_wf st Hr) as [Hd _].
    assert (forall st', 1 <= currentPage (Recompute st')
                        <= Z.max 1 (totalPages (Recompute st'))) as Hrec.
    { intros st'.
      destruct (recompute_frame StringToNumber Array_sort st')
        as (_ & _ & _ & _ & _ & _ & ->). lia. }
    destruct e as [o|q|column| |n|]; cbn [handle offered] in *.
    + destruct (load_cases o st Hd) as [(l & e & ->) | (st' & _ & ->)];
        [exact IH | apply Hrec].
    + destruct (setSearchQuery_cases q st) as [-> | (st' & _ & _ & ->)];
        [exact IH | apply Hrec].
    + apply Hrec.
    + change (totalPages (clickPrevious st)) with (totalPages st).
      unfold clickPrevious; cbn [setCurrentPage currentPage]. lia.
    + change (totalPages (clickPage n st)) with (totalPages st).
      unfold clickPage; cbn [setCurrentPage currentPage].
      apply andb_true_iff in Hoff as [_ Hn].
      apply existsb_exists in Hn as (m & Hm%list_elem_of_In & ->%Z.eqb_eq).
      apply elem_of_pageButtons in Hm. lia.
    + change (totalPages (clickNext st)) with (totalPages st).
      unfold clickNext; cbn [setCurrentPage currentPage].
      apply andb_true_iff in Hoff as [Hoff _].
      apply andb_true_iff in Hoff as [_ Htp%Z.ltb_lt]. lia.
Qed.

(** Whenever the pagination buttons are rendered, the current page lies
    within [1 .. totalPages]. *)
Lemma reachable_page_in_range st :
  Reachable st -> 1 < totalPages st ->
  1 <= currentPage st <= totalPages st.
Proof. intros Hr Htp. pose proof (reachable_currentPage st Hr). lia. Qed.

(** C6.  A change of the search query and every change of the sort
    configuration set [currentPage] to 1; the three page-setting handlers
    change neither the filtered rows nor the dataset, nor the query or the
    sort configuration. *)
Theorem page_reset_and_page_frame (st : State) :
  (forall q, q <> searchQuery st ->
     searchQuery (setSearchQuery StringToNumber Array_sort q st) = q
     /\ currentPage (setSearchQuery StringToNumber Array_sort q st) = 1)
  /\ (forall column,
        sortConfig (handleSort StringToNumber Array_sort column st)
        = Some (nextSortConfig (sortConfig st) column)
        /\ currentPage (handleSort StringToNumber Array_sort column st) = 1)
  /\ (forall st',
        st' = clickPrevious st \/ st' = clickNext st
        \/ (exists n, st' = clickPage n st) ->
        filteredRows st' = filteredRows st
        /\ dataRows st' = dataRows st
        /\ store st' = store st
        /\ searchQuery st' = searchQuery st
        /\ sortConfig st' = sortConfig st).
Proof.
  split_and!.
  - intros q Hq. unfold setSearchQuery.
    destruct (String.eqb_spec q (searchQuery st)); [done|].
    set (st' := mkState _ _ _ _ _ _ _ _ _).
    by destruct (recompute_frame StringToNumber Array_sort st')
      as (_ & _ & -> & _ & _ & _ & ->).
  - intros column. unfold handleSort.
    set (st' := mkState _ _ _ _ _ _ _ _ _).
    by destruct (recompute_frame StringToNumber Array_sort st')
      as (_ & _ & _ & -> & _ & _ & ->).
  - intros st' [-> | [-> | [n ->]]]; done.
Qed.

(** ** The rows of the effect are rows of the dataset *)

Lemma derivedRows_subseteq rows q cfg :
  EcmaSort Array_sort ->
  derivedRows StringToNumber Array_sort rows q cfg ⊆ rows.
Proof.
  intros Hsort r. unfold derivedRows.
  assert (filterRows q rows ⊆ rows) as Hsub.
  { apply sublist_subseteq. unfold filterRows.
    destruct (JsString.truthy q); [apply List_filter_sublist | done]. }
  destruct cfg as [cfg|]; [|apply Hsub].
  rewrite (sort_elem_of _ Hsort). apply Hsub.
Qed.


End Reachable.

Lemma page_reset_and_page_frame_witness :
  currentPage
    (setSearchQuery StringToNumber_dec v8_sort "amy"
       (clickPage 7 (v8_viewer people_csv))) = 1.
Proof.
  apply (page_reset_and_page_frame StringToNumber_dec v8_sort
           (clickPage 7 (v8_viewer people_csv))).
  discriminate.
Defined.

(** ** The table on screen after a sort *)

Section OnScreenFacts.

Variable StringToNumber : string -> option Z.
Variable Array_sort : (Row -> Row -> Z) -> list Row -> list Row.

Local Abbreviation Mount := (mount StringToNumber Array_sort).
Local Abbreviation Load := (load StringToNumber Array_sort).
Local Abbreviation Recompute := (recompute StringToNumber Array_sort).
Local Abbreviation HandleSort := (handleSort StringToNumber Array_sort).
Local Abbreviation ClickHeader := (clickHeader StringToNumber Array_sort).
Local Abbreviation CompareRows := (compareRows StringToNumber).

Lemma handleSort_setSortConfig column st :
  HandleSort column st = Recompute (setSortConfig column st).
Proof. reflexivity. Qed.

(** The state of the screen is the state of the handler. *)
Lemma clickHeader_current column scr :
  current (ClickHeader column scr) = HandleSort column (current scr).
Proof.
  unfold clickHeader, runEffect. rewrite handleSort_setSortConfig.
  by destruct (_ && _).
Qed.

(** With the empty query, on page 1, when [filteredData] is the array of
    [data], the effect sorts that array and sets both hooks to the values
    they hold: what is on screen is the render from before the sort. *)
Lemma clickHeader_stale column st :
  filteredData st = data st ->
  JsString.truthy (searchQuery st) = false ->
  currentPage st = 1 ->
  shown (ClickHeader column (paint st)) = render (setSortConfig column st).
Proof.
  intros Hf Hq Hp. unfold clickHeader, runEffect, paint; cbn [current].
  unfold recompute, applySearchFilter.
  cbn [setSortConfig searchQuery data store filteredData currentPage].
  rewrite Hq, Hf, Hp. cbn [filteredData currentPage].
  by rewrite Nat.eqb_refl.
Qed.

(** With a query, or from another page than page 1, the effect changes
    [filteredData] or [currentPage], and the component is rendered again
    from the sorted rows. *)
Lemma clickHeader_fresh column st :
  (filteredData st < length (store st))%nat ->
  JsString.truthy (searchQuery st) = true \/ currentPage st <> 1 ->
  shown (ClickHeader column (paint st))
  = render (current (ClickHeader column (paint st))).
Proof.
  intros Hwf Hcase. unfold clickHeader, runEffect, paint; cbn [current].
  set (st1 := setSortConfig column st).
  assert ((filteredData (recompute StringToNumber Array_sort st1)
             =? filteredData st1)%nat
          && (currentPage (recompute StringToNumber Array_sort st1)
                =? currentPage st1) = false) as ->; [|done].
  apply andb_false_iff. destruct Hcase as [Hq | Hp].
  - left. apply Nat.eqb_neq.
    unfold recompute, applySearchFilter.
    cbn [st1 setSortConfig searchQuery store filteredData]. rewrite Hq.
    cbn [alloc filteredData]. lia.
  - right. apply Z.eqb_neq.
    destruct (recompute_frame StringToNumber Array_sort st1)
      as (_ & _ & _ & _ & _ & _ & ->).
    cbn [st1 setSortConfig currentPage]. congruence.
Qed.

(** C7.  The visible page is not always the slice of the filtered rows.
    After the first load of a file, a click on a column header leaves in
    [filteredData] the rows of the file sorted by that column, on page 1,
    but the table on screen still shows the first 50 rows in the order of
    the file: the effect sorts the array that was rendered and sets
    [filteredData] and [currentPage] to the values they hold, so the
    component is not rendered again. *)
Theorem table_on_screen_lags_behind_sort (parsed : ParseResult)
    (column : string) :
  parsed_errors parsed = [] ->
  let loaded := Load (Parsed parsed) Mount in
  let scr := ClickHeader column (paint loaded) in
  let sorted :=
    Array_sort (CompareRows {| key := column; direction := asc |})
               (parsed_data parsed) in
  current scr = HandleSort column loaded
  /\ currentPage (current scr) = 1
  /\ filteredRows (current scr) = sorted
  /\ currentData (current scr) = slice sorted 0 50
  /\ visibleRows (shown scr)
     = map (fun row => map (renderCell row) (default [] (meta_fields parsed)))
           (slice (parsed_data parsed) 0 50)
  /\ visibleRows (render (current scr))
     = map (fun row => map (renderCell row) (default [] (meta_fields parsed)))
           (slice sorted 0 50)
  /\ (EcmaSort Array_sort -> parsed = people_csv -> column = "age" ->
      filteredRows (current scr)
      = [ [("name", VStr "Amy"); ("age", VNum 25)];
          [("name", VStr "Bob"); ("age", VNum 30)] ]
      /\ map (map text) (visibleRows (shown scr))
         = [ ["Bob"; "30"]; ["Amy"; "25"] ]
      /\ map (map text) (visibleRows (render (current scr)))
         = [ ["Amy"; "25"]; ["Bob"; "30"] ]).
Proof.
  intros He loaded scr sorted.
  assert (loaded
          = {| store := [[]; []; parsed_data parsed]; data := 2%nat;
               columns := default [] (meta_fields parsed);
               filteredData := 2%nat; searchQuery := EmptyString;
               sortConfig := None; currentPage := 1; loading := false;
               error := None |}) as Hloaded.
  { subst loaded. rewrite load_Parsed_ok by (done || (cbn; lia)).
    by rewrite mount_eq. }
  assert (current scr
          = {| store := [[]; []; sorted]; data := 2%nat;
               columns := default [] (meta_fields parsed);
               filteredData := 2%nat; searchQuery := EmptyString;
               sortConfig := Some {| key := column; direction := asc |};
               currentPage := 1; loading := false; error := None |})
    as Hcurrent.
  { subst scr. rewrite clickHeader_current. cbn [paint current].
    by rewrite Hloaded. }
  assert (visibleRows (shown scr)
          = map (fun row =>
                   map (renderCell row) (default [] (meta_fields parsed)))
                (slice (parsed_data parsed) 0 50)) as Hshown.
  { subst scr. rewrite clickHeader_stale by (by rewrite Hloaded).
    by rewrite Hloaded. }
  split_and!.
  - subst scr. by rewrite clickHeader_current.
  - by rewrite Hcurrent.
  - by rewrite Hcurrent.
  - by rewrite Hcurrent.
  - exact Hshown.
  - by rewrite Hcurrent.
  - intros Hsort -> ->. rewrite Hshown, Hcurrent.
    assert (sorted
            = [ [("name", VStr "Amy"); ("age", VNum 25)];
                [("name", VStr "Bob"); ("age", VNum 30)] ]) as ->.
    { subst sorted. rewrite (sort_unique _ Hsort).
      - reflexivity.
      - apply consistentb_spec. reflexivity. }
    split_and!; reflexivity.
Qed.

End OnScreenFacts.

Lemma table_on_screen_lags_behind_sort_witness :
  let scr :=
    clickHeader StringToNumber_dec v8_sort "age"
      (paint (v8_viewer people_csv)) in
  filteredRows (current scr)
  = [ [("name", VStr "Amy"); ("age", VNum 25)];
      [("name", VStr "Bob"); ("age", VNum 30)] ]
  /\ map (map text) (visibleRows (shown scr))
     = [ ["Bob"; "30"]; ["Amy"; "25"] ]
  /\ map (map text) (visibleRows (render (current scr)))
     = [ ["Amy"; "25"]; ["Bob"; "30"] ].
Proof.
  intros scr.
  destruct (table_on_screen_lags_behind_sort StringToNumber_dec v8_sort
              people_csv "age" eq_refl)
    as (_ & _ & _ & _ & _ & _ & Hpeople).
  exact (Hpeople v8_sort_EcmaSort eq_refl eq_refl).
Defined.

(** ** Export *)

Lemma parsedRow_fold (fvs : list (string * value)) (row : Row) :
  NoDup (map fst row ++ map fst fvs) ->
  Forall (fun fv => arrayIndex (fst fv) = None) fvs ->
  fold_left (fun row fv => setProperty row (fst fv) (snd fv)) fvs row
  = row ++ fvs.
Proof.
  revert row. induction fvs as [|[f v] fvs IH]; intros row Hnd Hidx.
  { by rewrite app_nil_r. }
  cbn [fold_left fst snd]. inversion Hidx as [|? ? Hf Hrest]; subst.
  cbn [fst] in Hf.
  assert (setProperty row f v = row ++ [(f, v)]) as ->.
  { unfold setProperty. rewrite Hf.
    destruct (existsb (String.eqb f) (Object_keys row)) eqn:Hex; [|done].
    apply existsb_exists in Hex as (k & Hk & Heq).
    apply String.eqb_eq in Heq as <-.
    apply NoDup_app in Hnd as (_ & Hdisj & _).
    destruct (Hdisj f); [by apply list_elem_of_In | left]. }
  rewrite IH.
  - by rewrite <- app_assoc.
  - rewrite map_app. cbn [map fst]. by rewrite <- app_assoc.
  - done.
Qed.

(** When the header has no numeric name and no name twice, the keys of a
    parsed row are the fields, in the order of the header. *)
Lemma parsedRow_keys_in_header_order fields values :
  NoDup fields ->
  Forall (fun f => arrayIndex f = None) fields ->
  length values = length fields ->
  Object_keys (parsedRow fields values) = fields.
Proof.
  intros Hnd Hidx Hlen. unfold parsedRow.
  rewrite parsedRow_fold.
  - cbn [app]. unfold Object_keys. apply fst_zip. lia.
  - cbn [map app]. rewrite fst_zip by lia. done.
  - apply Forall_forall. intros [f v] Hin. cbn [fst].
    rewrite Forall_forall in Hidx. apply Hidx.
    apply elem_of_zip_l in Hin. done.
Qed.

Section ExportFacts.

Variable StringToNumber : string -> option Z.
Variable Array_sort : (Row -> Row -> Z) -> list Row -> list Row.
Variable safe : value -> string.

Local Abbreviation Mount := (mount StringToNumber Array_sort).
Local Abbreviation Load := (load StringToNumber Array_sort).
Local Abbreviation SetSearchQuery :=
  (setSearchQuery StringToNumber Array_sort).

(** C8.  The export holds the filtered rows, but not in the order of the
    header.  For the file [b,1,a / x,y,z / p,q,r] and the query [y] the
    table shows the columns b, 1, a and the one row x, y, z.  The keys of
    the row object are 1, b, a (an array index comes first);
    [Papa.unparse] is given the rows without the columns and takes its
    fields from the keys of the first row, so the exported text is
    [1,b,a / y,x,z].  With the columns as fields it would be
    [b,1,a / x,y,z].  The name of the download is [filtered_] followed by
    the name of the file. *)
Theorem export_follows_key_order (file : File) :
  (forall s, s ∈ ["b"; "1"; "a"; "x"; "y"; "z"] -> safe (VStr s) = s) ->
  let st := SetSearchQuery "y" (Load (Parsed keys_csv) Mount) in
  render st = Table (renderTable st)
  /\ header (renderTable st) = ["b"; "1"; "a"]
  /\ map (map text) (body (renderTable st)) = [["x"; "y"; "z"]]
  /\ length (dataRows st) = 2%nat
  /\ filteredRows st = [[("1", VStr "y"); ("b", VStr "x"); ("a", VStr "z")]]
  /\ exportData (Papa.unparse safe) file st
     = {| blob_text := "1,b,a" +:+ Papa.newline +:+ "y,x,z";
          blob_type := "text/csv;charset=utf-8;";
          download := "filtered_" +:+ name file |}
  /\ Papa.serialize safe (columns st) (filteredRows st)
     = "b,1,a" +:+ Papa.newline +:+ "x,y,z"
  /\ blob_text (exportData (Papa.unparse safe) file st)
     <> Papa.serialize safe (columns st) (filteredRows st).
Proof.
  intros Hsafe st.
  assert (st
          = {| store :=
                 [ []; [];
                   [ [("1", VStr "y"); ("b", VStr "x"); ("a", VStr "z")];
                     [("1", VStr "q"); ("b", VStr "p"); ("a", VStr "r")] ];
                   [ [("1", VStr "y"); ("b", VStr "x"); ("a", VStr "z")] ] ];
               data := 2%nat; columns := ["b"; "1"; "a"];
               filteredData := 3%nat; searchQuery := "y";
               sortConfig := None; currentPage := 1; loading := false;
               error := None |}) as ->.
  { subst st. rewrite load_Parsed_ok by (done || (cbn; lia)).
    by rewrite mount_eq. }
  assert (exportData (Papa.unparse safe) file
            {| store :=
                 [ []; [];
                   [ [("1", VStr "y"); ("b", VStr "x"); ("a", VStr "z")];
                     [("1", VStr "q"); ("b", VStr "p"); ("a", VStr "r")] ];
                   [ [("1", VStr "y"); ("b", VStr "x"); ("a", VStr "z")] ] ];
               data := 2%nat; columns := ["b"; "1"; "a"];
               filteredData := 3%nat; searchQuery := "y";
               sortConfig := None; currentPage := 1; loading := false;
               error := None |}
          = {| blob_text := "1,b,a" +:+ Papa.newline +:+ "y,x,z";
               blob_type := "text/csv;charset=utf-8;";
               download := "filtered_" +:+ name file |}) as Hexport.
  { unfold exportData. f_equal.
    unfold filteredRows, read; cbn [store filteredData lookup list_lookup
      default from_option id].
    unfold Papa.unparse, Papa.serialize, Object_keys.
    cbn [map fst length Nat.ltb Nat.leb app get String.eqb Ascii.eqb
         Bool.eqb].
    rewrite !Hsafe by (repeat ((by left) || right)).
    reflexivity. }
  assert (Papa.serialize safe ["b"; "1"; "a"]
            [[("1", VStr "y"); ("b", VStr "x"); ("a", VStr "z")]]
          = "b,1,a" +:+ Papa.newline +:+ "x,y,z") as Hexpected.
  { unfold Papa.serialize.
    cbn [map length Nat.ltb Nat.leb app get String.eqb Ascii.eqb Bool.eqb].
    rewrite !Hsafe by (repeat ((by left) || right)).
    reflexivity. }
  split_and!; try reflexivity.
  - exact Hexport.
  - exact Hexpected.
  - rewrite Hexport. cbn [blob_text columns filteredRows read store
      filteredData lookup list_lookup default from_option id].
    rewrite Hexpected. discriminate.
Qed.

End ExportFacts.

Lemma export_follows_key_order_witness :
  let st :=
    setSearchQuery StringToNumber_dec v8_sort "y" (v8_viewer keys_csv) in
  blob_text (exportData (Papa.unparse ToString) {| name := "keys.csv" |} st)
  = "1,b,a" +:+ Papa.newline +:+ "y,x,z"
  /\ columns st = ["b"; "1"; "a"].
Proof.
  intros st.
  destruct (export_follows_key_order StringToNumber_dec v8_sort ToString
              {| name := "keys.csv" |})
    as (_ & _ & _ & _ & _ & Hexport & _).
  - intros s _. reflexivity.
  - fold (v8_viewer keys_csv) in Hexport. fold st in Hexport.
    rewrite Hexport. split; reflexivity.
Defined.

(** ** Searching with a longer query *)

Lemma String_app_cons c (s t : string) :
  String c s +:+ t = String c (s +:+ t).
Proof. reflexivity. Qed.

Lemma String_app_assoc (s t u : string) : (s +:+ t) +:+ u = s +:+ t +:+ u.
Proof.
  induction s as [|c s IH]; [done|]. by rewrite !String_app_cons, IH.
Qed.

Lemma occurs_in_trans q q' s :
  JsString.occurs_in q q' -> JsString.occurs_in q' s -> JsString.occurs_in q s.
Proof.
  intros (pre & post & ->) (pre' & post' & ->).
  exists (pre' +:+ pre), (post +:+ post').
  by rewrite !String_app_assoc.
Qed.

Lemma toLowerCase_empty q :
  JsString.toLowerCase q = EmptyString -> q = EmptyString.
Proof. by destruct q. Qed.

Lemma rowMatches_narrower q q' row :
  JsString.occurs_in (JsString.toLowerCase q) (JsString.toLowerCase q') ->
  rowMatches q' row = true -> rowMatches q row = true.
Proof.
  intros Hq. rewrite !rowMatches_spec. intros (v & Hv & Hc).
  exists v. split; [done|]. unfold JsString.contains_ci in *.
  by eapply occurs_in_trans.
Qed.

Lemma List_filter_filter_implied {A} (f g : A -> bool) (l : list A) :
  (forall x, g x = true -> f x = true) ->
  List.filter g (List.filter f l) = List.filter g l.
Proof.
  intros Himp. induction l as [|x l IH]; simpl; [done|].
  destruct (f x) eqn:Hf; simpl; [by rewrite IH|].
  destruct (g x) eqn:Hg; [|done]. apply Himp in Hg. congruence.
Qed.

(** X1.  A query whose lower-cased form contains the lower-cased form of
    the previous query (the query [ANN] after the query [an]) never brings
    a row back: its rows are the rows it retains among those the previous
    query retained.  The statement is about the two lower-cased forms that
    line 56 compares, whatever the conversion does to a string. *)
Theorem longer_query_searches_within_results (q q' : string)
    (rows : list Row) :
  JsString.occurs_in (JsString.toLowerCase q) (JsString.toLowerCase q') ->
  filterRows q' rows = filterRows q' (filterRows q rows)
  /\ filterRows q' rows `sublist_of` filterRows q rows.
Proof.
  intros Hq.
  assert (filterRows q' rows = filterRows q' (filterRows q rows)) as Heq.
  { unfold filterRows.
    destruct (JsString.truthy q') eqn:Hq'; [|].
    - destruct (JsString.truthy q); [|done].
      symmetry. apply List_filter_filter_implied.
      intros row. by apply rowMatches_narrower.
    - apply truthy_string_false in Hq' as ->.
      destruct Hq as ([|??] & post & Hq); [|discriminate Hq].
      destruct (JsString.toLowerCase q) eqn:Hl; [|discriminate Hq].
      by apply toLowerCase_empty in Hl as ->. }
  split; [done|]. rewrite Heq at 1.
  unfold filterRows at 1. destruct (JsString.truthy q'); [|done].
  apply List_filter_sublist.
Qed.

Lemma longer_query_searches_within_results_witness :
  filterRows "ANN" (parsed_data people_csv ++ [[("name", VStr "Anna")]])
  `sublist_of`
  filterRows "an" (parsed_data people_csv ++ [[("name", VStr "Anna")]]).
Proof.
  apply (longer_query_searches_within_results "an" "ANN").
  exists EmptyString, "n". reflexivity.
Defined.

(** X2.  An empty cell is held as [null] and searched as the text [null]:
    a row with an empty cell is retained by every query that occurs in
    [null], whatever its letter case; a boolean cell is searched as [true]
    or [false]. *)
Theorem empty_cell_matches_null (q : string) (row : Row) :
  (VNull ∈ Object_values row ->
   JsString.occurs_in (JsString.toLowerCase q) "null" ->
   rowMatches q row = true)
  /\ (forall b, VBool b ∈ Object_values row ->
      JsString.occurs_in (JsString.toLowerCase q)
        (if b then "true" else "false") ->
      rowMatches q row = true).
Proof.
  split.
  - intros Hv Hq. apply rowMatches_spec. exists VNull. split; [done|].
    exact Hq.
  - intros b Hv Hq. apply rowMatches_spec. exists (VBool b). split; [done|].
    unfold JsString.contains_ci. by destruct b.
Qed.

Lemma empty_cell_matches_null_witness :
  rowMatches "NU" [("id", VNum 3); ("name", VNull)] = true.
Proof.
  apply (empty_cell_matches_null "NU" [("id", VNum 3); ("name", VNull)]).
  - apply list_elem_of_In. right. left. reflexivity.
  - exists EmptyString, "ll". reflexivity.
Defined.

(** ** Cells and headers *)

(** X3.  The tooltip of a cell is [String(row[column])], without the
    fallback of the text: the two agree except on a missing key, [null],
    [false] and 0, where the cell is blank and its tooltip reads
    [undefined], [null], [false] or [0]. *)
Theorem cell_title_differs_on_falsy (row : Row) (column : string) :
  title (renderCell row column) = ToString (get row column)
  /\ (text (renderCell row column) <> title (renderCell row column) <->
      get row column = VUndefined \/ get row column = VNull
      \/ get row column = VBool false \/ get row column = VNum 0)
  /\ (truthy (get row column) = false ->
      text (renderCell row column) = EmptyString).
Proof.
  unfold renderCell, js_or; cbn [title text].
  split_and!; [done | |].
  - destruct (get row column) as [| |[]|n|[|c s]] eqn:E; simpl;
      try (split; [done | intros [?|[?|[?|?]]]; done]);
      try (split; [auto | discriminate]).
    destruct (Z.eqb_spec n 0) as [->|Hn]; simpl.
    + split; [auto | discriminate].
    + split; [done | intros [?|[?|[?|?]]]; congruence].
  - by intros ->.
Qed.

Lemma cell_title_differs_on_falsy_witness :
  text (renderCell [("id", VNum 3); ("name", VNull)] "name") = EmptyString
  /\ title (renderCell [("id", VNum 3); ("name", VNull)] "name") = "null".
Proof.
  destruct (cell_title_differs_on_falsy [("id", VNum 3); ("name", VNull)]
              "name") as (Htitle & _ & Htext).
  split; [apply Htext; reflexivity | rewrite Htitle; reflexivity].
Defined.

Section HeaderFacts.

Variable StringToNumber : string -> option Z.
Variable Array_sort : (Row -> Row -> Z) -> list Row -> list Row.

Local Abbreviation HandleSort := (handleSort StringToNumber Array_sort).

(** X4.  After a click on the header of a column, that column shows the
    down arrow if it showed the up arrow before and the up arrow otherwise,
    and every column with another name shows the neutral icon: at most one
    column name carries a direction. *)
Theorem sort_icon_after_click (st : State) (column other : string) :
  getSortIcon (HandleSort column st) column
  = match getSortIcon st column with
    | ArrowUp => ArrowDown
    | _ => ArrowUp
    end
  /\ (other <> column ->
      getSortIcon (HandleSort column st) other = ArrowUpDown).
Proof.
  unfold getSortIcon, handleSort.
  set (st' := mkState _ _ _ _ _ _ _ _ _).
  destruct (recompute_frame StringToNumber Array_sort st')
    as (_ & _ & _ & -> & _).
  cbn [sortConfig st' nextSortConfig key direction].
  rewrite String.eqb_refl. split.
  - destruct (sortConfig st) as [[k d]|]; cbn [key direction]; [|done].
    destruct (String.eqb k column), d; done.
  - intros Hne. by destruct (String.eqb_spec column other).
Qed.

End HeaderFacts.

Lemma sort_icon_after_click_witness :
  getSortIcon (v8_handleSort "age" (v8_viewer people_csv)) "name"
  = ArrowUpDown.
Proof.
  apply (sort_icon_after_click StringToNumber_dec v8_sort
           (v8_viewer people_csv) "age" "name").
  discriminate.
Defined.

(** ** Loading, again *)

Section LoadAgain.

Variable StringToNumber : string -> option Z.
Variable Array_sort : (Row -> Row -> Z) -> list Row -> list Row.

Local Abbreviation Recompute := (recompute StringToNumber Array_sort).
Local Abbreviation Load := (load StringToNumber Array_sort).
Local Abbreviation Handle := (handle StringToNumber Array_sort).
Local Abbreviation Run := (run StringToNumber Array_sort).
Local Abbreviation Reachable := (reachable StringToNumber Array_sort).

(** What an event does to [loading] and [error]: [loading] is only ever
    set to [false], and [error] only ever to one of the two messages. *)
Lemma handle_loading_error e st :
  (loading (Handle e st) = loading st \/ loading (Handle e st) = false)
  /\ (error (Handle e st) = error st
      \/ error (Handle e st) = Some "Failed to load CSV file"
      \/ error (Handle e st) = Some "Error parsing CSV file").
Proof.
  assert (forall st', loading (Recompute st') = loading st'
                      /\ error (Recompute st') = error st') as Hrec.
  { intros st'. by destruct (recompute_frame StringToNumber Array_sort st')
      as (_ & _ & _ & _ & -> & -> & _). }
  destruct e as [o|q|column| |n|]; cbn [handle].
  - unfold load, onload. destruct o as [| |parsed].
    + rewrite Nat.eqb_refl. auto.
    + cbn [data]. rewrite Nat.eqb_refl. cbn. auto.
    + destruct (0 <? length (parsed_errors parsed))%nat.
      * cbn [data]. rewrite Nat.eqb_refl. cbn. auto.
      * cbn [alloc data].
        destruct (length (store st) =? data st)%nat;
          [|destruct (Hrec (mkState (store st ++ [parsed_data parsed])
               (length (store st)) (default [] (meta_fields parsed))
               (length (store st)) (searchQuery st) (sortConfig st)
               (currentPage st) false (error st))) as [-> ->]];
          cbn; auto.
  - unfold setSearchQuery. destruct (String.eqb q (searchQuery st)); [auto|].
    set (st' := mkState _ _ _ _ _ _ _ _ _).
    destruct (Hrec st') as [-> ->]. auto.
  - unfold handleSort. set (st' := mkState _ _ _ _ _ _ _ _ _).
    destruct (Hrec st') as [-> ->]. auto.
  - auto.
  - auto.
  - auto.
Qed.

(** X5.  Nothing clears the error or sets [loading] again: once the error
    panel is rendered, it is rendered after every later run of events, a
    successful load of another file included. *)
Theorem error_panel_is_final (events : list Event) (st : State)
    (message hint : string) :
  render st = ErrorPanel message hint ->
  exists message', render (Run events st) = ErrorPanel message' hint.
Proof.
  revert st message. induction events as [|e events IH]; intros st message Hr.
  { by exists message. }
  cbn [run fold_left].
  assert (exists message', render (Handle e st) = ErrorPanel message' hint)
    as [message' Hr']; [|by apply (IH _ message')].
  unfold render in *.
  destruct (handle_loading_error e st) as [Hl He].
  destruct (loading st) eqn:El; [done|].
  assert (loading (Handle e st) = false) as -> by (by destruct Hl).
  destruct (error st) as [m|] eqn:Ee; [|done].
  destruct (JsString.truthy m) eqn:Em; [|done].
  injection Hr as <- <-.
  destruct He as [-> | [-> | ->]]; rewrite ?Em; by eexists.
Qed.

(** X6.  On a viewer that has finished a load before ([loading] is
    false), a parse that reports errors does render the error panel; the
    rows and the columns of the file loaded before stay in the state. *)
Theorem later_parse_error_is_shown (st : State) (parsed : ParseResult) :
  loading st = false ->
  parsed_errors parsed <> [] ->
  render (Load (Parsed parsed) st)
  = ErrorPanel "Error parsing CSV file"
      "Please check your CSV file format and try again."
  /\ dataRows (Load (Parsed parsed) st) = dataRows st
  /\ filteredRows (Load (Parsed parsed) st) = filteredRows st
  /\ columns (Load (Parsed parsed) st) = columns st.
Proof.
  intros Hl He. unfold load, onload.
  destruct (parsed_errors parsed) as [|e es]; [done|].
  cbn [length Nat.ltb Nat.leb data]. rewrite Nat.eqb_refl.
  unfold render; cbn [loading error]. by rewrite Hl.
Qed.


End LoadAgain.

Lemma error_panel_is_final_witness :
  exists message,
    render
      (run StringToNumber_dec v8_sort
         [EvLoad (Parsed people_csv); EvSort "age"]
         (load StringToNumber_dec v8_sort Throws
            (mount StringToNumber_dec v8_sort)))
    = ErrorPanel message "Please check your CSV file format and try again.".
Proof.
  apply (error_panel_is_final StringToNumber_dec v8_sort
           [EvLoad (Parsed people_csv); EvSort "age"] _
           "Failed to load CSV file").
  reflexivity.
Defined.

Lemma later_parse_error_is_shown_witness :
  dataRows
    (load StringToNumber_dec v8_sort
       (Parsed {| parsed_data := []; 
                  parsed_errors :=
                    [ {| err_type := "Quotes"; err_code := "MissingQuotes";
                         err_message := "Quoted field unterminated" |} ];
                  meta_fields := None |})
       (v8_viewer people_csv))
  = dataRows (v8_viewer people_csv).
Proof.
  apply (later_parse_error_is_shown StringToNumber_dec v8_sort
           (v8_viewer people_csv)); [reflexivity | discriminate].
Defined.


(** ** The first load, and what a load keeps *)

Section FirstLoad.

Variable StringToNumber : string -> option Z.
Variable Array_sort : (Row -> Row -> Z) -> list Row -> list Row.

(** X8.  The first successful load shows the file as it is: the table is
    rendered, [data] and [filteredData] hold the parsed rows in file order,
    the header is the list of fields, the body is the first 50 rows with
    one cell per field, and the counter reads all rows of all rows. *)
Theorem first_load_shows_the_file (parsed : ParseResult) :
  parsed_errors parsed = [] ->
  let st :=
    load StringToNumber Array_sort (Parsed parsed)
      (mount StringToNumber Array_sort) in
  render st = Table (renderTable st)
  /\ dataRows st = parsed_data parsed
  /\ filteredRows st = parsed_data parsed
  /\ header (renderTable st) = default [] (meta_fields parsed)
  /\ body (renderTable st)
     = map (fun row => map (renderCell row) (default [] (meta_fields parsed)))
           (take 50 (parsed_data parsed))
  /\ shown_of_total (renderTable st)
     = (length (parsed_data parsed), length (parsed_data parsed)).
Proof.
  intros He st. subst st.
  rewrite load_Parsed_ok by (done || (cbn; lia)).
  rewrite mount_eq. cbn [store data searchQuery sortConfig currentPage error
                         length app].
  unfold recompute, applySearchFilter, applySorting;
    cbn [searchQuery sortConfig JsString.truthy data store].
  unfold render, renderTable, currentData, filteredRows, dataRows, read;
    cbn [loading error store data filteredData columns currentPage
         header body shown_of_total lookup list_lookup from_option id].
  split_and!; try reflexivity.
  f_equal. unfold startIndex, endIndex; cbn [currentPage].
  rewrite slice_window by done. reflexivity.
Qed.

(** X9.  No event clears the sort configuration or changes it other than
    a click on a header, and only a new query changes the query: once a
    column is sorted, every later state is sorted by some column. *)
Theorem sort_is_never_cleared (events : list Event) (st : State) :
  is_Some (sortConfig st) ->
  is_Some (sortConfig (run StringToNumber Array_sort events st)).
Proof.
  revert st. induction events as [|e events IH]; intros st Hs; [done|].
  cbn [run fold_left]. apply IH.
  assert (forall st', sortConfig (recompute StringToNumber Array_sort st')
                      = sortConfig st') as Hrec.
  { intros st'. by destruct (recompute_frame StringToNumber Array_sort st')
      as (_ & _ & _ & -> & _). }
  destruct e as [o|q|column| |n|]; cbn [handle]; try done.
  - unfold load. destruct (_ =? _)%nat; rewrite ?Hrec;
      unfold onload; destruct o as [| |parsed]; try done;
      by destruct (0 <? length (parsed_errors parsed))%nat.
  - unfold setSearchQuery. destruct (String.eqb q (searchQuery st)); [done|].
    by rewrite Hrec.
  - unfold handleSort. rewrite Hrec. by eexists.
Qed.

End FirstLoad.

Lemma first_load_shows_the_file_witness :
  filteredRows (v8_viewer people_csv) = parsed_data people_csv.
Proof.
  apply (first_load_shows_the_file StringToNumber_dec v8_sort people_csv).
  reflexivity.
Defined.

Lemma sort_is_never_cleared_witness :
  is_Some
    (sortConfig
       (run StringToNumber_dec v8_sort
          [EvLoad (Parsed ties_csv); EvSearch "1"; EvNext]
          (v8_handleSort "age" (v8_viewer people_csv)))).
Proof.
  apply (sort_is_never_cleared StringToNumber_dec v8_sort).
  by eexists.
Defined.

(** ** A sort configuration that outlives its file *)

Section AllTies.

Context {A : Type} (sort : (A -> A -> Z) -> list A -> list A).
Hypothesis Hsort : EcmaSort sort.

(** When the comparator returns 0 on every pair, the sort leaves the array
    as it is. *)
Lemma sort_all_ties (c : A -> A -> Z) (l : list A) :
  (forall a b, a ∈ l -> b ∈ l -> c a b = 0) -> sort c l = l.
Proof.
  intros Hz.
  assert (consistent c l) as Hc.
  { split; intros; rewrite ?Hz in *; auto; lia. }
  destruct (Hsort c l) as [Hp [Hs He]]; [done|].
  apply (sorted_stable_unique c l Hc).
  - intros x. by rewrite Hp.
  - done.
  - done.
  - clear Hp Hs He Hc.
    induction l as [|x l' IH]; [constructor|].
    constructor.
    + apply IH. intros a b Ha Hb. apply Hz; by right.
    + apply Forall_forall. intros y Hy. unfold may_precede.
      rewrite Hz; [lia | by right | left].
  - done.
Qed.

End AllTies.

Section StaleSort.

Variable StringToNumber : string -> option Z.
Variable Array_sort : (Row -> Row -> Z) -> list Row -> list Row.
Hypothesis Hsort : EcmaSort Array_sort.

Local Abbreviation Load := (load StringToNumber Array_sort).

(** X10.  The sort configuration outlives the file it was set on.  After
    a successful load of a file that does not have the sorted column, the
    configuration is still there, no header shows an arrow, and the rows
    are shown in the order of the file: every comparison of two missing
    values returns 0. *)
Theorem stale_sort_shows_no_arrow (st : State) (parsed : ParseResult)
    (cfg : SortConfig) :
  (data st < length (store st))%nat ->
  parsed_errors parsed = [] ->
  sortConfig st = Some cfg ->
  key cfg ∉ default [] (meta_fields parsed) ->
  Forall (fun row => get row (key cfg) = VUndefined) (parsed_data parsed) ->
  let loaded := Load (Parsed parsed) st in
  sortConfig loaded = Some cfg
  /\ Forall (fun h => h.2 = ArrowUpDown) (renderHeader loaded)
  /\ filteredRows loaded = filterRows (searchQuery st) (parsed_data parsed).
Proof.
  intros Hd He Hcfg Hkey Hrows loaded. subst loaded.
  rewrite load_Parsed_ok by done.
  set (st' := mkState _ _ _ _ _ _ _ _ _).
  destruct (recompute_frame StringToNumber Array_sort st')
    as (_ & Hcols & _ & Hs & _).
  split_and!.
  - by rewrite Hs.
  - unfold renderHeader, getSortIcon. rewrite Hs, Hcols.
    cbn [sortConfig columns st']. rewrite Hcfg.
    apply Forall_forall. intros h Hh%list_elem_of_In.
    apply in_map_iff in Hh as (column & <- & Hin). cbn [snd].
    destruct (String.eqb_spec (key cfg) column) as [Heq|]; [|done].
    destruct Hkey. rewrite Heq. by apply list_elem_of_In.
  - rewrite recompute_filteredRows
      by (cbn [store data st']; rewrite length_app; simpl; lia).
    assert (dataRows st' = parsed_data parsed) as ->.
    { unfold dataRows, read; cbn [store data st'].
      by rewrite list_lookup_middle. }
    cbn [searchQuery sortConfig st']. rewrite Hcfg. unfold derivedRows.
    apply (sort_all_ties _ Hsort).
    assert (filterRows (searchQuery st) (parsed_data parsed)
            ⊆ parsed_data parsed) as Hsub.
    { apply sublist_subseteq. unfold filterRows.
      destruct (JsString.truthy _); [apply List_filter_sublist | done]. }
    rewrite Forall_forall in Hrows.
    intros a b Ha%Hsub Hb%Hsub. apply compareRows_zero.
    unfold js_gt. by rewrite (Hrows a Ha), (Hrows b Hb).
Qed.

End StaleSort.

Lemma stale_sort_shows_no_arrow_witness :
  filteredRows
    (load StringToNumber_dec v8_sort (Parsed ties_csv)
       (v8_handleSort "age" (v8_viewer people_csv)))
  = parsed_data ties_csv.
Proof.
  apply (stale_sort_shows_no_arrow StringToNumber_dec v8_sort
           v8_sort_EcmaSort
           (v8_handleSort "age" (v8_viewer people_csv)) ties_csv
           {| key := "age"; direction := asc |}).
  - vm_compute. lia.
  - reflexivity.
  - reflexivity.
  - cbn. intros H.
    repeat (apply elem_of_cons in H as [H|H]; [discriminate H|]).
    by apply elem_of_nil in H.
  - repeat constructor.
Defined.

(** ** An error that outlives its file *)

Section StaleError.

Variable StringToNumber : string -> option Z.
Variable Array_sort : (Row -> Row -> Z) -> list Row -> list Row.

Local Abbreviation Load := (load StringToNumber Array_sort).

(** X30.  The error of a parse outlives its file.  When a parse has
    reported errors and the next file loads well, the rows and the columns
    of that file are stored and [loading] is cleared, but the error is
    still set: the viewer renders the error panel of the earlier file, not
    the table. *)
Theorem parse_error_outlives_next_file (st : State)
    (bad good : ParseResult) :
  (data st < length (store st))%nat ->
  parsed_errors bad <> [] ->
  parsed_errors good = [] ->
  let after := Load (Parsed good) (Load (Parsed bad) st) in
  render after
  = ErrorPanel "Error parsing CSV file"
      "Please check your CSV file format and try again."
  /\ loading after = false
  /\ columns after = default [] (meta_fields good)
  /\ filteredRows after
     = derivedRows StringToNumber Array_sort (parsed_data good)
         (searchQuery st) (sortConfig st).
Proof.
  intros Hd Hbad Hgood after. subst after.
  assert (Load (Parsed bad) st
          = {| store := store st; data := data st; columns := columns st;
               filteredData := filteredData st;
               searchQuery := searchQuery st; sortConfig := sortConfig st;
               currentPage := currentPage st; loading := loading st;
               error := Some "Error parsing CSV file" |}) as ->.
  { unfold load, onload. destruct (parsed_errors bad) as [|e es]; [done|].
    cbn [length Nat.ltb Nat.leb data]. by rewrite Nat.eqb_refl. }
  rewrite load_Parsed_ok by done.
  cbn [store data searchQuery sortConfig currentPage error].
  set (st' := mkState _ _ _ _ _ _ _ _ _).
  assert (data st' < length (store st'))%nat as Hd'.
  { cbn [store data st']. rewrite length_app. simpl. lia. }
  destruct (recompute_frame StringToNumber Array_sort st')
    as (_ & Hcols & _ & _ & Hl & He & _).
  split_and!.
  - unfold render. by rewrite Hl, He.
  - by rewrite Hl.
  - by rewrite Hcols.
  - rewrite recompute_filteredRows by done. f_equal.
    unfold dataRows, read; cbn [store data st'].
    by rewrite list_lookup_middle.
Qed.

End StaleError.

Lemma parse_error_outlives_next_file_witness :
  render
    (load StringToNumber_dec v8_sort (Parsed people_csv)
       (load StringToNumber_dec v8_sort
          (Parsed {| parsed_data := [[("name", VStr "Bob")]];
                     parsed_errors :=
                       [ {| err_type := "FieldMismatch";
                            err_code := "TooFewFields";
                            err_message := "Too few fields" |} ];
                     meta_fields := Some ["name"; "age"] |})
          (mount StringToNumber_dec v8_sort)))
  = ErrorPanel "Error parsing CSV file"
      "Please check your CSV file format and try again.".
Proof.
  apply (parse_error_outlives_next_file StringToNumber_dec v8_sort
           (mount StringToNumber_dec v8_sort));
    [vm_compute; lia | discriminate | reflexivity].
Defined.

(** ** What every reachable state satisfies *)

Section Invariants.

Variable StringToNumber : string -> option Z.
Variable Array_sort : (Row -> Row -> Z) -> list Row -> list Row.
Hypothesis Hsort : EcmaSort Array_sort.

Local Abbreviation Recompute := (recompute StringToNumber Array_sort).
Local Abbreviation Reachable := (reachable StringToNumber Array_sort).

Lemma derivedRows_perm rows q cfg :
  derivedRows StringToNumber Array_sort rows q cfg ≡ₚ filterRows q rows.
Proof. destruct cfg; simpl; [apply (sort_perm _ Hsort) | done]. Qed.

Lemma recompute_shows_matching_rows st :
  (data st < length (store st))%nat ->
  filteredRows (Recompute st)
  ≡ₚ filterRows (searchQuery (Recompute st)) (dataRows (Recompute st)).
Proof.
  intros Hd.
  destruct (recompute_frame StringToNumber Array_sort st)
    as (_ & _ & -> & _).
  rewrite recompute_filteredRows, recompute_dataRows by done.
  destruct (JsString.truthy (searchQuery st)) eqn:Hq.
  - apply derivedRows_perm.
  - assert (forall rows, filterRows (searchQuery st) rows = rows) as ->;
      [|done].
    intros rows. unfold filterRows. by rewrite Hq.
Qed.

(** X11.  In every reachable state the rows of [filteredData] are a
    rearrangement of the rows of [data] that the current query retains: no
    row is shown that the dataset does not hold or the query rejects, none
    is shown twice or lost, and the counter "shown of total" never shows
    more rows than the dataset has. *)
Theorem shown_rows_are_matching_rows (st : State) :
  Reachable st ->
  filteredRows st ≡ₚ filterRows (searchQuery st) (dataRows st)
  /\ (length (filteredRows st) <= length (dataRows st))%nat
  /\ (searchQuery st = EmptyString ->
      length (filteredRows st) = length (dataRows st)).
Proof.
  intros Hr.
  assert (filteredRows st ≡ₚ filterRows (searchQuery st) (dataRows st))
    as Hinv.
  { induction Hr as [|e st Hr IH Hoff]; [done|].
    pose proof (reachable_wf _ _ st Hr) as [Hd _].
    destruct e as [o|q|column| |n|]; cbn [handle].
    - destruct (load_cases StringToNumber Array_sort o st Hd)
        as [(l & e & ->) | (st' & Hd' & ->)];
        [exact IH | by apply recompute_shows_matching_rows].
    - destruct (setSearchQuery_cases StringToNumber Array_sort q st)
        as [-> | (st' & Hd' & Hs' & ->)]; [exact IH|].
      apply recompute_shows_matching_rows. by rewrite Hd', Hs'.
    - by apply recompute_shows_matching_rows.
    - exact IH.
    - exact IH.
    - exact IH. }
  split_and!; [done | |].
  - rewrite Hinv. apply sublist_length. unfold filterRows.
    destruct (JsString.truthy (searchQuery st));
      [apply List_filter_sublist | done].
  - intros Hq. by rewrite Hinv, Hq.
Qed.

End Invariants.

Lemma shown_rows_are_matching_rows_witness :
  (length (filteredRows
             (setSearchQuery StringToNumber_dec v8_sort "amy"
                (v8_handleSort "age" (v8_viewer people_csv))))
   <= length (dataRows
                (setSearchQuery StringToNumber_dec v8_sort "amy"
                   (v8_handleSort "age" (v8_viewer people_csv)))))%nat.
Proof.
  apply (shown_rows_are_matching_rows StringToNumber_dec v8_sort
           v8_sort_EcmaSort).
  apply (reachable_step _ _ (EvSearch "amy")); [|reflexivity].
  apply (reachable_step _ _ (EvSort "age")); [|reflexivity].
  apply (reachable_step _ _ (EvLoad (Parsed people_csv))); [|reflexivity].
  apply reachable_mount.
Defined.

(** ** Pages *)

Section Pages.

Variable StringToNumber : string -> option Z.
Variable Array_sort : (Row -> Row -> Z) -> list Row -> list Row.
Local Abbreviation Reachable := (reachable StringToNumber Array_sort).

(** X12.  In every reachable state the current page is at least 1 and at
    most the number of pages (1 when there are no rows); when the
    pagination buttons are rendered it lies within [1 .. totalPages]. *)
Theorem current_page_stays_in_range (st : State) :
  Reachable st ->
  1 <= currentPage st <= Z.max 1 (totalPages st)
  /\ (1 < totalPages st -> 1 <= currentPage st <= totalPages st).
Proof.
  intros Hr. pose proof (reachable_currentPage _ _ st Hr). lia.
Qed.

End Pages.

Lemma current_page_stays_in_range_witness :
  1 <= currentPage (v8_handleSort "age" (v8_viewer people_csv))
    <= Z.max 1 (totalPages (v8_handleSort "age" (v8_viewer people_csv))).
Proof.
  refine (proj1 (current_page_stays_in_range StringToNumber_dec v8_sort
                   (v8_handleSort "age" (v8_viewer people_csv)) _)).
  apply (reachable_step _ _ (EvSort "age")); [|reflexivity].
  apply (reachable_step _ _ (EvLoad (Parsed people_csv))); [|reflexivity].
  apply reachable_mount.
Defined.

Lemma pageRows_take_drop rows p :
  1 <= p ->
  pageRows rows p = take 50 (drop (50 * Z.to_nat (p - 1)) rows).
Proof.
  intros Hp. unfold pageRows.
  rewrite slice_window by (unfold itemsPerPage; lia).
  unfold itemsPerPage.
  replace (Z.to_nat ((p - 1) * 50)) with (50 * Z.to_nat (p - 1))%nat by lia.
  reflexivity.
Qed.

Lemma chunks_concat {A} (l : list A) (n : nat) :
  (length l <= 50 * n)%nat ->
  concat (map (fun i => take 50 (drop (50 * i) l)) (seq 0 n)) = l.
Proof.
  revert l. induction n as [|n IH]; intros l Hlen.
  { destruct l; [done | simpl in Hlen; lia]. }
  cbn [seq map concat]. rewrite <- seq_shift, map_map.
  rewrite Nat.mul_0_r, drop_0.
  transitivity (take 50 l ++ drop 50 l); [|apply take_drop].
  f_equal.
  etransitivity; [|apply (IH (drop 50 l)); rewrite length_drop; lia].
  f_equal. apply map_ext. intros i.
  rewrite drop_drop. do 2 f_equal. lia.
Qed.

(** X13.  The pages partition the filtered rows: page 1, page 2, ... page
    [totalPages], one after the other, are the filtered rows; a page other
    than the last has 50 rows, and no page number above [totalPages] has
    any. *)
Theorem pages_partition_filteredRows (st : State) :
  concat (map (pageRows (filteredRows st)) (pageNumbers (totalPages st)))
  = filteredRows st
  /\ (forall p, 1 <= p < totalPages st ->
        length (pageRows (filteredRows st) p) = 50%nat)
  /\ (forall p, totalPages st < p -> pageRows (filteredRows st) p = [])
  /\ currentData st = pageRows (filteredRows st) (currentPage st).
Proof.
  pose proof (totalPages_spec st) as Htp. unfold itemsPerPage in Htp.
  split_and!.
  - unfold pageNumbers. rewrite map_map.
    etransitivity;
      [|apply (chunks_concat (filteredRows st) (Z.to_nat (totalPages st)));
        lia].
    f_equal. apply map_ext_in. intros i Hi%in_seq.
    rewrite pageRows_take_drop by lia. do 3 f_equal. lia.
  - intros p Hp. rewrite pageRows_take_drop by lia.
    rewrite length_take, length_drop. lia.
  - intros p Hp.
    assert (0 <= totalPages st).
    { unfold totalPages, Math_ceil_div, itemsPerPage.
      pose proof (Z.div_pos (Z.of_nat (length (filteredRows st))) 50).
      destruct (_ =? 0); lia. }
    rewrite pageRows_take_drop by lia.
    rewrite drop_ge by lia. done.
  - reflexivity.
Qed.

Lemma pages_partition_filteredRows_witness :
  let st :=
    {| store := [ replicate 120 [("n", VNum 7)] ]; data := 0%nat;
       columns := ["n"]; filteredData := 0%nat;
       searchQuery := EmptyString; sortConfig := None; currentPage := 3;
       loading := false; error := None |} in
  length (pageRows (filteredRows st) 2) = 50%nat
  /\ pageRows (filteredRows st) 4 = [].
Proof.
  intros st.
  destruct (pages_partition_filteredRows st) as (_ & Hfull & Hnone & _).
  split; [apply Hfull | apply Hnone]; vm_compute; split; congruence.
Defined.

Lemma pagination_is_Some st :
  is_Some (pagination (renderTable st)) <-> 1 < totalPages st.
Proof.
  unfold renderTable; cbn [pagination].
  destruct (Z.ltb_spec 1 (totalPages st)) as [Hlt | Hge].
  - split; [done | by eexists].
  - split; [intros [x Hx]; discriminate Hx | lia].
Qed.

Section ShowingLine.

Variable StringToNumber : string -> option Z.
Variable Array_sort : (Row -> Row -> Z) -> list Row -> list Row.
Local Abbreviation Reachable := (reachable StringToNumber Array_sort).

(** X14.  In a reachable state that renders the pagination bar, the line
    "Showing [from] to [to] of [n] results" tells the rows of the table
    body: the body has [to - from + 1] rows, between 1 and 50, [n] is the
    number of filtered rows, and every body row has one cell per column. *)
Theorem showing_line_counts_the_body (st : State) (bar : PaginationBar) :
  Reachable st ->
  pagination (renderTable st) = Some bar ->
  Z.of_nat (length (body (renderTable st)))
  = showing_to bar - showing_from bar + 1
  /\ 1 <= showing_from bar <= showing_to bar
  /\ showing_to bar <= showing_of bar
  /\ showing_of bar = Z.of_nat (length (filteredRows st))
  /\ (1 <= length (body (renderTable st)) <= 50)%nat
  /\ Forall (fun cells => length cells = length (columns st))
            (body (renderTable st)).
Proof.
  intros Hr Hbar.
  assert (1 < totalPages st) as Htp.
  { apply pagination_is_Some. by rewrite Hbar. }
  pose proof (reachable_page_in_range _ _ st Hr Htp) as Hp.
  pose proof (totalPages_spec st) as Hspec. unfold itemsPerPage in Hspec.
  unfold renderTable in *; cbn [pagination body] in *.
  destruct (1 <? totalPages st); [|done]. injection Hbar as <-.
  cbn [showing_from showing_to showing_of].
  rewrite length_map.
  assert (currentData st
          = take 50 (drop (50 * Z.to_nat (currentPage st - 1))
                          (filteredRows st))) as ->.
  { change (currentData st)
      with (pageRows (filteredRows st) (currentPage st)).
    apply pageRows_take_drop. lia. }
  rewrite length_take, length_drop.
  unfold endIndex, startIndex, itemsPerPage.
  split_and!; try lia.
  apply Forall_forall. intros cells Hc.
  apply list_elem_of_In, in_map_iff in Hc as (row & <- & _).
  by rewrite length_map.
Qed.

End ShowingLine.

(** X15.  Next and Previous undo each other away from the ends, and do
    nothing at the ends: on page 1 Previous leaves the state as it is, and
    so does Next on the last page. *)
Theorem previous_and_next_undo_each_other (st : State) :
  (1 <= currentPage st < totalPages st -> clickPrevious (clickNext st) = st)
  /\ (1 < currentPage st <= totalPages st ->
      clickNext (clickPrevious st) = st)
  /\ (currentPage st = 1 -> clickPrevious st = st)
  /\ (currentPage st = totalPages st -> clickNext st = st).
Proof.
  unfold clickPrevious, clickNext.
  change (totalPages (setCurrentPage ?n st)) with (totalPages st).
  destruct st as [σ d cs f q sc p l e]; unfold setCurrentPage;
    cbn [store data columns filteredData searchQuery sortConfig currentPage
         loading error].
  set (tp := totalPages _).
  split_and!; intros Hp; f_equal; lia.
Qed.

(** X16.  The pagination bar is rendered exactly when more than 50 rows are
    filtered.  It has a numbered button for the pages 1 to 5 at most; the
    button of the current page is the active one, so that on a page
    beyond 5, which only Next reaches, no button is active. *)
Theorem numbered_buttons_stop_at_five (st : State) :
  (is_Some (pagination (renderTable st))
   <-> (50 < length (filteredRows st))%nat)
  /\ (forall bar, pagination (renderTable st) = Some bar ->
        map pageNum (numbered bar) = pageNumbers (Z.min 5 (totalPages st))
        /\ (length (numbered bar) <= 5)%nat
        /\ (forall b, b ∈ numbered bar ->
              isActive b = true <-> pageNum b = currentPage st)
        /\ (5 < currentPage st ->
            Forall (fun b => isActive b = false) (numbered bar))).
Proof.
  pose proof (totalPages_spec st) as Hspec. unfold itemsPerPage in Hspec.
  split.
  - rewrite pagination_is_Some. lia.
  - intros bar Hbar. unfold renderTable in Hbar; cbn [pagination] in Hbar.
    destruct (1 <? totalPages st); [|done]. injection Hbar as <-.
    cbn [numbered]. rewrite map_map; cbn [pageNum].
    assert (forall b,
      b ∈ map (fun n => {| pageNum := n; isActive := n =? currentPage st |})
              (pageButtons st) ->
      1 <= pageNum b <= 5 /\ (isActive b = true <-> pageNum b = currentPage st))
      as Hb.
    { intros b Hb%list_elem_of_In. apply in_map_iff in Hb as (n & <- & Hn).
      apply list_elem_of_In, elem_of_pageButtons in Hn. cbn.
      rewrite Z.eqb_eq. lia. }
    split_and!.
    + unfold pageButtons, pageNumbers. by rewrite map_id.
    + rewrite length_map. unfold pageButtons.
      rewrite length_map, length_seq. lia.
    + intros b Hin. by apply Hb.
    + intros Hp. apply Forall_forall. intros b Hin.
      destruct (Hb b Hin) as [Hrange Hact].
      destruct (isActive b); [|done]. lia.
Qed.

Lemma showing_line_counts_the_body_witness :
  let st := clickNext (clickNext (v8_viewer long_csv)) in
  exists bar,
    pagination (renderTable st) = Some bar
    /\ Z.of_nat (length (body (renderTable st)))
       = showing_to bar - showing_from bar + 1
    /\ showing_from bar = 101 /\ showing_to bar = 120.
Proof.
  intros st. eexists. split; [vm_compute; reflexivity|].
  split; [|split; reflexivity].
  apply (showing_line_counts_the_body StringToNumber_dec v8_sort st).
  - apply (reachable_step _ _ EvNext); [|vm_compute; reflexivity].
    apply (reachable_step _ _ EvNext); [|vm_compute; reflexivity].
    apply (reachable_step _ _ (EvLoad (Parsed long_csv)));
      [apply reachable_mount | reflexivity].
  - vm_compute; reflexivity.
Defined.

Lemma previous_and_next_undo_each_other_witness :
  clickPrevious (clickNext (v8_viewer long_csv)) = v8_viewer long_csv.
Proof.
  apply (previous_and_next_undo_each_other (v8_viewer long_csv)).
  vm_compute. split; congruence.
Defined.

Lemma numbered_buttons_stop_at_five_witness :
  is_Some (pagination (renderTable (v8_viewer long_csv))).
Proof.
  apply (numbered_buttons_stop_at_five (v8_viewer long_csv)).
  vm_compute. lia.
Defined.

(** ** Sorting, again *)

Lemma List_filter_perm {A} (f : A -> bool) (l k : list A) :
  l ≡ₚ k -> List.filter f l ≡ₚ List.filter f k.
Proof.
  induction 1 as [|x l k _ IH|x y l|l k m _ IH1 _ IH2]; simpl.
  - done.
  - destruct (f x); by rewrite IH.
  - destruct (f x), (f y); try done. apply Permutation_swap.
  - by rewrite IH1.
Qed.

Lemma List_filter_comm {A} (f g : A -> bool) (l : list A) :
  List.filter f (List.filter g l) = List.filter g (List.filter f l).
Proof.
  induction l as [|x l IH]; simpl; [done|].
  destruct (f x) eqn:Hf, (g x) eqn:Hg; simpl; rewrite ?Hf, ?Hg, IH; done.
Qed.

Lemma StronglySorted_List_filter {A} (R : A -> A -> Prop) (f : A -> bool) l :
  StronglySorted R l -> StronglySorted R (List.filter f l).
Proof.
  induction 1 as [|x l Hs IH Hall]; simpl; [constructor|].
  destruct (f x); [|done]. constructor; [done|].
  apply Forall_forall. intros y Hy%list_elem_of_In.
  apply filter_In in Hy as [Hy%list_elem_of_In _].
  by eapply Forall_forall in Hall.
Qed.



Section SortAgain.

Context {A : Type} (sort : (A -> A -> Z) -> list A -> list A).
Hypothesis Hsort : EcmaSort sort.

(** Filtering a sorted array is sorting the filtered array. *)
Lemma filter_sort_commute (c : A -> A -> Z) (f : A -> bool) l :
  consistent c l ->
  List.filter f (sort c l) = sort c (List.filter f l).
Proof.
  intros Hc.
  assert (List.filter f l ⊆ l) as Hsub.
  { apply sublist_subseteq, List_filter_sublist. }
  assert (consistent c (List.filter f l)) as Hc'
    by (by eapply consistent_subseteq).
  destruct (Hsort c l) as [Hp [Hs He]]; [done|].
  destruct (Hsort c (List.filter f l)) as [Hp' [Hs' He']]; [done|].
  apply (sorted_stable_unique c (List.filter f l) Hc').
  - intros x. by rewrite (List_filter_perm f _ _ Hp).
  - by rewrite (List_filter_perm f _ _ Hp), Hp'.
  - by apply StronglySorted_List_filter.
  - done.
  - intros a Ha. rewrite He' by done. unfold equals_of.
    rewrite List_filter_comm. fold (equals_of c a (sort c l)).
    rewrite He by (by apply Hsub). unfold equals_of.
    apply List_filter_comm.
Qed.


End SortAgain.

Section SortingInTheViewer.

Variable StringToNumber : string -> option Z.
Variable Array_sort : (Row -> Row -> Z) -> list Row -> list Row.
Hypothesis Hsort : EcmaSort Array_sort.

Local Abbreviation Recompute := (recompute StringToNumber Array_sort).
Local Abbreviation HandleSort := (handleSort StringToNumber Array_sort).
Local Abbreviation SetSearchQuery :=
  (setSearchQuery StringToNumber Array_sort).
Local Abbreviation CompareRows := (compareRows StringToNumber).

Lemma setSearchQuery_rows q st :
  (data st < length (store st))%nat ->
  q <> searchQuery st ->
  let after := SetSearchQuery q st in
  sortConfig after = sortConfig st
  /\ searchQuery after = q
  /\ (data after < length (store after))%nat
  /\ filteredRows after
     = derivedRows StringToNumber Array_sort (dataRows st) q (sortConfig st)
  /\ dataRows after
     = if JsString.truthy q then dataRows st
       else derivedRows StringToNumber Array_sort (dataRows st) q
              (sortConfig st).
Proof.
  intros Hd Hq after. subst after. unfold setSearchQuery.
  destruct (String.eqb_spec q (searchQuery st)); [done|].
  set (st' := mkState _ _ _ _ _ _ _ _ _).
  assert (data st' < length (store st'))%nat as Hd' by done.
  destruct (recompute_frame StringToNumber Array_sort st')
    as (_ & _ & Hq' & Hs' & _).
  split_and!; [done | done | | |].
  - by apply recompute_wf.
  - by rewrite recompute_filteredRows.
  - by rewrite recompute_dataRows.
Qed.

(** X17.  While the query is not empty, no click on a header and no new
    query changes the rows of [data]: the sort works on the filtered copy.
    With the empty query the array of [data] is the array that is sorted and
    shown. *)
Theorem query_protects_data (st : State) (column : string) :
  (data st < length (store st))%nat ->
  (JsString.truthy (searchQuery st) = true ->
   dataRows (HandleSort column st) = dataRows st)
  /\ (forall q, JsString.truthy q = true ->
        dataRows (SetSearchQuery q st) = dataRows st)
  /\ (JsString.truthy (searchQuery st) = false ->
      dataRows (HandleSort column st) = filteredRows (HandleSort column st)
      /\ data (HandleSort column st) = filteredData (HandleSort column st)).
Proof.
  intros Hd.
  destruct (handleSort_rows StringToNumber Array_sort column st Hd)
    as (_ & _ & _ & Hf & Hr).
  split_and!.
  - intros Hq. by rewrite Hr, Hq.
  - intros q Hq. destruct (String.eqb_spec q (searchQuery st)) as [->|Hne].
    + unfold setSearchQuery. by rewrite String.eqb_refl.
    + destruct (setSearchQuery_rows q st Hd Hne) as (_ & _ & _ & _ & ->).
      by rewrite Hq.
  - intros Hq. split.
    + rewrite Hf, Hr, Hq. unfold filterRows. by rewrite Hq.
    + unfold handleSort, recompute, applySearchFilter.
      cbn [searchQuery]. by rewrite Hq.
Qed.

(** X18.  When the comparator is consistent on the rows that pass the
    filter, what the effect leaves does not depend on the engine: two sort
    procedures that keep the promise of the language give the same state. *)
Theorem consistent_sort_is_engine_independent
    (other_sort : (Row -> Row -> Z) -> list Row -> list Row) (st : State) :
  EcmaSort other_sort ->
  (forall cfg, sortConfig st = Some cfg ->
     consistent (CompareRows cfg)
       (filterRows (searchQuery st) (dataRows st))) ->
  Recompute st = recompute StringToNumber other_sort st.
Proof.
  intros Hother Hc.
  rewrite (recompute_EcmaSort StringToNumber Array_sort st Hsort Hc).
  by rewrite (recompute_EcmaSort StringToNumber other_sort st Hother Hc).
Qed.


(** X20.  Searching and sorting commute on a consistent column: starting
    with the empty query, a click on a header followed by a query leaves
    the rows that the query followed by the click leaves. *)
Theorem search_and_sort_commute (st : State) (column q : string) :
  (data st < length (store st))%nat ->
  searchQuery st = EmptyString ->
  JsString.truthy q = true ->
  consistent (CompareRows (nextSortConfig (sortConfig st) column))
    (dataRows st) ->
  filteredRows (SetSearchQuery q (HandleSort column st))
  = filteredRows (HandleSort column (SetSearchQuery q st)).
Proof.
  intros Hd Hempty Hq Hc.
  assert (q <> EmptyString) as Hne by (by destruct q).
  set (cfg := nextSortConfig (sortConfig st) column) in *.
  set (c := CompareRows cfg) in *.
  (* the click, then the query *)
  destruct (handleSort_rows StringToNumber Array_sort column st Hd)
    as (Hs1 & Hq1 & Hd1 & _ & Hr1).
  rewrite Hempty in Hr1, Hq1. cbn [JsString.truthy] in Hr1.
  destruct (setSearchQuery_rows q (HandleSort column st) Hd1)
    as (_ & _ & _ & -> & _); [by rewrite Hq1|].
  rewrite Hs1, Hr1. fold cfg. fold c.
  (* the query, then the click *)
  destruct (setSearchQuery_rows q st Hd) as (Hs2 & Hq2 & Hd2 & _ & Hr2);
    [by rewrite Hempty|].
  rewrite Hq in Hr2.
  destruct (handleSort_rows StringToNumber Array_sort column
              (SetSearchQuery q st) Hd2) as (_ & _ & _ & -> & _).
  rewrite Hs2, Hq2, Hr2. fold cfg. fold c.
  unfold derivedRows, filterRows. rewrite Hq.
  rewrite (filter_sort_commute _ Hsort) by done.
  apply (sort_sort _ Hsort c c).
  - eapply consistent_subseteq; [|done].
    apply sublist_subseteq, List_filter_sublist.
  - eapply consistent_subseteq; [|done].
    apply sublist_subseteq, List_filter_sublist.
  - done.
Qed.

End SortingInTheViewer.

Lemma query_protects_data_witness :
  dataRows
    (v8_handleSort "name"
       (setSearchQuery StringToNumber_dec v8_sort "a" (v8_viewer names_csv)))
  = parsed_data names_csv.
Proof.
  refine (proj1 (query_protects_data StringToNumber_dec v8_sort
            (setSearchQuery StringToNumber_dec v8_sort "a"
               (v8_viewer names_csv)) "name" _) _).
  - vm_compute. lia.
  - reflexivity.
Defined.

Lemma consistent_sort_is_engine_independent_witness :
  v8_handleSort "age" (v8_viewer people_csv)
  = handleSort StringToNumber_dec insertion_sort "age" (v8_viewer people_csv).
Proof.
  unfold v8_handleSort, handleSort.
  apply (consistent_sort_is_engine_independent StringToNumber_dec v8_sort
           v8_sort_EcmaSort insertion_sort).
  - apply insertion_sort_EcmaSort.
  - intros cfg [= <-]. apply consistentb_spec. reflexivity.
Defined.



Lemma search_and_sort_commute_witness :
  filteredRows
    (setSearchQuery StringToNumber_dec v8_sort "o"
       (v8_handleSort "age" (v8_viewer people_csv)))
  = filteredRows
      (v8_handleSort "age"
         (setSearchQuery StringToNumber_dec v8_sort "o"
            (v8_viewer people_csv))).
Proof.
  apply (search_and_sort_commute StringToNumber_dec v8_sort v8_sort_EcmaSort
           (v8_viewer people_csv) "age" "o").
  - vm_compute. lia.
  - reflexivity.
  - reflexivity.
  - apply consistentb_spec. reflexivity.
Defined.

Lemma compareRows_consistent_numeric_witness :
  consistent
    (compareRows StringToNumber_dec {| key := "age"; direction := desc |})
    (parsed_data people_csv).
Proof.
  apply (compareRows_consistent_numeric StringToNumber_dec
           {| key := "age"; direction := desc |} (parsed_data people_csv)).
  repeat constructor.
Defined.

Lemma compareRows_consistent_strings_witness :
  consistent
    (compareRows StringToNumber_dec {| key := "name"; direction := asc |})
    (parsed_data people_csv).
Proof.
  apply (compareRows_consistent_strings StringToNumber_dec
           {| key := "name"; direction := asc |} (parsed_data people_csv)).
  repeat constructor.
Defined.

(** ** The file tree, again *)

Section TreeFacts.

Variable toLocaleDateString : string -> string.

Local Abbreviation Render := (Tree.FileNode toLocaleDateString).
Local Abbreviation Row_ := (Tree.renderRow toLocaleDateString).

Lemma FileNode_unfold node inst :
  Render node inst
  = Tree.Elem "div" "select-none"
      (Row_ node (Tree.expanded inst)
       :: (if Tree.expanded inst && Tree.isFolder node
              && (0 <? length (Tree.children node))%nat
           then [Tree.Elem "div"
                   "ml-6 mt-1 space-y-1 border-l border-slate-200 pl-4"
                   (renderChildren toLocaleDateString (Tree.children node)
                      (Tree.mounted inst))]
           else [])
       ++ (if Tree.expanded inst && Tree.isFolder node
              && (length (Tree.children node) =? 0)%nat
           then [Tree.emptyFolderIndicator]
           else [])).
Proof.
  destruct node as [n t ft ca mb cs]. cbn [Tree.FileNode Tree.children].
  do 3 f_equal.
  destruct (_ && _ && _); [|done]. do 2 f_equal.
  generalize (Tree.mounted inst). induction cs as [|c cs IH]; intros insts.
  - done.
  - cbn [renderChildren]. f_equal. apply IH.
Qed.

Lemma renderChildren_fresh cs :
  renderChildren toLocaleDateString cs (map (fun _ => Tree.fresh) cs)
  = map (fun child => Tree.Elem "div" "select-none" [Row_ child false]) cs.
Proof.
  induction cs as [|c cs IH]; [done|].
  cbn [renderChildren map hd tl]. rewrite IH. f_equal.
  apply FileNode_collapsed.
Qed.

(** X21.  Only an expanded folder renders anything below its row: a node
    that is not a folder, whatever its state, and a collapsed folder,
    whatever its children, render their row alone. *)
Theorem only_expanded_folders_render_below (node : Tree.TreeNode)
    (inst : Tree.Instance) :
  Tree.isFolder node = false \/ Tree.expanded inst = false ->
  Render node inst
  = Tree.Elem "div" "select-none" [Row_ node (Tree.expanded inst)].
Proof.
  intros H. rewrite FileNode_unfold.
  destruct H as [-> | ->]; by rewrite ?andb_false_r.
Qed.

(** X22.  A collapsed folder with children, once clicked, renders its row
    followed by one element per child, in the order of [children], each
    child collapsed (its row alone), and no "Empty folder" placeholder. *)
Theorem expanded_folder_lists_its_children (node : Tree.TreeNode) :
  Tree.isFolder node = true ->
  Tree.children node <> [] ->
  Render node (Tree.clickRow node Tree.fresh).1
  = Tree.Elem "div" "select-none"
      [ Row_ node true;
        Tree.Elem "div" "ml-6 mt-1 space-y-1 border-l border-slate-200 pl-4"
          (map (fun child =>
                  Tree.Elem "div" "select-none" [Row_ child false])
               (Tree.children node)) ].
Proof.
  intros Hf Hc. rewrite FileNode_unfold.
  unfold Tree.clickRow. rewrite Hf. unfold Tree.toggle, Tree.fresh.
  cbn [fst Tree.expanded Tree.mounted negb]. rewrite Hf. cbn [andb].
  destruct (Tree.children node) as [|c cs] eqn:E; [done|].
  cbn [length Nat.ltb Nat.leb Nat.eqb app].
  by rewrite <- renderChildren_fresh.
Qed.

(** X23.  A click on a node that is not a folder changes no state and
    reports exactly that node through [onFileClick]; a click that reports a
    node was a click on such a node, and a click on a folder reports
    nothing. *)
Theorem click_reports_files_only (path : list nat) (node : Tree.TreeNode)
    (inst : Tree.Instance) :
  (forall reported,
     (Tree.click path node inst).2 = Some reported ->
     (Tree.click path node inst).1 = inst
     /\ nodeAt path node = Some reported
     /\ Tree.isFolder reported = false)
  /\ (forall target,
        nodeAt path node = Some target -> Tree.isFolder target = true ->
        (Tree.click path node inst).2 = None).
Proof.
  revert node inst. induction path as [|i path IH]; intros node inst.
  - cbn [Tree.click nodeAt]. unfold Tree.clickRow. split.
    + intros reported. destruct (Tree.isFolder node) eqn:Hf; [done|].
      cbn. by intros [= <-].
    + intros target [= <-] ->. done.
  - cbn [Tree.click nodeAt].
    destruct (Tree.children node !! i) as [child|]; [|by split].
    destruct (Tree.mounted inst !! i) as [sub|] eqn:Hsub.
    2:{ split; [done|]. intros target _ _. done. }
    destruct (IH child sub) as [IH1 IH2].
    destruct (Tree.click path child sub) as [sub' r]; cbn [fst snd] in *.
    split.
    + intros reported ->.
      destruct (IH1 reported eq_refl) as (-> & Hn & Hf).
      split; [|done]. rewrite list_insert_id by done. by destruct inst.
    + intros target Ht Hf. by apply (IH2 target).
Qed.

(** X24.  Collapsing a folder unmounts its children, and with them their
    state: after a folder is collapsed and expanded again, every child is
    collapsed, whatever was expanded below it before. *)
Theorem collapse_forgets_descendants (node : Tree.TreeNode)
    (inst : Tree.Instance) :
  Tree.isFolder node = true ->
  Tree.expanded inst = true ->
  let collapsed := (Tree.clickRow node inst).1 in
  let again := (Tree.clickRow node collapsed).1 in
  Tree.mounted collapsed = []
  /\ again = Tree.mkInstance true (map (fun _ => Tree.fresh) (Tree.children node))
  /\ Render node again = Render node (Tree.clickRow node Tree.fresh).1.
Proof.
  intros Hf He collapsed again. subst collapsed again.
  unfold Tree.clickRow. rewrite Hf. cbn [fst].
  unfold Tree.toggle. rewrite He. cbn [negb andb Tree.expanded].
  by rewrite Hf.
Qed.

(** X25.  A click changes the [expanded] flag of no node other than the
    clicked one and the nodes below it: the flags of its ancestors, of its
    siblings and of their descendants stay as they are. *)
Theorem click_is_local (path other : list nat) (node : Tree.TreeNode)
    (inst : Tree.Instance) :
  ~ path `prefix_of` other ->
  Tree.expanded <$> instanceAt other (Tree.click path node inst).1
  = Tree.expanded <$> instanceAt other inst.
Proof.
  revert other node inst.
  induction path as [|i path IH]; intros other node inst Hpre.
  { destruct Hpre. apply prefix_nil. }
  cbn [Tree.click].
  destruct (Tree.children node !! i) as [child|]; [|done].
  destruct (Tree.mounted inst !! i) as [sub|] eqn:Hsub; [|done].
  specialize (IH (tl other) child sub).
  destruct (Tree.click path child sub) as [sub' r]; cbn [fst] in *.
  destruct other as [|j other]; [done|].
  cbn [instanceAt Tree.mounted tl] in *.
  destruct (decide (i = j)) as [<- | Hne].
  - rewrite list_lookup_insert_eq by (by eapply lookup_lt_Some).
    rewrite Hsub. apply IH. intros Hp. apply Hpre. by apply prefix_cons.
  - by rewrite list_lookup_insert_ne.
Qed.

End TreeFacts.

Lemma only_expanded_folders_render_below_witness :
  let file := Tree.mkNode "a.csv" "file" "csv" "2024-01-01" "ann" [] in
  Tree.FileNode (fun s => s) file (Tree.mkInstance true [])
  = Tree.Elem "div" "select-none"
      [Tree.renderRow (fun s => s) file true].
Proof.
  intros file.
  apply (only_expanded_folders_render_below (fun s => s) file
           (Tree.mkInstance true [])).
  left. reflexivity.
Defined.

Lemma expanded_folder_lists_its_children_witness :
  let file := Tree.mkNode "a.csv" "file" "csv" "2024-01-01" "ann" [] in
  let sub := Tree.mkNode "old" "folder" EmptyString "2024-01-01" "bob" [file] in
  let root := Tree.mkNode "docs" "folder" EmptyString "2024-01-01" "ann"
                [sub; file] in
  Tree.FileNode (fun s => s) root (Tree.clickRow root Tree.fresh).1
  = Tree.Elem "div" "select-none"
      [ Tree.renderRow (fun s => s) root true;
        Tree.Elem "div" "ml-6 mt-1 space-y-1 border-l border-slate-200 pl-4"
          [ Tree.Elem "div" "select-none" [Tree.renderRow (fun s => s) sub false];
            Tree.Elem "div" "select-none"
              [Tree.renderRow (fun s => s) file false] ] ].
Proof.
  intros file sub root.
  apply (expanded_folder_lists_its_children (fun s => s) root);
    [reflexivity | discriminate].
Defined.

Lemma click_reports_files_only_witness :
  let file := Tree.mkNode "a.csv" "file" "csv" "2024-01-01" "ann" [] in
  let root := Tree.mkNode "docs" "folder" EmptyString "2024-01-01" "ann"
                [file] in
  let opened := (Tree.clickRow root Tree.fresh).1 in
  (Tree.click [0%nat] root opened).1 = opened
  /\ (Tree.click [] root opened).2 = None.
Proof.
  intros file root opened. split.
  - apply (proj1 (click_reports_files_only [0%nat] root opened) file).
    reflexivity.
  - apply (proj2 (click_reports_files_only [] root opened) root);
      reflexivity.
Defined.

Lemma collapse_forgets_descendants_witness :
  let file := Tree.mkNode "a.csv" "file" "csv" "2024-01-01" "ann" [] in
  let sub := Tree.mkNode "old" "folder" EmptyString "2024-01-01" "bob" [file] in
  let root := Tree.mkNode "docs" "folder" EmptyString "2024-01-01" "ann"
                [sub] in
  let deep := Tree.mkInstance true [Tree.mkInstance true [Tree.fresh]] in
  (Tree.clickRow root (Tree.clickRow root deep).1).1
  = Tree.mkInstance true [Tree.fresh].
Proof.
  intros file sub root deep.
  apply (collapse_forgets_descendants (fun s => s) root deep); reflexivity.
Defined.

Lemma click_is_local_witness :
  let file := Tree.mkNode "a.csv" "file" "csv" "2024-01-01" "ann" [] in
  let sub := Tree.mkNode "old" "folder" EmptyString "2024-01-01" "bob" [file] in
  let root := Tree.mkNode "docs" "folder" EmptyString "2024-01-01" "ann"
                [sub; sub] in
  let inst := Tree.mkInstance true [Tree.fresh; Tree.mkInstance true [Tree.fresh]] in
  Tree.expanded <$> instanceAt [1%nat] (Tree.click [0%nat] root inst).1
  = Some true.
Proof.
  intros file sub root inst.
  rewrite (click_is_local [0%nat] [1%nat] root inst); [reflexivity|].
  intros [k Hk]. discriminate Hk.
Defined.

(** ** The icon and the hover colour of a node *)

(** X26.  [renderIcon] and [getFileTypeColor] branch alike: a node has an
    icon exactly when its hover colour is not the slate default, and the
    colour of the icon is the hover colour (blue for a folder, whatever its
    file type; green for csv, red for pdf). *)
Theorem icon_and_hover_colour_agree (node : Tree.TreeNode) :
  (Tree.renderIcon node = []
   <-> Tree.getFileTypeColor node = "hover:bg-slate-50")
  /\ (forall h, h ∈ Tree.renderIcon node ->
      exists component colour,
        h = Tree.Icon component ("w-4 h-4 text-" +:+ colour +:+ "-500")
        /\ Tree.getFileTypeColor node = "hover:bg-" +:+ colour +:+ "-50")
  /\ (Tree.isFolder node = true ->
      Tree.renderIcon node = [Tree.Icon "Folder" "w-4 h-4 text-blue-500"]).
Proof.
  unfold Tree.renderIcon, Tree.getFileTypeColor.
  destruct (Tree.isFolder node).
  { split_and!; [done | | done].
    intros h ->%list_elem_of_singleton. by exists "Folder", "blue". }
  destruct (String.eqb (Tree.fileType node) "csv").
  { split_and!; [done | | done].
    intros h ->%list_elem_of_singleton. by exists "Database", "green". }
  destruct (String.eqb (Tree.fileType node) "pdf").
  { split_and!; [done | | done].
    intros h ->%list_elem_of_singleton. by exists "FileText", "red". }
  split_and!; [done | | done].
  intros h Hh. by apply elem_of_nil in Hh.
Qed.

Lemma icon_and_hover_colour_agree_witness :
  Tree.renderIcon
    (Tree.mkNode "docs" "folder" "csv" "2024-01-01" "ann" [])
  = [Tree.Icon "Folder" "w-4 h-4 text-blue-500"].
Proof.
  apply (icon_and_hover_colour_agree
           (Tree.mkNode "docs" "folder" "csv" "2024-01-01" "ann" [])).
  reflexivity.
Defined.

